(** * CipherShare: client-side crypto helpers, the secret-creation page and
      the secret life cycle.

    The development embeds
      - [lib/crypto.js]  (key and IV generation, AES-256-CBC text and file
        encryption, PIN hashing, base64 helpers) and
      - [pages/CreateSecret.jsx]  (file admission control and the
        creation flow)
    as Rocq functions, over models of what they call: crypto-js (hex,
    UTF-8 and base64 encoders, AES in CBC mode with PKCS#7 padding,
    SHA-256) and the platform ([crypto.getRandomValues], [btoa], [atob],
    [FileReader]).  JavaScript strings are sequences of UTF-16 code units,
    byte buffers ([Uint8Array], [ArrayBuffer], the significant bytes of a
    crypto-js [WordArray]) are lists of [byte].  Calls that can raise
    return a [completion].  The random source is threaded explicitly.
    The server side of the secret life cycle is a state machine over a
    finite map. *)

From stdpp Require Import gmap.
From Stdlib Require Import String Ascii NArith ZArith List Lia Bool.
From Stdlib.Strings Require Byte.
Import ListNotations.
Local Open Scope N_scope.

Abbreviation byte := Byte.byte.

(** ** JavaScript values *)

(** A JavaScript string: its UTF-16 code units. *)
Definition jsstring : Type := list N.

(** An ASCII literal as a JavaScript string. *)
Definition js (s : String.string) : jsstring :=
  map N_of_ascii (list_ascii_of_string s).

(** Every element is below 2^16: the value really is a JavaScript string. *)
Definition is_jsstring (s : jsstring) : Prop := Forall (fun c => c < 65536) s.

Inductive error : Type :=
| URIError                (* encodeURIComponent on an unpaired surrogate *)
| MalformedUtf8           (* crypto-js: Error('Malformed UTF-8 data') *)
| InvalidCharacterError   (* btoa / atob DOMException *)
| FileReadError           (* FileReader.onerror *)
| HttpError (status : N)  (* rejected request carrying error.response.status *)
| NetworkError.           (* rejected request without a response *)

Inductive completion (A : Type) : Type :=
| Return (a : A)
| Throw (e : error).
Arguments Return {A} a.
Arguments Throw {A} e.

Definition cbind {A B} (c : completion A) (k : A -> completion B) : completion B :=
  match c with
  | Return a => k a
  | Throw e => Throw e
  end.

Notation "'do' x <- c ; k" := (cbind c (fun x => k))
  (at level 10, x name, c at level 100, k at level 200).

(** [try { body } catch (error) { return null; }] *)
Definition try_or_null {A} (c : completion A) : completion (option A) :=
  match c with
  | Return a => Return (Some a)
  | Throw _ => Return None
  end.

Definition byte_of_N (n : N) : byte :=
  match Byte.of_N (n mod 256) with
  | Some b => b
  | None => Byte.x00
  end.

Definition charCode (b : byte) : N := Byte.to_N b.

(** ** The random source: [crypto.getRandomValues] *)

(** The stream of bytes the platform generator will deliver. *)
Definition Rng : Type := nat -> byte.

(** Fill a fresh [Uint8Array] of [n] bytes. *)
Definition getRandomValues (n : nat) (r : Rng) : list byte * Rng :=
  (map r (seq 0 n), fun i => r (n + i)%nat).

(** ** Hexadecimal *)

Definition hexChars : jsstring := js "0123456789abcdef".

Definition hex_digit (n : N) : N := nth (N.to_nat n) hexChars 48.

(** [Number.prototype.toString(16)] on a non-negative integer. *)
Fixpoint toString16_aux (fuel : nat) (n : N) (acc : jsstring) : jsstring :=
  match fuel with
  | O => acc
  | S f =>
      let acc' := hex_digit (n mod 16) :: acc in
      if n / 16 =? 0 then acc' else toString16_aux f (n / 16) acc'
  end.

Definition toString16 (n : N) : jsstring :=
  toString16_aux (S (N.to_nat (N.log2 n))) n [].

(** [String.prototype.padStart(len, c)] for a one-unit filler. *)
Definition padStart (len : nat) (c : N) (s : jsstring) : jsstring :=
  repeat c (len - length s) ++ s.

(** [Array.from(array, byte => byte.toString(16).padStart(2, '0')).join('')] *)
Definition hexOfArray (arr : list byte) : jsstring :=
  concat (map (fun b => padStart 2 48 (toString16 (Byte.to_N b))) arr).

Definition generateEncryptionKey (r : Rng) : jsstring * Rng :=
  let '(array, r') := getRandomValues 32 r in
  (hexOfArray array, r').

Definition generateIV (r : Rng) : jsstring * Rng :=
  let '(array, r') := getRandomValues 16 r in
  (hexOfArray array, r').

(** Value of a hexadecimal digit, upper or lower case. *)
Definition hexval (c : N) : option N :=
  if (48 <=? c) && (c <=? 57) then Some (c - 48)
  else if (97 <=? c) && (c <=? 102) then Some (c - 87)
  else if (65 <=? c) && (c <=? 70) then Some (c - 55)
  else None.

Definition is_hex (c : N) : bool :=
  match hexval c with Some _ => true | None => false end.

(** A string of [n] bytes written as [2 * n] hexadecimal digits. *)
Definition hex_string (n : nat) (s : jsstring) : Prop :=
  length s = (2 * n)%nat /\ forallb is_hex s = true.

(** A 256-bit key: 64 hexadecimal digits. *)
Definition valid_key (k : jsstring) : Prop := hex_string 32 k.

(** A 128-bit IV: 32 hexadecimal digits. *)
Definition valid_iv (iv : jsstring) : Prop := hex_string 16 iv.

Module Hex.

(** [parseInt(chunk, 16)] on a chunk of at most two units, with [NaN]
    (no leading digit) turned into 0 as [NaN << k] is.  Chunks that
    start with white space, a sign or the prefix 0x, and a last chunk of
    one unit, are outside the model: keys and IVs here are strings of an
    even number of digits. *)
Definition parseInt16 (chunk : jsstring) : N :=
  match chunk with
  | [] => 0
  | [c] => match hexval c with Some v => v | None => 0 end
  | c1 :: c2 :: _ =>
      match hexval c1 with
      | None => 0
      | Some v1 =>
          match hexval c2 with
          | Some v2 => 16 * v1 + v2
          | None => v1
          end
      end
  end.

(** [CryptoJS.enc.Hex.parse]: one byte for every two units. *)
Fixpoint parse (hexStr : jsstring) : list byte :=
  match hexStr with
  | c1 :: c2 :: rest => byte_of_N (parseInt16 [c1; c2]) :: parse rest
  | _ => []
  end.

(** [CryptoJS.enc.Hex.stringify]: high nibble, then low nibble. *)
Definition stringify (bytes : list byte) : jsstring :=
  concat (map (fun b =>
                 let bite := Byte.to_N b in
                 toString16 (N.shiftr bite 4) ++ toString16 (N.land bite 15))
              bytes).

End Hex.

(** ** UTF-8, as crypto-js reaches it through the URI functions *)

Module Utf8.

Definition is_high_surrogate (c : N) : bool := (55296 <=? c) && (c <=? 56319).
Definition is_low_surrogate (c : N) : bool := (56320 <=? c) && (c <=? 57343).

(** The UTF-8 octets of a code point. *)
Definition octets (v : N) : list byte :=
  if v <? 128 then [byte_of_N v]
  else if v <? 2048 then
    [byte_of_N (192 + v / 64); byte_of_N (128 + v mod 64)]
  else if v <? 65536 then
    [byte_of_N (224 + v / 4096); byte_of_N (128 + (v / 64) mod 64);
     byte_of_N (128 + v mod 64)]
  else
    [byte_of_N (240 + v / 262144); byte_of_N (128 + (v / 4096) mod 64);
     byte_of_N (128 + (v / 64) mod 64); byte_of_N (128 + v mod 64)].

(** [CryptoJS.enc.Utf8.parse]:
    [Latin1.parse(unescape(encodeURIComponent(str)))].
    [encodeURIComponent] raises [URIError] on an unpaired surrogate. *)
Fixpoint parse (str : jsstring) : completion (list byte) :=
  match str with
  | [] => Return []
  | c :: rest =>
      if is_low_surrogate c then Throw URIError
      else if is_high_surrogate c then
        match rest with
        | [] => Throw URIError
        | k :: rest' =>
            if is_low_surrogate k then
              do tl <- parse rest';
              Return (octets ((c - 55296) * 1024 + (k - 56320) + 65536) ++ tl)
            else Throw URIError
        end
      else
        do tl <- parse rest;
        Return (octets c ++ tl)
  end.

Definition is_continuation (b : byte) : bool :=
  let n := Byte.to_N b in (128 <=? n) && (n <? 192).

(** The code units of a decoded code point. *)
Definition units (v : N) : jsstring :=
  if v <? 65536 then [v]
  else [55296 + (v - 65536) / 1024; 56320 + (v - 65536) mod 1024].

(** [CryptoJS.enc.Utf8.stringify]:
    [decodeURIComponent(escape(Latin1.stringify(wordArray)))], any
    [URIError] rethrown as [Error('Malformed UTF-8 data')].  The decoder
    accepts exactly the valid encodings of code points: no stray
    continuation octet, no truncated or overlong form, no surrogate,
    nothing above U+10FFFF. *)
Fixpoint stringify (bytes : list byte) : completion jsstring :=
  match bytes with
  | [] => Return []
  | b0 :: r0 =>
      let n0 := Byte.to_N b0 in
      if n0 <? 128 then
        do tl <- stringify r0; Return (n0 :: tl)
      else if n0 <? 192 then Throw MalformedUtf8
      else if n0 <? 224 then
        match r0 with
        | b1 :: r1 =>
            let v := (n0 - 192) * 64 + (Byte.to_N b1 - 128) in
            if is_continuation b1 && (128 <=? v) then
              do tl <- stringify r1; Return (units v ++ tl)
            else Throw MalformedUtf8
        | _ => Throw MalformedUtf8
        end
      else if n0 <? 240 then
        match r0 with
        | b1 :: b2 :: r2 =>
            let v := (n0 - 224) * 4096 + (Byte.to_N b1 - 128) * 64
                     + (Byte.to_N b2 - 128) in
            if is_continuation b1 && is_continuation b2 && (2048 <=? v)
               && negb ((55296 <=? v) && (v <=? 57343)) then
              do tl <- stringify r2; Return (units v ++ tl)
            else Throw MalformedUtf8
        | _ => Throw MalformedUtf8
        end
      else if n0 <? 248 then
        match r0 with
        | b1 :: b2 :: b3 :: r3 =>
            let v := (n0 - 240) * 262144 + (Byte.to_N b1 - 128) * 4096
                     + (Byte.to_N b2 - 128) * 64 + (Byte.to_N b3 - 128) in
            if is_continuation b1 && is_continuation b2 && is_continuation b3
               && (65536 <=? v) && (v <=? 1114111) then
              do tl <- stringify r3; Return (units v ++ tl)
            else Throw MalformedUtf8
        | _ => Throw MalformedUtf8
        end
      else Throw MalformedUtf8
  end.

(** A Unicode scalar value: a code point that is not a surrogate. *)
Definition scalar (v : N) : Prop := (v < 55296 \/ 57344 <= v) /\ v < 1114112.

(** No unpaired surrogate: the strings [encodeURIComponent] accepts. *)
Fixpoint well_formed (str : jsstring) : bool :=
  match str with
  | [] => true
  | c :: rest =>
      if is_low_surrogate c then false
      else if is_high_surrogate c then
        match rest with
        | [] => false
        | k :: rest' => is_low_surrogate k && well_formed rest'
        end
      else well_formed rest
  end.

End Utf8.

(** ** Base64: crypto-js's encoder and the platform's [btoa] / [atob] *)

(** ASCII white space, which [atob] strips. *)
Definition is_ascii_whitespace (c : N) : bool :=
  (c =? 9) || (c =? 10) || (c =? 12) || (c =? 13) || (c =? 32).

Module Base64.

(** The alphabet, [_map] without its padding character. *)
Definition alphabet : jsstring :=
  js "ABCDEFGHIJKLMNOPQRSTUVWXYZabcdefghijklmnopqrstuvwxyz0123456789+/".

Definition paddingChar : N := 61.

(** [map.charAt(v)] *)
Definition char (v : N) : N := nth (N.to_nat v) alphabet 0.

(** [_reverseMap[c]], [None] for [undefined]. *)
Definition reverse (c : N) : option N :=
  if (65 <=? c) && (c <=? 90) then Some (c - 65)
  else if (97 <=? c) && (c <=? 122) then Some (c - 71)
  else if (48 <=? c) && (c <=? 57) then Some (c + 4)
  else if c =? 43 then Some 62
  else if c =? 47 then Some 63
  else None.

(** The characters of the significant bytes, before padding. *)
Fixpoint body (bytes : list byte) : jsstring :=
  match bytes with
  | [] => []
  | [b1] =>
      let t := Byte.to_N b1 * 65536 in
      [char (t / 262144); char ((t / 4096) mod 64)]
  | [b1; b2] =>
      let t := Byte.to_N b1 * 65536 + Byte.to_N b2 * 256 in
      [char (t / 262144); char ((t / 4096) mod 64); char ((t / 64) mod 64)]
  | b1 :: b2 :: b3 :: rest =>
      let t := Byte.to_N b1 * 65536 + Byte.to_N b2 * 256 + Byte.to_N b3 in
      char (t / 262144) :: char ((t / 4096) mod 64)
        :: char ((t / 64) mod 64) :: char (t mod 64) :: body rest
  end.

(** [while (base64Chars.length % 4) base64Chars.push(paddingChar)] *)
Definition pad (chars : jsstring) : jsstring :=
  chars ++ repeat paddingChar ((4 - length chars mod 4) mod 4).

(** [CryptoJS.enc.Base64.stringify] *)
Definition stringify (bytes : list byte) : jsstring := pad (body bytes).

(** A unit outside the alphabet reads as [undefined], which the shifts
    of the parse loop treat as 0. *)
Definition value (c : N) : N :=
  match reverse c with Some v => v | None => 0 end.

(** The parse loop: position [i] with [i % 4 <> 0] yields one byte from
    the units at [i - 1] and [i]. *)
Fixpoint parseLoop (s : jsstring) : list byte :=
  match s with
  | c0 :: c1 :: c2 :: c3 :: rest =>
      byte_of_N (value c0 * 4 + value c1 / 16)
        :: byte_of_N (value c1 * 16 + value c2 / 4)
        :: byte_of_N (value c2 * 64 + value c3) :: parseLoop rest
  | [c0; c1; c2] =>
      [byte_of_N (value c0 * 4 + value c1 / 16);
       byte_of_N (value c1 * 16 + value c2 / 4)]
  | [c0; c1] => [byte_of_N (value c0 * 4 + value c1 / 16)]
  | _ => []
  end.

(** A unit of the alphabet: it has a value, is no pad, no white space,
    and is ASCII. *)
Definition alphabetic (c : N) : Prop :=
  (exists w, reverse c = Some w) /\ c <> paddingChar
  /\ is_ascii_whitespace c = false
  /\ c < 128.

(** The same for the character of a 6-bit value, as a test. *)
Definition sextet_ok (v : N) : bool :=
  (value (char v) =? v)
  && match reverse (char v) with Some _ => true | None => false end
  && negb (char v =? paddingChar)
  && negb (is_ascii_whitespace (char v))
  && (char v <? 128).

(** [base64Str.indexOf(paddingChar)]: keep what precedes the first pad. *)
Fixpoint before_padding (s : jsstring) : jsstring :=
  match s with
  | [] => []
  | c :: rest => if c =? paddingChar then [] else c :: before_padding rest
  end.

(** [CryptoJS.enc.Base64.parse]: no validation, never raises. *)
Definition parse (base64Str : jsstring) : list byte :=
  parseLoop (before_padding base64Str).

End Base64.

(** [btoa]: raises on a unit above 255, else encodes the units as bytes. *)
Definition btoa (binary : jsstring) : completion jsstring :=
  if forallb (fun c => c <? 256) binary
  then Return (Base64.stringify (map byte_of_N binary))
  else Throw InvalidCharacterError.

(** Forgiving base64: drop one or two final pads of a string whose length
    is a multiple of 4. *)
Definition remove_padding (s : jsstring) : jsstring :=
  if (length s mod 4 =? 0)%nat then
    match rev s with
    | a :: b :: r =>
        if a =? 61 then if b =? 61 then rev r else rev (b :: r) else s
    | [a] => if a =? 61 then [] else s
    | [] => s
    end
  else s.

(** [atob]: the forgiving base64 decoder; the result is a binary string. *)
Definition atob (data : jsstring) : completion jsstring :=
  let data := filter (fun c => negb (is_ascii_whitespace c)) data in
  let data := remove_padding data in
  if (length data mod 4 =? 1)%nat then Throw InvalidCharacterError
  else if forallb (fun c => match Base64.reverse c with
                            | Some _ => true | None => false end) data
  then Return (map charCode (Base64.parseLoop data))
  else Throw InvalidCharacterError.

(** [arrayBufferToBase64]: build the binary string with
    [String.fromCharCode(bytes[i])], then [btoa]. *)
Definition arrayBufferToBase64 (buffer : list byte) : completion jsstring :=
  let binary := fold_left (fun acc b => acc ++ [charCode b]) buffer [] in
  btoa binary.

(** [base64ToArrayBuffer]: [atob], then [bytes[i] = binary.charCodeAt(i)]. *)
Definition base64ToArrayBuffer (base64 : jsstring) : completion (list byte) :=
  do binary <- atob base64;
  Return (map byte_of_N binary).

(** ** AES (FIPS 197), the block cipher behind [CryptoJS.AES] *)

Module AES.

Definition bxor (a b : byte) : byte :=
  byte_of_N (N.lxor (Byte.to_N a) (Byte.to_N b)).

(** Multiplication by x in GF(2^8) modulo x^8 + x^4 + x^3 + x + 1. *)
Definition xtime (a : byte) : byte :=
  let n := Byte.to_N a in
  byte_of_N (N.lxor (2 * n) (if 128 <=? n then 283 else 0)).

Fixpoint gmul_aux (n : nat) (a : byte) (b : N) (acc : byte) : byte :=
  match n with
  | O => acc
  | S n' =>
      gmul_aux n' (xtime a) (b / 2) (if N.odd b then bxor acc a else acc)
  end.

Definition gmul (a b : byte) : byte := gmul_aux 8 a (Byte.to_N b) Byte.x00.

Definition gsquare (a : byte) : byte := gmul a a.

(** The multiplicative inverse: a^254, with 0 sent to 0. *)
Definition ginv (a : byte) : byte :=
  let a2 := gsquare a in
  let a4 := gsquare a2 in
  let a8 := gsquare a4 in
  let a16 := gsquare a8 in
  let a32 := gsquare a16 in
  let a64 := gsquare a32 in
  let a128 := gsquare a64 in
  gmul a128 (gmul a64 (gmul a32 (gmul a16 (gmul a8 (gmul a4 a2))))).

Definition rotl8 (n k : N) : N :=
  N.lor (N.shiftl n k mod 256) (N.shiftr n (8 - k)).

Definition sbox_of (a : byte) : byte :=
  let x := Byte.to_N (ginv a) in
  byte_of_N (N.lxor x (N.lxor (rotl8 x 1) (N.lxor (rotl8 x 2)
               (N.lxor (rotl8 x 3) (N.lxor (rotl8 x 4) 99))))).

Definition all_bytes : list byte :=
  Eval vm_compute in map (fun i => byte_of_N (N.of_nat i)) (seq 0 256).

Definition SBOX : list byte := Eval vm_compute in map sbox_of all_bytes.

Fixpoint index_of (x : byte) (l : list byte) : nat :=
  match l with
  | [] => O
  | y :: l' => if Byte.eqb x y then O else S (index_of x l')
  end.

Definition INV_SBOX : list byte :=
  Eval vm_compute in
    map (fun b => byte_of_N (N.of_nat (index_of b SBOX))) all_bytes.

Definition sub (b : byte) : byte := nth (N.to_nat (Byte.to_N b)) SBOX Byte.x00.
Definition inv_sub (b : byte) : byte :=
  nth (N.to_nat (Byte.to_N b)) INV_SBOX Byte.x00.

(** [x ^ undefined] is [x]: a missing operand leaves the left one. *)
Fixpoint xor_block (a b : list byte) : list byte :=
  match a, b with
  | x :: a', y :: b' => bxor x y :: xor_block a' b'
  | _, [] => a
  | [], _ => []
  end.

Definition sub_bytes (s : list byte) : list byte := map sub s.
Definition inv_sub_bytes (s : list byte) : list byte := map inv_sub s.

(** The state is stored column by column: byte [r + 4 c] is row [r] of
    column [c]. Row [r] rotates left by [r]. *)
Definition shift_rows (s : list byte) : list byte :=
  match s with
  | [s0; s1; s2; s3; s4; s5; s6; s7; s8; s9; s10; s11; s12; s13; s14; s15] =>
      [s0; s5; s10; s15; s4; s9; s14; s3; s8; s13; s2; s7; s12; s1; s6; s11]
  | _ => s
  end.

Definition inv_shift_rows (s : list byte) : list byte :=
  match s with
  | [s0; s1; s2; s3; s4; s5; s6; s7; s8; s9; s10; s11; s12; s13; s14; s15] =>
      [s0; s13; s10; s7; s4; s1; s14; s11; s8; s5; s2; s15; s12; s9; s6; s3]
  | _ => s
  end.

Definition mul2 (a : byte) : byte := xtime a.
Definition mul3 (a : byte) : byte := bxor (xtime a) a.
Definition mul9 (a : byte) : byte := bxor (xtime (xtime (xtime a))) a.
Definition mul11 (a : byte) : byte :=
  bxor (xtime (xtime (xtime a))) (bxor (xtime a) a).
Definition mul13 (a : byte) : byte :=
  bxor (xtime (xtime (xtime a))) (bxor (xtime (xtime a)) a).
Definition mul14 (a : byte) : byte :=
  bxor (xtime (xtime (xtime a))) (bxor (xtime (xtime a)) (xtime a)).

Definition xor4 (a b c d : byte) : byte := bxor (bxor a b) (bxor c d).

Definition mix_column (a b c d : byte) : list byte :=
  [xor4 (mul2 a) (mul3 b) c d;
   xor4 a (mul2 b) (mul3 c) d;
   xor4 a b (mul2 c) (mul3 d);
   xor4 (mul3 a) b c (mul2 d)].

Definition inv_mix_column (a b c d : byte) : list byte :=
  [xor4 (mul14 a) (mul11 b) (mul13 c) (mul9 d);
   xor4 (mul9 a) (mul14 b) (mul11 c) (mul13 d);
   xor4 (mul13 a) (mul9 b) (mul14 c) (mul11 d);
   xor4 (mul11 a) (mul13 b) (mul9 c) (mul14 d)].

Fixpoint mix_columns (s : list byte) : list byte :=
  match s with
  | a :: b :: c :: d :: rest => mix_column a b c d ++ mix_columns rest
  | _ => s
  end.

Fixpoint inv_mix_columns (s : list byte) : list byte :=
  match s with
  | a :: b :: c :: d :: rest => inv_mix_column a b c d ++ inv_mix_columns rest
  | _ => s
  end.

Definition add_round_key (s k : list byte) : list byte := xor_block s k.

(** *** Key schedule *)

Definition rot_word (w : list byte) : list byte :=
  match w with
  | a :: rest => rest ++ [a]
  | [] => []
  end.

(** Words [Nk ..] of the schedule; [w] holds the words so far, [rc] the
    next round constant. *)
Fixpoint expand (n Nk i : nat) (w : list (list byte)) (rc : byte)
  : list (list byte) :=
  match n with
  | O => w
  | S n' =>
      let temp := nth (i - 1) w [] in
      let '(temp, rc') :=
        if (i mod Nk =? 0)%nat then
          (xor_block (map sub (rot_word temp)) [rc], xtime rc)
        else if (6 <? Nk)%nat && (i mod Nk =? 4)%nat then (map sub temp, rc)
        else (temp, rc) in
      expand n' Nk (S i) (w ++ [xor_block (nth (i - Nk) w []) temp]) rc'
  end.

Fixpoint chunks (n size : nat) (l : list byte) : list (list byte) :=
  match n with
  | O => []
  | S n' => firstn size l :: chunks n' size (skipn size l)
  end.

(** The round keys of a key of [4 * Nk] bytes: [Nk + 7] blocks.  This is
    the schedule of FIPS 197 for 16, 24 and 32 bytes, the lengths the
    statements below use. *)
Definition key_schedule (key : list byte) : list (list byte) :=
  let Nk := (length key / 4)%nat in
  let w := expand (4 * (Nk + 7) - Nk) Nk Nk (chunks Nk 4 key) Byte.x01 in
  chunks (Nk + 7) 16 (concat w).

Definition round (s k : list byte) : list byte :=
  add_round_key (mix_columns (shift_rows (sub_bytes s))) k.

Definition inv_round (s k : list byte) : list byte :=
  inv_sub_bytes (inv_shift_rows (inv_mix_columns (add_round_key s k))).

(** Cipher (FIPS 197, figure 5) under the round keys [ks]. *)
Definition cipher (ks : list (list byte)) (block : list byte) : list byte :=
  match ks with
  | k0 :: k1 :: rest =>
      let s := fold_left round (removelast (k1 :: rest)) (add_round_key block k0) in
      add_round_key (shift_rows (sub_bytes s)) (last (k1 :: rest) k1)
  | _ => block
  end.

(** InvCipher (FIPS 197, figure 12). *)
Definition inv_cipher (ks : list (list byte)) (block : list byte) : list byte :=
  match ks with
  | k0 :: k1 :: rest =>
      let s := inv_sub_bytes (inv_shift_rows
                 (add_round_key block (last (k1 :: rest) k1))) in
      add_round_key (fold_left inv_round (rev (removelast (k1 :: rest))) s) k0
  | _ => block
  end.

Definition encryptBlock (key block : list byte) : list byte :=
  cipher (key_schedule key) block.

Definition decryptBlock (key block : list byte) : list byte :=
  inv_cipher (key_schedule key) block.

End AES.

(** ** SHA-256 (FIPS 180-4), the hash behind [CryptoJS.SHA256] *)

Module SHA256.

Definition w32 (x : N) : N := x mod 4294967296.
Definition add32 (a b : N) : N := w32 (a + b).
Definition rotr (n x : N) : N :=
  N.lor (N.shiftr x n) (w32 (N.shiftl x (32 - n))).
Definition not32 (x : N) : N := 4294967295 - x.

Definition Ch (x y z : N) : N := N.lxor (N.land x y) (N.land (not32 x) z).
Definition Maj (x y z : N) : N :=
  N.lxor (N.land x y) (N.lxor (N.land x z) (N.land y z)).
Definition Sigma0 (x : N) : N := N.lxor (rotr 2 x) (N.lxor (rotr 13 x) (rotr 22 x)).
Definition Sigma1 (x : N) : N := N.lxor (rotr 6 x) (N.lxor (rotr 11 x) (rotr 25 x)).
Definition sigma0 (x : N) : N := N.lxor (rotr 7 x) (N.lxor (rotr 18 x) (N.shiftr x 3)).
Definition sigma1 (x : N) : N := N.lxor (rotr 17 x) (N.lxor (rotr 19 x) (N.shiftr x 10)).

Definition K : list N :=
  [1116352408; 1899447441; 3049323471; 3921009573;
   961987163; 1508970993; 2453635748; 2870763221;
   3624381080; 310598401; 607225278; 1426881987;
   1925078388; 2162078206; 2614888103; 3248222580;
   3835390401; 4022224774; 264347078; 604807628;
   770255983; 1249150122; 1555081692; 1996064986;
   2554220882; 2821834349; 2952996808; 3210313671;
   3336571891; 3584528711; 113926993; 338241895;
   666307205; 773529912; 1294757372; 1396182291;
   1695183700; 1986661051; 2177026350; 2456956037;
   2730485921; 2820302411; 3259730800; 3345764771;
   3516065817; 3600352804; 4094571909; 275423344;
   430227734; 506948616; 659060556; 883997877;
   958139571; 1322822218; 1537002063; 1747873779;
   1955562222; 2024104815; 2227730452; 2361852424;
   2428436474; 2756734187; 3204031479; 3329325298].

Definition H0 : list N :=
  [1779033703; 3144134277; 1013904242; 2773480762;
   1359893119; 2600822924; 528734635; 1541459225].

(** Big-endian bytes of a number, [n] of them. *)
Fixpoint be_bytes (n : nat) (x : N) : list byte :=
  match n with
  | O => []
  | S n' => be_bytes n' (x / 256) ++ [byte_of_N x]
  end.

Definition be_word (bs : list byte) : N :=
  fold_left (fun acc b => acc * 256 + Byte.to_N b) bs 0.

(** The message, a 1 bit, zeros up to 56 modulo 64, the bit length. *)
Definition padding (msg : list byte) : list byte :=
  let l := length msg in
  msg ++ [Byte.x80] ++ repeat Byte.x00 ((119 - l mod 64) mod 64)
      ++ be_bytes 8 (8 * N.of_nat l).

Fixpoint words (n : nat) (bs : list byte) : list N :=
  match n with
  | O => []
  | S n' => be_word (firstn 4 bs) :: words n' (skipn 4 bs)
  end.

(** The message schedule, most recent word first. *)
Fixpoint extend (n : nat) (w : list N) : list N :=
  match n with
  | O => w
  | S n' =>
      let x := add32 (add32 (sigma1 (nth 1 w 0)) (nth 6 w 0))
                     (add32 (sigma0 (nth 14 w 0)) (nth 15 w 0)) in
      extend n' (x :: w)
  end.

Definition schedule (block : list byte) : list N :=
  rev (extend 48 (rev (words 16 block))).

Definition step (h : list N) (kw : N * N) : list N :=
  match h with
  | [a; b; c; d; e; f; g; hh] =>
      let t1 := add32 (add32 (add32 hh (Sigma1 e)) (Ch e f g))
                      (add32 (fst kw) (snd kw)) in
      let t2 := add32 (Sigma0 a) (Maj a b c) in
      [add32 t1 t2; a; b; c; add32 d t1; e; f; g]
  | _ => h
  end.

Fixpoint add_words (x y : list N) : list N :=
  match x, y with
  | a :: x', b :: y' => add32 a b :: add_words x' y'
  | _, _ => []
  end.

Definition compress (h : list N) (block : list byte) : list N :=
  add_words h (fold_left step (combine K (schedule block)) h).

Fixpoint blocks (n : nat) (h : list N) (bs : list byte) : list N :=
  match n with
  | O => h
  | S n' => blocks n' (compress h (firstn 64 bs)) (skipn 64 bs)
  end.

Definition hash (msg : list byte) : list byte :=
  let m := padding msg in
  concat (map (be_bytes 4) (blocks (length m / 64) H0 m)).

End SHA256.

(** ** crypto-js entry points as [lib/crypto.js] calls them *)

Module CryptoJS.

(** [CryptoJS.pad.Pkcs7.pad] for the 16-byte block. *)
Definition pkcs7_pad (data : list byte) : list byte :=
  let n := (16 - length data mod 16)%nat in
  data ++ repeat (byte_of_N (N.of_nat n)) n.

(** [CryptoJS.pad.Pkcs7.unpad]: the low byte of the word that holds the
    last significant byte is subtracted from [sigBytes]; nothing is
    checked.  The result is the new [sigBytes], 0 standing for any
    non-positive value. *)
Definition pkcs7_unpad (data : list byte) (sigBytes : nat) : nat :=
  let nPaddingBytes :=
    match sigBytes with
    | O => O
    | S m => N.to_nat (Byte.to_N (nth (4 * (m / 4) + 3) data Byte.x00))
    end in
  (sigBytes - nPaddingBytes)%nat.

(** [CryptoJS.mode.CBC.Encryptor]: [n] blocks, [prev] the IV or the
    previous ciphertext block. *)
Fixpoint cbc_encrypt (n : nat) (ks : list (list byte)) (prev data : list byte)
  : list byte :=
  match n with
  | O => []
  | S n' =>
      let c := AES.cipher ks (AES.xor_block (firstn 16 data) prev) in
      c ++ cbc_encrypt n' ks c (skipn 16 data)
  end.

(** [CryptoJS.mode.CBC.Decryptor] *)
Fixpoint cbc_decrypt (n : nat) (ks : list (list byte)) (prev data : list byte)
  : list byte :=
  match n with
  | O => []
  | S n' =>
      let c := firstn 16 data in
      AES.xor_block (AES.inv_cipher ks c) prev
        ++ cbc_decrypt n' ks c (skipn 16 data)
  end.

(** [CryptoJS.AES.encrypt(message, key, {iv, mode: CBC, padding: Pkcs7})
    .ciphertext] for a string message, which is read as UTF-8. *)
Definition AES_encrypt (message : jsstring) (key iv : list byte)
  : completion (list byte) :=
  do data <- Utf8.parse message;
  let data := pkcs7_pad data in
  Return (cbc_encrypt (length data / 16) (AES.key_schedule key) iv data).

(** The decryptor's processed blocks.  A ciphertext that stops inside a
    block is processed with the missing words read as 0. *)
Definition decrypt_blocks (ciphertext key iv : list byte) : list byte :=
  let n := length ciphertext in
  let data := ciphertext ++ repeat Byte.x00 ((16 - n mod 16) mod 16) in
  cbc_decrypt (length data / 16) (AES.key_schedule key) iv data.

(** [CryptoJS.AES.decrypt({ciphertext}, key, {iv, mode: CBC, padding:
    Pkcs7})]: the processed blocks, cut to the [sigBytes] that the
    unpadding leaves. *)
Definition AES_decrypt (ciphertext key iv : list byte) : list byte :=
  let data := decrypt_blocks ciphertext key iv in
  firstn (pkcs7_unpad data (length ciphertext)) data.

(** [CryptoJS.SHA256(message)] for a string message. *)
Definition SHA256 (message : jsstring) : completion (list byte) :=
  do data <- Utf8.parse message;
  Return (SHA256.hash data).

End CryptoJS.

(** The PIN digest as the specification words it: the SHA-256 digest of
    the UTF-8 bytes of the PIN, hex-encoded.  A PIN with an unpaired
    surrogate has no UTF-8 form. *)
Definition pin_digest_spec (pin : jsstring) : completion jsstring :=
  match Utf8.parse pin with
  | Return utf8 => Return (hexOfArray (SHA256.hash utf8))
  | Throw e => Throw e
  end.

(** ** [lib/crypto.js] *)

Module EncryptedText.
Record t : Type := { ciphertext : jsstring; iv : jsstring }.
End EncryptedText.

(** [encryptText(plaintext, key)] *)
Definition encryptText (plaintext key : jsstring) (r : Rng)
  : completion EncryptedText.t * Rng :=
  let '(iv, r) := generateIV r in
  let keyWordArray := Hex.parse key in
  let ivWordArray := Hex.parse iv in
  (do encrypted <- CryptoJS.AES_encrypt plaintext keyWordArray ivWordArray;
   Return {| EncryptedText.ciphertext := Base64.stringify encrypted;
             EncryptedText.iv := iv |},
   r).

(** [decryptText(ciphertext, key, iv)]: [null] is [None]. *)
Definition decryptText (ciphertext key iv : jsstring)
  : completion (option jsstring) :=
  try_or_null
    (let keyWordArray := Hex.parse key in
     let ivWordArray := Hex.parse iv in
     let cipherParams := Base64.parse ciphertext in
     let decrypted := CryptoJS.AES_decrypt cipherParams keyWordArray ivWordArray in
     Utf8.stringify decrypted).

(** The bytes [decryptText] hands to the UTF-8 decoder. *)
Definition decrypted_bytes (ct key iv : jsstring) : list byte :=
  CryptoJS.AES_decrypt (Base64.parse ct) (Hex.parse key) (Hex.parse iv).

(** [hashPin(pin)]: [toString()] of a [WordArray] is its hex form. *)
Definition hashPin (pin : jsstring) : completion jsstring :=
  do digest <- CryptoJS.SHA256 pin;
  Return (Hex.stringify digest).

(** A [File]: its metadata and what a [FileReader] will deliver. *)
Module File.
Record t : Type :=
  { name : jsstring; type : jsstring; size : N;
    contents : completion (list byte) }.
End File.

(** [readFileAsArrayBuffer(file)]: the promise resolves with the bytes or
    rejects with the reader's error. *)
Definition readFileAsArrayBuffer (file : File.t) : completion (list byte) :=
  File.contents file.

Module EncryptedFile.
Record t : Type :=
  { encryptedData : jsstring; iv : jsstring; filename : jsstring;
    fileType : jsstring; fileSize : N }.
End EncryptedFile.

(** [encryptFile(file, key)]: the IV is drawn after the read has settled. *)
Definition encryptFile (file : File.t) (key : jsstring) (r : Rng)
  : completion EncryptedFile.t * Rng :=
  match (do arrayBuffer <- readFileAsArrayBuffer file;
         arrayBufferToBase64 arrayBuffer) with
  | Throw e => (Throw e, r)
  | Return base64Data =>
      let '(iv, r) := generateIV r in
      let keyWordArray := Hex.parse key in
      let ivWordArray := Hex.parse iv in
      (do encrypted <- CryptoJS.AES_encrypt base64Data keyWordArray ivWordArray;
       Return {| EncryptedFile.encryptedData := Base64.stringify encrypted;
                 EncryptedFile.iv := iv;
                 EncryptedFile.filename := File.name file;
                 EncryptedFile.fileType :=
                   match File.type file with
                   | [] => js "application/octet-stream"
                   | ty => ty
                   end;
                 EncryptedFile.fileSize := File.size file |},
       r)
  end.

(** [decryptFile(encryptedData, key, iv)]: [null] is [None]. *)
Definition decryptFile (encryptedData key iv : jsstring)
  : completion (option (list byte)) :=
  try_or_null
    (let keyWordArray := Hex.parse key in
     let ivWordArray := Hex.parse iv in
     let cipherParams := Base64.parse encryptedData in
     let decrypted := CryptoJS.AES_decrypt cipherParams keyWordArray ivWordArray in
     do base64Data <- Utf8.stringify decrypted;
     base64ToArrayBuffer base64Data).

(** ** [pages/CreateSecret.jsx] *)

Definition MAX_FILE_SIZE : N := 10 * 1024 * 1024.
Definition MAX_FILES : nat := 5.

(** One encrypted file as it travels in the creation request. *)
Module FilePayload.
Record t : Type :=
  { encrypted_data : jsstring; iv : jsstring; filename : jsstring;
    file_type : jsstring; file_size : N }.
End FilePayload.

(** The argument of [createSecret]: the request to the storage boundary.
    [expiryMinutes] is [None] when [parseInt] gives [NaN]. *)
Module Payload.
Record t : Type :=
  { encryptedData : jsstring; iv : jsstring; pinHash : option jsstring;
    expiryMinutes : option N; oneTimeView : bool;
    files : option (list FilePayload.t) }.
End Payload.

(** The router state handed to the share page. *)
Module ShareState.
Record t : Type :=
  { secretId : jsstring; encryptionKey : jsstring; expiryMinutes : option N;
    oneTimeView : bool; hasPin : bool; hasFiles : bool; fileCount : nat }.
End ShareState.

(** The component state of [CreateSecret]. *)
Module Page.
Record t : Type :=
  { secretText : jsstring; expiryMinutes : jsstring; oneTimeView : bool;
    usePin : bool; pin : jsstring; isCreating : bool; files : list File.t }.

(** [useState] initial values. *)
Definition initial : t :=
  {| secretText := []; expiryMinutes := js "60"; oneTimeView := true;
     usePin := false; pin := []; isCreating := false; files := [] |}.

Definition setFiles (fs : list File.t) (st : t) : t :=
  {| secretText := secretText st; expiryMinutes := expiryMinutes st;
     oneTimeView := oneTimeView st; usePin := usePin st; pin := pin st;
     isCreating := isCreating st; files := fs |}.
End Page.

(** What a handler does besides updating the component state. *)
Inductive effect : Type :=
| ToastError (msg : jsstring)
| ToastInfo (msg : jsstring)
| ToastSuccess (msg : jsstring)
| SetIsCreating (b : bool)
| CreateSecretCall (payload : Payload.t)   (* the only network request *)
| Navigate (path : jsstring) (state : ShareState.t)
| ConsoleError (e : error).

(** [files.reduce((sum, f) => sum + f.size, 0)] *)
Definition total_size (files : list File.t) : N :=
  fold_left (fun sum f => sum + File.size f) files 0.

(** [handleFileSelect(selectedFiles)].  The handler's [files] is the list
    of the render it closes over, the one [setFiles] then extends: each
    event is handled after the re-render of the previous one. *)
Definition handleFileSelect (st : Page.t) (selectedFiles : list File.t)
  : Page.t * list effect :=
  let files := Page.files st in
  let fileArray := selectedFiles in
  if (MAX_FILES <? length files + length fileArray)%nat then
    (st, [ToastError (js "Maximum 5 files allowed")])
  else
    let currentSize := total_size files in
    let newSize := total_size fileArray in
    if MAX_FILE_SIZE <? currentSize + newSize then
      (st, [ToastError (js "Total file size exceeds 10MB limit")])
    else (Page.setFiles (files ++ fileArray) st, []).

(** [prev.filter((_, i) => i !== index)] *)
Fixpoint remove_at {A} (index : nat) (l : list A) : list A :=
  match l, index with
  | [], _ => []
  | _ :: l', O => l'
  | x :: l', S i => x :: remove_at i l'
  end.

Definition removeFile (st : Page.t) (index : nat) : Page.t :=
  Page.setFiles (remove_at index (Page.files st)) st.

(** The two events that change the file list. *)
Inductive file_event : Type :=
| Select (selectedFiles : list File.t)
| Remove (index : nat).

Definition handle_file_event (st : Page.t) (ev : file_event) : Page.t :=
  match ev with
  | Select selectedFiles => fst (handleFileSelect st selectedFiles)
  | Remove index => removeFile st index
  end.

(** The admission-control bound on the client-held file list. *)
Definition admissible (files : list File.t) : Prop :=
  (length files <= MAX_FILES)%nat /\ total_size files <= MAX_FILE_SIZE.

(** White space and line terminators, the units [trim] strips. *)
Definition is_js_whitespace (c : N) : bool :=
  ((9 <=? c) && (c <=? 13)) || (c =? 32) || (c =? 160) || (c =? 5760)
  || ((8192 <=? c) && (c <=? 8202)) || (c =? 8232) || (c =? 8233)
  || (c =? 8239) || (c =? 8287) || (c =? 12288) || (c =? 65279).

(** [!str.trim()] *)
Definition trims_to_empty (str : jsstring) : bool := forallb is_js_whitespace str.

(** [parseInt(str)] on a string of decimal digits; anything else is
    outside what the expiry selector can hold and reads as [NaN]. *)
Definition parseInt (str : jsstring) : option N :=
  match str with
  | [] => None
  | _ =>
      if forallb (fun c => (48 <=? c) && (c <=? 57)) str
      then Some (fold_left (fun acc c => 10 * acc + (c - 48)) str 0)
      else None
  end.

(** The functions the page imports from [lib/crypto]. *)
Module CryptoLib.
Record t : Type :=
  { generateEncryptionKey : Rng -> jsstring * Rng;
    encryptText : jsstring -> jsstring -> Rng -> completion EncryptedText.t * Rng;
    hashPin : jsstring -> completion jsstring;
    encryptFile : File.t -> jsstring -> Rng -> completion EncryptedFile.t * Rng }.
End CryptoLib.

(** [import { encryptText, generateEncryptionKey, hashPin, encryptFile }
    from '../lib/crypto'] *)
Definition crypto : CryptoLib.t :=
  {| CryptoLib.generateEncryptionKey := generateEncryptionKey;
     CryptoLib.encryptText := encryptText;
     CryptoLib.hashPin := hashPin;
     CryptoLib.encryptFile := encryptFile |}.

(** The callbacks of [files.map(async (file) => ...)], run in list order. *)
Fixpoint encryptFiles (lib : CryptoLib.t) (files : list File.t)
    (key : jsstring) (r : Rng) : list (completion FilePayload.t) * Rng :=
  match files with
  | [] => ([], r)
  | file :: rest =>
      let '(encrypted, r) := CryptoLib.encryptFile lib file key r in
      let p :=
        do encrypted <- encrypted;
        Return {| FilePayload.encrypted_data := EncryptedFile.encryptedData encrypted;
                  FilePayload.iv := EncryptedFile.iv encrypted;
                  FilePayload.filename := EncryptedFile.filename encrypted;
                  FilePayload.file_type := EncryptedFile.fileType encrypted;
                  FilePayload.file_size := EncryptedFile.fileSize encrypted |} in
      let '(ps, r) := encryptFiles lib rest key r in
      (p :: ps, r)
  end.

(** [Promise.all]: every value, or the first rejection. *)
Fixpoint promise_all {A} (ps : list (completion A)) : completion (list A) :=
  match ps with
  | [] => Return []
  | p :: rest =>
      do x <- p;
      do xs <- promise_all rest;
      Return (x :: xs)
  end.

(** The [try] block of [handleCreate]: the effects it produced, how it
    completed, and the random source afterwards.  [createSecret] is the
    answer of the storage boundary to the request. *)
Definition handleCreate_try (lib : CryptoLib.t) (st : Page.t)
    (createSecret : Payload.t -> completion jsstring) (r : Rng)
  : list effect * completion unit * Rng :=
  let '(encryptionKey, r) := CryptoLib.generateEncryptionKey lib r in
  let '(encrypted, r) :=
    CryptoLib.encryptText lib
      (match Page.secretText st with [] => js " " | text => text end)
      encryptionKey r in
  match encrypted with
  | Throw e => ([], Throw e, r)
  | Return encrypted =>
      match (if Page.usePin st
             then do h <- CryptoLib.hashPin lib (Page.pin st); Return (Some h)
             else Return None) with
      | Throw e => ([], Throw e, r)
      | Return pinHash =>
          let '(effs, encryptedFiles, r) :=
            match Page.files st with
            | [] => ([], Return None, r)
            | _ =>
                let '(ps, r) := encryptFiles lib (Page.files st) encryptionKey r in
                ([ToastInfo (js "Encrypting files...")],
                 do fs <- promise_all ps; Return (Some fs), r)
            end in
          match encryptedFiles with
          | Throw e => (effs, Throw e, r)
          | Return encryptedFiles =>
              let payload :=
                {| Payload.encryptedData := EncryptedText.ciphertext encrypted;
                   Payload.iv := EncryptedText.iv encrypted;
                   Payload.pinHash := pinHash;
                   Payload.expiryMinutes := parseInt (Page.expiryMinutes st);
                   Payload.oneTimeView := Page.oneTimeView st;
                   Payload.files := encryptedFiles |} in
              match createSecret payload with
              | Throw e => (effs ++ [CreateSecretCall payload], Throw e, r)
              | Return id =>
                  (effs ++
                   [CreateSecretCall payload;
                    Navigate (js "/share")
                      {| ShareState.secretId := id;
                         ShareState.encryptionKey := encryptionKey;
                         ShareState.expiryMinutes := parseInt (Page.expiryMinutes st);
                         ShareState.oneTimeView := Page.oneTimeView st;
                         ShareState.hasPin := Page.usePin st;
                         ShareState.hasFiles := negb (length (Page.files st) =? 0)%nat;
                         ShareState.fileCount := length (Page.files st) |};
                    ToastSuccess (js "Secret encrypted and stored securely")],
                   Return tt, r)
              end
          end
      end
  end.

(** [handleCreate()], with the imported crypto functions as [lib]. *)
Definition handleCreate (lib : CryptoLib.t) (st : Page.t)
    (createSecret : Payload.t -> completion jsstring) (r : Rng)
  : list effect * Rng :=
  if trims_to_empty (Page.secretText st) && (length (Page.files st) =? 0)%nat
  then ([ToastError (js "Please enter a secret or add files to share")], r)
  else if Page.usePin st
          && ((length (Page.pin st) =? 0)%nat || (length (Page.pin st) <? 4)%nat)
  then ([ToastError (js "PIN must be at least 4 characters")], r)
  else
    let '(effs, result, r) := handleCreate_try lib st createSecret r in
    ([SetIsCreating true] ++ effs ++
     match result with
     | Return _ => []
     | Throw e =>
         [ConsoleError e;
          ToastError
            match e with
            | HttpError 413 => js "Files too large. Please reduce total size."
            | _ => js "Failed to create secret. Please try again."
            end]
     end ++ [SetIsCreating false],
     r).

(** The router states a run of a handler navigated with. *)
Definition navigations (effs : list effect) : list ShareState.t :=
  flat_map (fun e => match e with Navigate _ s => [s] | _ => [] end) effs.

(** [secretText || ' '] *)
Definition text_or_space (st : Page.t) : jsstring :=
  match Page.secretText st with [] => js " " | text => text end.

(** The request entry built from one [encryptFile] result. *)
Definition file_payload_of (encrypted : EncryptedFile.t) : FilePayload.t :=
  {| FilePayload.encrypted_data := EncryptedFile.encryptedData encrypted;
     FilePayload.iv := EncryptedFile.iv encrypted;
     FilePayload.filename := EncryptedFile.filename encrypted;
     FilePayload.file_type := EncryptedFile.fileType encrypted;
     FilePayload.file_size := EncryptedFile.fileSize encrypted |}.

(** The requests a run of a handler sent to the storage boundary. *)
Definition requests (effs : list effect) : list Payload.t :=
  flat_map (fun e => match e with CreateSecretCall p => [p] | _ => [] end) effs.

(** ** The secret life cycle at the storage boundary *)

Module Server.

(** Modelled from the spec: the backend that stores envelopes and serves
    view requests is not among the sources; this is the state machine of
    the specification's sections 3, 4.4, 5 and 6.  Time is counted in
    minutes.  An identifier is an opaque token never issued twice, here
    a counter.  Every request is one atomic transition of the store, as
    section 5 requires, so a concurrent execution is an interleaving: a
    list of requests.  Rate limiting sits in front of the state machine
    and is not part of it. *)
Record envelope : Type :=
  { encrypted_data : jsstring; iv : jsstring; pin_hash : option jsstring;
    expiry_minutes : N; one_time_view : bool;
    files : option (list FilePayload.t);
    created_at : N; expires_at : N; viewed : bool }.

Record creation : Type :=
  { c_encrypted_data : jsstring; c_iv : jsstring;
    c_pin_hash : option jsstring; c_expiry_minutes : N;
    c_one_time_view : bool; c_files : option (list FilePayload.t) }.

Record state : Type := { store : gmap N envelope; next_id : N }.

Inductive request : Type :=
| Create (c : creation)
| CheckExistence (id : N)
| View (id : N) (pin_hash : option jsstring)
| Delete (id : N)
| Sweep.

Inductive response : Type :=
| CreatedId (id : N)
| Existence (exist requires_pin terminal : bool)
| ViewOk (e : envelope)
| PinMismatch
| Gone
| RateLimited
| Done.

(** What a successful view of a one-time envelope does to the record:
    the specification allows either. *)
Inductive consume : Type := MarkViewed | DeleteRecord.

Definition mark_viewed (e : envelope) : envelope :=
  {| encrypted_data := encrypted_data e; iv := iv e; pin_hash := pin_hash e;
     expiry_minutes := expiry_minutes e; one_time_view := one_time_view e;
     files := files e; created_at := created_at e;
     expires_at := expires_at e; viewed := true |}.

Definition expired (now : N) (e : envelope) : bool := expires_at e <? now.

Definition exhausted (e : envelope) : bool := one_time_view e && viewed e.

Definition jsstring_eqb (a b : jsstring) : bool :=
  if list_eq_dec N.eq_dec a b then true else false.

Definition pin_ok (e : envelope) (supplied : option jsstring) : bool :=
  match pin_hash e with
  | None => true
  | Some h =>
      match supplied with
      | Some h' => jsstring_eqb h h'
      | None => false
      end
  end.

(** The view request: existence, expiry, one-time exhaustion, PIN, in
    this order; on success the record is consumed in the same step. *)
Definition view (c : consume) (now id : N) (supplied : option jsstring)
    (st : state) : response * state :=
  match store st !! id with
  | None => (Gone, st)
  | Some e =>
      if expired now e then (Gone, st)
      else if exhausted e then (Gone, st)
      else if negb (pin_ok e supplied) then (PinMismatch, st)
      else
        (ViewOk e,
         if one_time_view e then
           {| store := match c with
                       | MarkViewed => <[id := mark_viewed e]> (store st)
                       | DeleteRecord => delete id (store st)
                       end;
              next_id := next_id st |}
         else st)
  end.

Definition step (c : consume) (now : N) (req : request) (st : state)
  : response * state :=
  match req with
  | Create cr =>
      let id := next_id st in
      (CreatedId id,
       {| store :=
            <[id := {| encrypted_data := c_encrypted_data cr; iv := c_iv cr;
                       pin_hash := c_pin_hash cr;
                       expiry_minutes := c_expiry_minutes cr;
                       one_time_view := c_one_time_view cr;
                       files := c_files cr; created_at := now;
                       expires_at := now + c_expiry_minutes cr;
                       viewed := false |}]> (store st);
          next_id := N.succ id |})
  | CheckExistence id =>
      (match store st !! id with
       | None => Existence false false true
       | Some e =>
           Existence true
             (match pin_hash e with Some _ => true | None => false end)
             (expired now e || exhausted e)
       end, st)
  | View id supplied => view c now id supplied st
  | Delete id =>
      (Done, {| store := delete id (store st); next_id := next_id st |})
  | Sweep =>
      (Done,
       {| store := base.filter (fun kv => expired now (snd kv) = false) (store st);
          next_id := next_id st |})
  end.

(** A schedule: requests with the time at which each one is served. *)
Fixpoint run (c : consume) (reqs : list (N * request)) (st : state)
  : list response * state :=
  match reqs with
  | [] => ([], st)
  | (now, req) :: rest =>
      let '(resp, st) := step c now req st in
      let '(resps, st) := run c rest st in
      (resp :: resps, st)
  end.

(** Identifiers in use were issued by the counter. *)
Definition well_formed (st : state) : Prop :=
  forall id e, store st !! id = Some e -> id < next_id st.

Definition initial : state := {| store := ∅; next_id := 0 |}.

(** The view requests for [id] that succeeded in a schedule. *)
Fixpoint successes (id : N) (reqs : list (N * request))
    (resps : list response) : nat :=
  match reqs, resps with
  | (_, View id' _) :: reqs', ViewOk _ :: resps' =>
      ((if N.eqb id' id then 1 else 0) + successes id reqs' resps')%nat
  | _ :: reqs', _ :: resps' => successes id reqs' resps'
  | _, _ => 0%nat
  end.

(** The identifier was issued, and its record, while it lasts, is a
    one-time envelope. *)
Definition one_time_slot (id : N) (st : state) : Prop :=
  id < next_id st
  /\ forall e, store st !! id = Some e -> one_time_view e = true.

(** The identifier was issued and can no longer be viewed. *)
Definition spent (id : N) (st : state) : Prop :=
  id < next_id st
  /\ forall e, store st !! id = Some e -> exhausted e = true.

(** The state a successful view of [e] at [i] leaves behind. *)
Definition consumed (c : consume) (i : N) (e : envelope) (st : state) : state :=
  if one_time_view e then
    {| store := match c with
                | MarkViewed => <[i := mark_viewed e]> (store st)
                | DeleteRecord => delete i (store st)
                end;
       next_id := next_id st |}
  else st.

(** The view request cut in two transactions, as a store without an
    atomic check-and-mark would run it: first the checks alone ... *)
Definition view_check (now id : N) (supplied : option jsstring) (st : state)
  : response :=
  fst (view MarkViewed now id supplied st).

(** ... then, for a success, the consumption. *)
Definition view_commit (c : consume) (id : N) (resp : response) (st : state)
  : state :=
  match resp with
  | ViewOk e => consumed c id e st
  | _ => st
  end.

(** Every view request for [id] in the schedule was answered [Gone]. *)
Fixpoint views_gone (id : N) (reqs : list (N * request))
    (resps : list response) : Prop :=
  match reqs, resps with
  | (_, req) :: reqs', resp :: resps' =>
      match req with
      | View id' _ => id' = id -> resp = Gone
      | _ => True
      end /\ views_gone id reqs' resps'
  | _, _ => True
  end.

End Server.

(** ** Sample data *)

Module Sample.

Definition key : jsstring :=
  js "000102030405060708090a0b0c0d0e0f101112131415161718191a1b1c1d1e1f".

Definition other_key : jsstring :=
  js "100102030405060708090a0b0c0d0e0f101112131415161718191a1b1c1d1e1f".

Definition short_key : jsstring := js "000102030405060708090a0b0c0d0e0f".

Definition rng : Rng := fun i => byte_of_N (N.of_nat (i * 37 + 11)).

Definition zero_rng : Rng := fun _ => Byte.x00.

Definition big_file : File.t :=
  {| File.name := js "big.bin"; File.type := []; File.size := 10485761;
     File.contents := Throw FileReadError |}.

Definition small_file : File.t :=
  {| File.name := js "a.bin"; File.type := []; File.size := 3;
     File.contents := Return [Byte.x00; Byte.xff; Byte.x80] |}.

Definition creation : Server.creation :=
  {| Server.c_encrypted_data := js "3q2+7w=="; Server.c_iv := js "00";
     Server.c_pin_hash := Some (js "03ac"); Server.c_expiry_minutes := 10;
     Server.c_one_time_view := true; Server.c_files := None |}.

(** The store after one creation at time 0: identifier 0 is in use. *)
Definition server : Server.state :=
  snd (Server.step Server.MarkViewed 0 (Server.Create creation) Server.initial).

Definition stored : Server.envelope :=
  {| Server.encrypted_data := js "3q2+7w=="; Server.iv := js "00";
     Server.pin_hash := Some (js "03ac"); Server.expiry_minutes := 10;
     Server.one_time_view := true; Server.files := None;
     Server.created_at := 0; Server.expires_at := 10;
     Server.viewed := false |}.

(** Two clients race for the secret, both with the right PIN. *)
Definition race : list (N * Server.request) :=
  [(1, Server.View 0 (Some (js "03ac")));
   (1, Server.View 0 (Some (js "03ac")))].



(** A page with no text, one attached file and a PIN. *)
Definition page : Page.t :=
  {| Page.secretText := []; Page.expiryMinutes := js "10";
     Page.oneTimeView := true; Page.usePin := true; Page.pin := js "1234";
     Page.isCreating := false; Page.files := [small_file] |}.

(** A storage boundary that accepts every request. *)
Definition accept (_ : Payload.t) : completion jsstring := Return (js "5ec2e7").

(** A second crypto library: another key comes out of key generation,
    while the encryption entry points produce what [crypto] produces
    under its own key. *)
Definition crypto' : CryptoLib.t :=
  let k := fst (generateEncryptionKey rng) in
  {| CryptoLib.generateEncryptionKey :=
       fun r => (other_key, snd (generateEncryptionKey r));
     CryptoLib.encryptText := fun text _ r => encryptText text k r;
     CryptoLib.hashPin := hashPin;
     CryptoLib.encryptFile := fun file _ r => encryptFile file k r |}.

Definition digest_1234 : jsstring :=
  js "03ac674216f3e15c761ee1a5e255f067953623c8b388b4459e13f978d7c846f4".
Definition digest_12345 : jsstring :=
  js "5994471abb01112afcc18159f6cc74b4f511b99806da59b3caf5a9c173cacfc5".
Definition digest_abc : jsstring :=
  js "ba7816bf8f01cfea414140de5dae2223b00361a396177a9cb410ff61f20015ad".

(** ["hello"] encrypted under [key] with [rng]. *)
Definition hello_ciphertext : jsstring := js "jPCfY8xOh72lxi/HIVrDZw==".
Definition hello_iv : jsstring := js "0b30557a9fc4e90e33587da2c7ec1136".

(** ["hello"] encrypted under the 128-bit [short_key] with the
    all-zero random source. *)
Definition short_ciphertext : jsstring := js "XYdJ4q91MbK/ZmHp5drwEg==".
Definition zero_iv : jsstring := js "00000000000000000000000000000000".

End Sample.

(** ** [pages/CreateSecret.jsx]: what the page displays *)

(** [String.prototype.startsWith(prefix)] *)
Fixpoint startsWith (prefix s : jsstring) : bool :=
  match prefix, s with
  | [], _ => true
  | _ :: _, [] => false
  | p :: prefix', c :: s' => (p =? c) && startsWith prefix' s'
  end.

(** [String.prototype.includes(sub)] *)
Fixpoint includes (sub s : jsstring) : bool :=
  match s with
  | [] => startsWith sub []
  | _ :: s' => startsWith sub s || includes sub s'
  end.

(** The icon components of [lucide-react] the page chooses from. *)
Inductive icon : Type := Image | FileText | FileArchive | FileGeneric.

(** [getFileIcon(type)] *)
Definition getFileIcon (type : jsstring) : icon :=
  if startsWith (js "image/") type then Image
  else if includes (js "pdf") type || includes (js "document") type
          || includes (js "text") type then FileText
  else if includes (js "zip") type || includes (js "rar") type
          || includes (js "archive") type then FileArchive
  else FileGeneric.

(** The decimal digits of a non-negative integer, as a template literal or
    [String(n)] prints it (below 10^21). *)
Fixpoint toString10_aux (fuel : nat) (n : N) (acc : jsstring) : jsstring :=
  match fuel with
  | O => acc
  | S f =>
      let acc' := (48 + n mod 10) :: acc in
      if n / 10 =? 0 then acc' else toString10_aux f (n / 10) acc'
  end.

Definition toString10 (n : N) : jsstring :=
  toString10_aux (S (N.to_nat (N.log2 n))) n [].

(** [(num / den).toFixed(1)] for [den] a power of two and [num] below
    2^53: the quotient is an exact double, and [toFixed] takes the integer
    [n] nearest to ten times it, the larger one on a tie, and prints
    [n / 10], a point and the last digit of [n]. *)
Definition toFixed1 (num den : N) : jsstring :=
  let n := (10 * num + den / 2) / den in
  toString10 (n / 10) ++ [46; 48 + n mod 10].

(** [formatFileSize(bytes)] *)
Definition formatFileSize (bytes : N) : jsstring :=
  if bytes <? 1024 then toString10 bytes ++ js " B"
  else if bytes <? 1024 * 1024 then toFixed1 bytes 1024 ++ js " KB"
  else toFixed1 bytes (1024 * 1024) ++ js " MB".

(** The number a string of decimal digits denotes. *)
Definition read_decimal (s : jsstring) : option N :=
  match s with
  | [] => None
  | _ =>
      if forallb (fun c => (48 <=? c) && (c <=? 57)) s
      then Some (fold_left (fun acc c => 10 * acc + (c - 48)) s 0)
      else None
  end.

(** The number of tenths a string [digits.digit] denotes. *)
Definition read_tenths (s : jsstring) : option N :=
  match rev s with
  | d :: p :: int_rev =>
      if (p =? 46) && (48 <=? d) && (d <=? 57) then
        match read_decimal (rev int_rev) with
        | Some i => Some (10 * i + (d - 48))
        | None => None
        end
      else None
  | _ => None
  end.

(** [const totalFileSize = files.reduce((sum, f) => sum + f.size, 0)] *)
Definition totalFileSize (st : Page.t) : N := total_size (Page.files st).

(** The [disabled] attribute of the create button. *)
Definition create_disabled (st : Page.t) : bool :=
  Page.isCreating st
  || (trims_to_empty (Page.secretText st) && (length (Page.files st) =? 0)%nat).

(** The [value]s of [expiryOptions]. *)
Definition expiryOptions : list jsstring :=
  [js "10"; js "60"; js "360"; js "1440"].

(** The toast of the [catch] block. *)
Definition failure_message (e : error) : jsstring :=
  match e with
  | HttpError 413 => js "Files too large. Please reduce total size."
  | _ => js "Failed to create secret. Please try again."
  end.

(** The random source after [n] bytes were drawn. *)
Definition advance (n : nat) (r : Rng) : Rng := fun i => r (n + i)%nat.

(** The [n] bytes the source delivers from position [from] on. *)
Definition slice (from n : nat) (r : Rng) : list byte := map r (seq from n).

(** A unit [atob] cannot digest: not of the alphabet, no pad, no white
    space. *)
Definition foreign (c : N) : Prop :=
  Base64.reverse c = None /\ c <> 61 /\ is_ascii_whitespace c = false.

(** A file whose read succeeds. *)
Definition readable (file : File.t) : Prop :=
  exists buffer, File.contents file = Return buffer.

(** Both guards of [handleCreate] let the page through. *)
Definition guards_pass (st : Page.t) : Prop :=
  (trims_to_empty (Page.secretText st) = false \/ Page.files st <> [])
  /\ (Page.usePin st = true -> (4 <= length (Page.pin st))%nat).

(** Everything [handleCreate] needs before it can send the request. *)
Definition ready (st : Page.t) : Prop :=
  guards_pass st
  /\ Utf8.well_formed (text_or_space st) = true
  /\ (Page.usePin st = true -> Utf8.well_formed (Page.pin st) = true)
  /\ Forall readable (Page.files st).

(** The three ways the [try] block of [handleCreate] ends, as the effects
    that follow the optional "Encrypting files..." toast. *)
Inductive ending (lib : CryptoLib.t) (st : Page.t)
    (createSecret : Payload.t -> completion jsstring) (r : Rng)
  : list effect -> Prop :=
| FailedBeforeRequest (e : error) :
    ending lib st createSecret r
      [ConsoleError e; ToastError (failure_message e)]
| RequestRejected (p : Payload.t) (e : error) :
    createSecret p = Throw e ->
    ending lib st createSecret r
      [CreateSecretCall p; ConsoleError e; ToastError (failure_message e)]
| RequestAccepted (p : Payload.t) (id : jsstring) :
    createSecret p = Return id ->
    ending lib st createSecret r
      [CreateSecretCall p;
       Navigate (js "/share")
         {| ShareState.secretId := id;
            ShareState.encryptionKey :=
              fst (CryptoLib.generateEncryptionKey lib r);
            ShareState.expiryMinutes := Payload.expiryMinutes p;
            ShareState.oneTimeView := Payload.oneTimeView p;
            ShareState.hasPin := Page.usePin st;
            ShareState.hasFiles := negb (length (Page.files st) =? 0)%nat;
            ShareState.fileCount := length (Page.files st) |};
       ToastSuccess (js "Secret encrypted and stored securely")].

(** The [setIsCreating] calls among the effects. *)
Definition creating_flags (effs : list effect) : list bool :=
  flat_map (fun e => match e with SetIsCreating b => [b] | _ => [] end) effs.

Module Example.

(** A storage boundary that answers every request with status 413. *)
Definition too_large (_ : Payload.t) : completion jsstring :=
  Throw (HttpError 413).

(** A storage boundary that cannot be reached. *)
Definition offline (_ : Payload.t) : completion jsstring := Throw NetworkError.

(** A page whose text ends in an unpaired surrogate. *)
Definition broken_text : Page.t :=
  {| Page.secretText := [104; 55357]; Page.expiryMinutes := js "60";
     Page.oneTimeView := false; Page.usePin := false; Page.pin := [];
     Page.isCreating := false; Page.files := [] |}.

(** A page with a PIN of three characters. *)
Definition short_pin : Page.t :=
  {| Page.secretText := js "s"; Page.expiryMinutes := js "60";
     Page.oneTimeView := false; Page.usePin := true; Page.pin := js "123";
     Page.isCreating := false; Page.files := [] |}.

(** A file the reader fails on. *)
Definition unreadable : File.t :=
  {| File.name := js "gone.txt"; File.type := js "text/plain"; File.size := 5;
     File.contents := Throw FileReadError |}.

(** A readable text file. *)
Definition note : File.t :=
  {| File.name := js "note.txt"; File.type := js "text/plain"; File.size := 2;
     File.contents := Return [Byte.x68; Byte.x69] |}.

(** A clip of a megabyte and a half, on a medium that fails to read. *)
Definition clip : File.t :=
  {| File.name := js "clip.mp4"; File.type := js "video/mp4";
     File.size := 1572864; File.contents := Throw FileReadError |}.

End Example.

(** * Bytes *)

Lemma to_N_lt (b : byte) : Byte.to_N b < 256.
Proof. pose proof (Byte.to_N_bounded b). lia. Qed.

Lemma byte_of_to_N (b : byte) : byte_of_N (Byte.to_N b) = b.
Proof.
  unfold byte_of_N. rewrite N.mod_small by apply to_N_lt.
  now rewrite Byte.of_to_N.
Qed.

Lemma to_N_byte_of_N (n : N) : n < 256 -> Byte.to_N (byte_of_N n) = n.
Proof.
  intros Hn. unfold byte_of_N. rewrite N.mod_small by assumption.
  destruct (Byte.of_N n) as [b|] eqn:E.
  - now apply Byte.to_of_N.
  - pose proof (Byte.to_of_N_option_map n) as H. rewrite E in H. simpl in H.
    destruct (N.leb_spec n 255); [discriminate | lia].
Qed.

Lemma to_N_inj (a b : byte) : Byte.to_N a = Byte.to_N b -> a = b.
Proof.
  intros H. rewrite <- (byte_of_to_N a), <- (byte_of_to_N b). now rewrite H.
Qed.

Lemma all_bytes_nth (b : byte) :
  nth (N.to_nat (Byte.to_N b)) AES.all_bytes Byte.x00 = b.
Proof. destruct b; reflexivity. Qed.

Lemma all_bytes_complete (b : byte) : In b AES.all_bytes.
Proof.
  rewrite <- (all_bytes_nth b) at 1. apply nth_In.
  pose proof (to_N_lt b). change (length AES.all_bytes) with 256%nat. lia.
Qed.

Lemma byte_forall (P : byte -> bool) :
  forallb P AES.all_bytes = true -> forall b, P b = true.
Proof.
  intros H b. rewrite forallb_forall in H. apply H, all_bytes_complete.
Qed.

Lemma byte_forall2 (P : byte -> byte -> bool) :
  forallb (fun a => forallb (P a) AES.all_bytes) AES.all_bytes = true ->
  forall a b, P a b = true.
Proof.
  intros H a b. apply byte_forall with (P := P a).
  apply byte_forall with (P := fun a => forallb (P a) AES.all_bytes). exact H.
Qed.

Lemma byte_eqb_eq (a b : byte) : Byte.eqb a b = true -> a = b.
Proof. apply Byte.byte_dec_bl. Qed.

(** * AES: the inverse cipher undoes the cipher *)

Section AESInverse.
Import AES.

Lemma lxor_lt_256 (a b : N) : a < 256 -> b < 256 -> N.lxor a b < 256.
Proof.
  intros Ha Hb.
  destruct (N.eq_dec (N.lxor a b) 0) as [E|E]; [rewrite E; lia|].
  apply N.log2_lt_pow2 with (b := 8); [lia|].
  pose proof (N.log2_lxor a b) as H.
  assert (N.log2 a < 8).
  { destruct (N.eq_dec a 0) as [->|]; [reflexivity|].
    apply N.log2_lt_pow2; [lia|exact Ha]. }
  assert (N.log2 b < 8).
  { destruct (N.eq_dec b 0) as [->|]; [reflexivity|].
    apply N.log2_lt_pow2; [lia|exact Hb]. }
  lia.
Qed.

Lemma to_N_bxor (a b : byte) :
  Byte.to_N (bxor a b) = N.lxor (Byte.to_N a) (Byte.to_N b).
Proof.
  unfold bxor. apply to_N_byte_of_N, lxor_lt_256; apply to_N_lt.
Qed.

Lemma bxor_comm (a b : byte) : bxor a b = bxor b a.
Proof. unfold bxor. now rewrite N.lxor_comm. Qed.

Lemma bxor_assoc (a b c : byte) : bxor a (bxor b c) = bxor (bxor a b) c.
Proof.
  apply to_N_inj. rewrite !to_N_bxor. now rewrite N.lxor_assoc.
Qed.

Lemma bxor_nilpotent (a : byte) : bxor a a = Byte.x00.
Proof. apply to_N_inj. rewrite to_N_bxor, N.lxor_nilpotent. reflexivity. Qed.

Lemma bxor_0_r (a : byte) : bxor a Byte.x00 = a.
Proof.
  apply to_N_inj. rewrite to_N_bxor. simpl. now rewrite N.lxor_0_r.
Qed.

Lemma bxor_0_l (a : byte) : bxor Byte.x00 a = a.
Proof. rewrite bxor_comm. apply bxor_0_r. Qed.

Lemma bxor_cancel_r (a k : byte) : bxor (bxor a k) k = a.
Proof. now rewrite <- bxor_assoc, bxor_nilpotent, bxor_0_r. Qed.

Lemma bxor_medial (a b c d : byte) :
  bxor (bxor a b) (bxor c d) = bxor (bxor a c) (bxor b d).
Proof.
  rewrite <- (bxor_assoc a b), (bxor_assoc b c d), (bxor_comm b c).
  now rewrite <- (bxor_assoc c b d), (bxor_assoc a c).
Qed.

Lemma xor4_transpose a1 a2 a3 a4 b1 b2 b3 b4 c1 c2 c3 c4 d1 d2 d3 d4 :
  xor4 (xor4 a1 a2 a3 a4) (xor4 b1 b2 b3 b4)
       (xor4 c1 c2 c3 c4) (xor4 d1 d2 d3 d4)
  = xor4 (xor4 a1 b1 c1 d1) (xor4 a2 b2 c2 d2)
         (xor4 a3 b3 c3 d3) (xor4 a4 b4 c4 d4).
Proof.
  unfold xor4.
  rewrite (bxor_medial (bxor a1 a2)), (bxor_medial a1 a2), (bxor_medial a3 a4).
  rewrite (bxor_medial (bxor c1 c2)), (bxor_medial c1 c2), (bxor_medial c3 c4).
  rewrite (bxor_medial (bxor (bxor a1 b1) (bxor a2 b2))).
  rewrite (bxor_medial (bxor a1 b1)), (bxor_medial (bxor a3 b3)).
  reflexivity.
Qed.

Lemma xor4_unit_1 a : xor4 a Byte.x00 Byte.x00 Byte.x00 = a.
Proof. unfold xor4. now rewrite bxor_nilpotent, !bxor_0_r. Qed.
Lemma xor4_unit_2 a : xor4 Byte.x00 a Byte.x00 Byte.x00 = a.
Proof. unfold xor4. now rewrite bxor_nilpotent, bxor_0_l, bxor_0_r. Qed.
Lemma xor4_unit_3 a : xor4 Byte.x00 Byte.x00 a Byte.x00 = a.
Proof. unfold xor4. now rewrite bxor_nilpotent, bxor_0_r, bxor_0_l. Qed.
Lemma xor4_unit_4 a : xor4 Byte.x00 Byte.x00 Byte.x00 a = a.
Proof. unfold xor4. now rewrite bxor_nilpotent, !bxor_0_l. Qed.

(** Facts about one or two bytes are settled by running through all of
    them. *)
Ltac all_bytes1 b :=
  apply byte_eqb_eq; revert b;
  match goal with
  | |- forall x, @?P x = true =>
      apply (byte_forall P); vm_compute; reflexivity
  end.

Ltac all_bytes2 a b :=
  apply byte_eqb_eq; revert a b;
  match goal with
  | |- forall x y, @?P x y = true =>
      apply (byte_forall2 P); vm_compute; reflexivity
  end.

Lemma inv_sub_sub (b : byte) : inv_sub (sub b) = b.
Proof. all_bytes1 b. Qed.

Lemma xtime_linear (a b : byte) : xtime (bxor a b) = bxor (xtime a) (xtime b).
Proof. all_bytes2 a b. Qed.

Lemma mul9_linear a b : mul9 (bxor a b) = bxor (mul9 a) (mul9 b).
Proof. unfold mul9. rewrite !xtime_linear. apply bxor_medial. Qed.

Lemma mul11_linear a b : mul11 (bxor a b) = bxor (mul11 a) (mul11 b).
Proof.
  unfold mul11. rewrite !xtime_linear.
  rewrite (bxor_medial (xtime a)). apply bxor_medial.
Qed.

Lemma mul13_linear a b : mul13 (bxor a b) = bxor (mul13 a) (mul13 b).
Proof.
  unfold mul13. rewrite !xtime_linear.
  rewrite (bxor_medial (xtime (xtime a))). apply bxor_medial.
Qed.

Lemma mul14_linear a b : mul14 (bxor a b) = bxor (mul14 a) (mul14 b).
Proof.
  unfold mul14. rewrite !xtime_linear.
  rewrite (bxor_medial (xtime (xtime a))). apply bxor_medial.
Qed.

Lemma mul9_xor4 a b c d :
  mul9 (xor4 a b c d) = xor4 (mul9 a) (mul9 b) (mul9 c) (mul9 d).
Proof. unfold xor4. now rewrite !mul9_linear. Qed.
Lemma mul11_xor4 a b c d :
  mul11 (xor4 a b c d) = xor4 (mul11 a) (mul11 b) (mul11 c) (mul11 d).
Proof. unfold xor4. now rewrite !mul11_linear. Qed.
Lemma mul13_xor4 a b c d :
  mul13 (xor4 a b c d) = xor4 (mul13 a) (mul13 b) (mul13 c) (mul13 d).
Proof. unfold xor4. now rewrite !mul13_linear. Qed.
Lemma mul14_xor4 a b c d :
  mul14 (xor4 a b c d) = xor4 (mul14 a) (mul14 b) (mul14 c) (mul14 d).
Proof. unfold xor4. now rewrite !mul14_linear. Qed.

(** The product of the two coefficient matrices is the identity: entry
    by entry, on every byte. *)
Lemma coef_11 a : xor4 (mul14 (mul2 a)) (mul11 a) (mul13 a) (mul9 (mul3 a)) = a.
Proof. all_bytes1 a. Qed.
Lemma coef_12 a :
  xor4 (mul14 (mul3 a)) (mul11 (mul2 a)) (mul13 a) (mul9 a) = Byte.x00.
Proof. all_bytes1 a. Qed.
Lemma coef_13 a :
  xor4 (mul14 a) (mul11 (mul3 a)) (mul13 (mul2 a)) (mul9 a) = Byte.x00.
Proof. all_bytes1 a. Qed.
Lemma coef_14 a :
  xor4 (mul14 a) (mul11 a) (mul13 (mul3 a)) (mul9 (mul2 a)) = Byte.x00.
Proof. all_bytes1 a. Qed.

Lemma coef_21 a :
  xor4 (mul9 (mul2 a)) (mul14 a) (mul11 a) (mul13 (mul3 a)) = Byte.x00.
Proof. all_bytes1 a. Qed.
Lemma coef_22 a : xor4 (mul9 (mul3 a)) (mul14 (mul2 a)) (mul11 a) (mul13 a) = a.
Proof. all_bytes1 a. Qed.
Lemma coef_23 a :
  xor4 (mul9 a) (mul14 (mul3 a)) (mul11 (mul2 a)) (mul13 a) = Byte.x00.
Proof. all_bytes1 a. Qed.
Lemma coef_24 a :
  xor4 (mul9 a) (mul14 a) (mul11 (mul3 a)) (mul13 (mul2 a)) = Byte.x00.
Proof. all_bytes1 a. Qed.

Lemma coef_31 a :
  xor4 (mul13 (mul2 a)) (mul9 a) (mul14 a) (mul11 (mul3 a)) = Byte.x00.
Proof. all_bytes1 a. Qed.
Lemma coef_32 a :
  xor4 (mul13 (mul3 a)) (mul9 (mul2 a)) (mul14 a) (mul11 a) = Byte.x00.
Proof. all_bytes1 a. Qed.
Lemma coef_33 a : xor4 (mul13 a) (mul9 (mul3 a)) (mul14 (mul2 a)) (mul11 a) = a.
Proof. all_bytes1 a. Qed.
Lemma coef_34 a :
  xor4 (mul13 a) (mul9 a) (mul14 (mul3 a)) (mul11 (mul2 a)) = Byte.x00.
Proof. all_bytes1 a. Qed.

Lemma coef_41 a :
  xor4 (mul11 (mul2 a)) (mul13 a) (mul9 a) (mul14 (mul3 a)) = Byte.x00.
Proof. all_bytes1 a. Qed.
Lemma coef_42 a :
  xor4 (mul11 (mul3 a)) (mul13 (mul2 a)) (mul9 a) (mul14 a) = Byte.x00.
Proof. all_bytes1 a. Qed.
Lemma coef_43 a :
  xor4 (mul11 a) (mul13 (mul3 a)) (mul9 (mul2 a)) (mul14 a) = Byte.x00.
Proof. all_bytes1 a. Qed.
Lemma coef_44 a : xor4 (mul11 a) (mul13 a) (mul9 (mul3 a)) (mul14 (mul2 a)) = a.
Proof. all_bytes1 a. Qed.

Lemma inv_mix_column_mix_column (a b c d : byte) :
  match mix_column a b c d with
  | [p; q; r; s] => inv_mix_column p q r s
  | _ => []
  end = [a; b; c; d].
Proof.
  unfold mix_column, inv_mix_column.
  rewrite !mul9_xor4, !mul11_xor4, !mul13_xor4, !mul14_xor4.
  repeat f_equal; rewrite xor4_transpose.
  - now rewrite coef_11, coef_12, coef_13, coef_14, xor4_unit_1.
  - now rewrite coef_21, coef_22, coef_23, coef_24, xor4_unit_2.
  - now rewrite coef_31, coef_32, coef_33, coef_34, xor4_unit_3.
  - now rewrite coef_41, coef_42, coef_43, coef_44, xor4_unit_4.
Qed.

(** *** The four layers on a whole state *)

Lemma xor_block_length (a k : list byte) : length (xor_block a k) = length a.
Proof.
  revert k. induction a as [|x a IH]; intros [|y k]; simpl; auto.
Qed.

Lemma xor_block_cancel (a k : list byte) : xor_block (xor_block a k) k = a.
Proof.
  revert k. induction a as [|x a IH]; intros [|y k]; simpl; auto.
  now rewrite bxor_cancel_r, IH.
Qed.

Lemma inv_sub_bytes_sub_bytes (s : list byte) : inv_sub_bytes (sub_bytes s) = s.
Proof.
  unfold inv_sub_bytes, sub_bytes. rewrite List.map_map.
  induction s as [|x s IH]; simpl; [reflexivity|].
  now rewrite inv_sub_sub, IH.
Qed.

Lemma inv_shift_rows_shift_rows (s : list byte) :
  inv_shift_rows (shift_rows s) = s.
Proof.
  do 17 (destruct s as [|? s]; [reflexivity|]). reflexivity.
Qed.

Lemma shift_rows_length (s : list byte) : length (shift_rows s) = length s.
Proof.
  do 17 (destruct s as [|? s]; [reflexivity|]). reflexivity.
Qed.

(** Induction four bytes at a time. *)
Lemma list_ind_4 (A : Type) (P : list A -> Prop) :
  P [] -> (forall a, P [a]) -> (forall a b, P [a; b]) ->
  (forall a b c, P [a; b; c]) ->
  (forall a b c d rest, P rest -> P (a :: b :: c :: d :: rest)) ->
  forall l, P l.
Proof.
  intros H0 H1 H2 H3 H4.
  fix IH 1.
  intros [|a [|b [|c [|d rest]]]];
    [apply H0 | apply H1 | apply H2 | apply H3 | apply H4, IH].
Qed.

Lemma inv_mix_columns_mix_columns (s : list byte) :
  inv_mix_columns (mix_columns s) = s.
Proof.
  induction s as [| | | |a b c d rest IH] using list_ind_4; try reflexivity.
  pose proof (inv_mix_column_mix_column a b c d) as H.
  cbn [mix_columns]. unfold mix_column in *. cbn [app inv_mix_columns].
  rewrite IH. cbn [app] in *. now rewrite H.
Qed.

Lemma mix_columns_length (s : list byte) : length (mix_columns s) = length s.
Proof.
  induction s as [| | | |a b c d rest IH] using list_ind_4; try reflexivity.
  cbn [mix_columns mix_column app length]. now rewrite IH.
Qed.

Lemma inv_round_round (s k : list byte) : inv_round (round s k) k = s.
Proof.
  unfold inv_round, round, add_round_key.
  now rewrite xor_block_cancel, inv_mix_columns_mix_columns,
    inv_shift_rows_shift_rows, inv_sub_bytes_sub_bytes.
Qed.

Lemma round_length (s k : list byte) : length (round s k) = length s.
Proof.
  unfold round, add_round_key, sub_bytes.
  now rewrite xor_block_length, mix_columns_length, shift_rows_length,
    length_map.
Qed.

Lemma inv_rounds_rounds (ks : list (list byte)) (s : list byte) :
  fold_left inv_round (rev ks) (fold_left round ks s) = s.
Proof.
  revert s. induction ks as [|k ks IH]; intros s; simpl; [reflexivity|].
  rewrite fold_left_app, IH. simpl. apply inv_round_round.
Qed.

Lemma rounds_length (ks : list (list byte)) (s : list byte) :
  length (fold_left round ks s) = length s.
Proof.
  revert s. induction ks as [|k ks IH]; intros s; simpl; [reflexivity|].
  now rewrite IH, round_length.
Qed.

(** Decrypting a block undoes encrypting it, whatever the round keys. *)
Lemma inv_cipher_cipher (ks : list (list byte)) (block : list byte) :
  inv_cipher ks (cipher ks block) = block.
Proof.
  unfold inv_cipher, cipher, add_round_key.
  destruct ks as [|k0 [|k1 rest]]; try reflexivity.
  now rewrite xor_block_cancel, inv_shift_rows_shift_rows,
    inv_sub_bytes_sub_bytes, inv_rounds_rounds, xor_block_cancel.
Qed.

Lemma cipher_length (ks : list (list byte)) (block : list byte) :
  length (cipher ks block) = length block.
Proof.
  unfold cipher, add_round_key, sub_bytes.
  destruct ks as [|k0 [|k1 rest]]; try reflexivity.
  now rewrite xor_block_length, shift_rows_length, length_map, rounds_length,
    xor_block_length.
Qed.

End AESInverse.

(** * Key and IV generation *)

Lemma hex_pair (b : byte) :
  exists c1 c2,
    padStart 2 48 (toString16 (Byte.to_N b)) = [c1; c2]
    /\ is_hex c1 = true /\ is_hex c2 = true
    /\ byte_of_N (Hex.parseInt16 [c1; c2]) = b.
Proof.
  destruct b; do 2 eexists; (split; [reflexivity|]); repeat split.
Qed.

Lemma hexOfArray_cons (b : byte) (arr : list byte) :
  hexOfArray (b :: arr)
  = padStart 2 48 (toString16 (Byte.to_N b)) ++ hexOfArray arr.
Proof. reflexivity. Qed.

Lemma hexOfArray_length (arr : list byte) :
  length (hexOfArray arr) = (2 * length arr)%nat.
Proof.
  induction arr as [|b arr IH]; [reflexivity|].
  rewrite hexOfArray_cons. destruct (hex_pair b) as (c1 & c2 & -> & _).
  simpl length. rewrite IH. lia.
Qed.

Lemma hexOfArray_is_hex (arr : list byte) :
  forallb is_hex (hexOfArray arr) = true.
Proof.
  induction arr as [|b arr IH]; [reflexivity|].
  rewrite hexOfArray_cons.
  destruct (hex_pair b) as (c1 & c2 & -> & H1 & H2 & _).
  simpl. now rewrite H1, H2, IH.
Qed.

Lemma parse_hexOfArray (arr : list byte) : Hex.parse (hexOfArray arr) = arr.
Proof.
  induction arr as [|b arr IH]; [reflexivity|].
  rewrite hexOfArray_cons.
  destruct (hex_pair b) as (c1 & c2 & -> & _ & _ & Hb).
  cbn [app Hex.parse]. now rewrite Hb, IH.
Qed.

Lemma getRandomValues_length (n : nat) (r : Rng) :
  length (fst (getRandomValues n r)) = n.
Proof. unfold getRandomValues. simpl. now rewrite length_map, length_seq. Qed.

Lemma hexOfArray_hex_string (arr : list byte) :
  hex_string (length arr) (hexOfArray arr).
Proof. split; [apply hexOfArray_length | apply hexOfArray_is_hex]. Qed.

Lemma generateIV_spec (r : Rng) :
  valid_iv (fst (generateIV r))
  /\ Hex.parse (fst (generateIV r)) = fst (getRandomValues 16 r)
  /\ snd (generateIV r) = snd (getRandomValues 16 r).
Proof.
  unfold generateIV, valid_iv.
  destruct (getRandomValues 16 r) as [array r'] eqn:E. simpl.
  assert (length array = 16%nat) as L
    by (pose proof (getRandomValues_length 16 r) as H; now rewrite E in H).
  repeat split.
  - rewrite hexOfArray_length, L. reflexivity.
  - apply hexOfArray_is_hex.
  - apply parse_hexOfArray.
Qed.

Lemma generateEncryptionKey_spec (r : Rng) :
  valid_key (fst (generateEncryptionKey r))
  /\ Hex.parse (fst (generateEncryptionKey r)) = fst (getRandomValues 32 r).
Proof.
  unfold generateEncryptionKey, valid_key.
  destruct (getRandomValues 32 r) as [array r'] eqn:E. simpl.
  assert (length array = 32%nat) as L
    by (pose proof (getRandomValues_length 32 r) as H; now rewrite E in H).
  repeat split.
  - rewrite hexOfArray_length, L. reflexivity.
  - apply hexOfArray_is_hex.
  - apply parse_hexOfArray.
Qed.

Lemma stringify_hexOfArray (arr : list byte) : Hex.stringify arr = hexOfArray arr.
Proof.
  unfold Hex.stringify, hexOfArray. f_equal. apply map_ext.
  intros b. destruct b; reflexivity.
Qed.

(** C6. Every value returned by [generateEncryptionKey] is a string of 64
    hexadecimal digits that encodes exactly 32 bytes (the bytes drawn from
    the random source), and every value returned by [generateIV] is a
    string of 32 hexadecimal digits that encodes exactly 16 bytes. *)
Theorem generated_key_and_iv_shape (r : Rng) :
  let key := fst (generateEncryptionKey r) in
  let iv := fst (generateIV r) in
  (length key = 64%nat /\ forallb is_hex key = true
   /\ length (Hex.parse key) = 32%nat
   /\ Hex.parse key = fst (getRandomValues 32 r)
   /\ Hex.stringify (Hex.parse key) = key)
  /\ (length iv = 32%nat /\ forallb is_hex iv = true
      /\ length (Hex.parse iv) = 16%nat
      /\ Hex.parse iv = fst (getRandomValues 16 r)
      /\ Hex.stringify (Hex.parse iv) = iv).
Proof.
  intros key iv. subst key iv.
  destruct (generateEncryptionKey_spec r) as ((Lk & Hk) & Pk).
  destruct (generateIV_spec r) as ((Li & Hi) & Pi & _).
  split; repeat split; try assumption.
  - rewrite Pk. apply getRandomValues_length.
  - rewrite Pk, stringify_hexOfArray. reflexivity.
  - rewrite Pi. apply getRandomValues_length.
  - rewrite Pi, stringify_hexOfArray. reflexivity.
Qed.

(** * Admission control on the file list *)

Section Admission.

Lemma fold_size_acc (fs : list File.t) (acc : N) :
  fold_left (fun sum f => sum + File.size f) fs acc = acc + total_size fs.
Proof.
  unfold total_size. revert acc.
  induction fs as [|f fs IH]; intros acc; simpl; [lia|].
  rewrite IH, (IH (0 + File.size f)). lia.
Qed.

Lemma total_size_cons (f : File.t) (fs : list File.t) :
  total_size (f :: fs) = File.size f + total_size fs.
Proof. unfold total_size at 1. simpl. apply fold_size_acc. Qed.

Lemma total_size_app (fs gs : list File.t) :
  total_size (fs ++ gs) = total_size fs + total_size gs.
Proof.
  induction fs as [|f fs IH]; simpl; [reflexivity|].
  rewrite !total_size_cons, IH. lia.
Qed.

Lemma remove_at_length {A} (i : nat) (l : list A) :
  (length (remove_at i l) <= length l)%nat.
Proof.
  revert i. induction l as [|x l IH]; intros [|i]; simpl; try lia.
  specialize (IH i). lia.
Qed.

Lemma remove_at_total_size (i : nat) (fs : list File.t) :
  total_size (remove_at i fs) <= total_size fs.
Proof.
  revert i. induction fs as [|f fs IH]; intros [|i]; simpl; try lia.
  - rewrite total_size_cons. lia.
  - rewrite !total_size_cons. specialize (IH i). lia.
Qed.

Lemma files_setFiles (fs : list File.t) (st : Page.t) :
  Page.files (Page.setFiles fs st) = fs.
Proof. reflexivity. Qed.

(** What [handleFileSelect] does, by cases on its two guards. *)
Lemma handleFileSelect_cases (st : Page.t) (sel : list File.t) :
  ((length (Page.files st) + length sel > MAX_FILES)%nat
   /\ handleFileSelect st sel = (st, [ToastError (js "Maximum 5 files allowed")]))
  \/ ((length (Page.files st) + length sel <= MAX_FILES)%nat
      /\ total_size (Page.files st) + total_size sel > MAX_FILE_SIZE
      /\ handleFileSelect st sel
         = (st, [ToastError (js "Total file size exceeds 10MB limit")]))
  \/ ((length (Page.files st) + length sel <= MAX_FILES)%nat
      /\ total_size (Page.files st) + total_size sel <= MAX_FILE_SIZE
      /\ handleFileSelect st sel
         = (Page.setFiles (Page.files st ++ sel) st, [])).
Proof.
  unfold handleFileSelect.
  destruct (Nat.ltb_spec MAX_FILES (length (Page.files st) + length sel)).
  - left. split; [lia | reflexivity].
  - right.
    destruct (N.ltb_spec MAX_FILE_SIZE
                (total_size (Page.files st) + total_size sel)).
    + left. repeat split; [assumption | lia].
    + right. repeat split; assumption.
Qed.

Lemma handleFileSelect_admissible (st : Page.t) (sel : list File.t) :
  admissible (Page.files st) ->
  admissible (Page.files (fst (handleFileSelect st sel))).
Proof.
  intros Hadm.
  destruct (handleFileSelect_cases st sel)
    as [(_ & ->) | [(_ & _ & ->) | (Hn & Hs & ->)]]; simpl; try assumption.
  split; [rewrite length_app | rewrite total_size_app]; assumption.
Qed.

Lemma removeFile_admissible (st : Page.t) (i : nat) :
  admissible (Page.files st) -> admissible (Page.files (removeFile st i)).
Proof.
  intros [Hn Hs]. unfold removeFile. rewrite files_setFiles. split.
  - pose proof (remove_at_length i (Page.files st)). lia.
  - pose proof (remove_at_total_size i (Page.files st)). lia.
Qed.

Lemma initial_admissible : admissible (Page.files Page.initial).
Proof. split; simpl; [lia | discriminate]. Qed.

Lemma events_admissible (evs : list file_event) (st : Page.t) :
  admissible (Page.files st) ->
  admissible (Page.files (fold_left handle_file_event evs st)).
Proof.
  revert st. induction evs as [|ev evs IH]; intros st H; simpl; [exact H|].
  apply IH. destruct ev; simpl.
  - now apply handleFileSelect_admissible.
  - now apply removeFile_admissible.
Qed.

End Admission.

(** C9. After every file-selection operation the client-held file list
    holds at most 5 files of at most 10 MB in total: this is true of every
    state reached from the initial one by selections and removals.  A
    selection that would exceed either bound is rejected, the state is
    left as it was, and no selection, accepted or not, sends a request. *)
Theorem admission_control_invariant :
  (forall evs : list file_event,
      admissible (Page.files (fold_left handle_file_event evs Page.initial)))
  /\ (forall (st : Page.t) (sel : list File.t),
         admissible (Page.files st) ->
         admissible (Page.files (fst (handleFileSelect st sel))))
  /\ (forall (st : Page.t) (sel : list File.t),
         (length (Page.files st) + length sel > 5)%nat
         \/ total_size (Page.files st) + total_size sel > 10 * 1024 * 1024 ->
         fst (handleFileSelect st sel) = st)
  /\ (forall (st : Page.t) (sel : list File.t),
         requests (snd (handleFileSelect st sel)) = []).
Proof.
  split; [|split; [|split]].
  - intros evs. apply events_admissible, initial_admissible.
  - apply handleFileSelect_admissible.
  - intros st sel Hex.
    destruct (handleFileSelect_cases st sel)
      as [(_ & ->) | [(_ & _ & ->) | (Hn & Hs & ->)]]; try reflexivity.
    exfalso. unfold MAX_FILES, MAX_FILE_SIZE in *. destruct Hex; lia.
  - intros st sel.
    destruct (handleFileSelect_cases st sel)
      as [(_ & ->) | [(_ & _ & ->) | (_ & _ & ->)]]; reflexivity.
Qed.

Lemma admission_control_invariant_witness :
  admissible (Page.files (fst (handleFileSelect Page.initial [Sample.big_file])))
  /\ fst (handleFileSelect Page.initial [Sample.big_file]) = Page.initial.
Proof.
  destruct admission_control_invariant as (_ & Hadm & Hrej & _). split.
  - apply (Hadm Page.initial [Sample.big_file]). split; simpl; [lia | discriminate].
  - apply (Hrej Page.initial [Sample.big_file]). right. vm_compute. reflexivity.
Defined.

(** * One-time view *)

Section OneTimeView.
Import Server.
Variable c : consume.
Variable id : N.

(** The three ways a view request ends. *)
Lemma view_cases (now i : N) (p : option jsstring) (st : state) :
  (exists e, store st !! i = Some e /\ expired now e = false
             /\ exhausted e = false /\ pin_ok e p = true
             /\ view c now i p st = (ViewOk e, consumed c i e st))
  \/ view c now i p st = (Gone, st)
  \/ view c now i p st = (PinMismatch, st).
Proof.
  unfold view, consumed. destruct (store st !! i) as [e|] eqn:E; [|auto].
  destruct (expired now e) eqn:X; [auto|].
  destruct (exhausted e) eqn:Y; [auto|].
  destruct (pin_ok e p) eqn:Z; simpl; [|auto].
  left. exists e. auto.
Qed.

Lemma exhausted_mark_viewed (e : envelope) :
  one_time_view e = true -> exhausted (mark_viewed e) = true.
Proof. intros H. unfold exhausted. simpl. now rewrite H. Qed.

Lemma consumed_next_id (i : N) (e : envelope) (st : state) :
  next_id (consumed c i e st) = next_id st.
Proof. unfold consumed. now destruct (one_time_view e). Qed.

(** Consuming a record keeps every one-time slot a one-time slot. *)
Lemma consumed_one_time_slot (i : N) (e : envelope) (st : state) :
  store st !! i = Some e -> one_time_slot id st -> one_time_slot id (consumed c i e st).
Proof.
  intros He [Hlt Hone]. split; [now rewrite consumed_next_id|].
  unfold consumed. destruct (one_time_view e) eqn:O; [|exact Hone].
  intros e'. simpl. destruct (decide (i = id)) as [->|Hne]; destruct c.
  - rewrite lookup_insert_eq. now intros [= <-].
  - rewrite lookup_delete_eq. discriminate.
  - rewrite lookup_insert_ne by assumption. apply Hone.
  - rewrite lookup_delete_ne by assumption. apply Hone.
Qed.

Lemma consumed_spent (i : N) (e : envelope) (st : state) :
  store st !! i = Some e -> spent id st -> spent id (consumed c i e st).
Proof.
  intros He [Hlt Hex]. split; [now rewrite consumed_next_id|].
  unfold consumed. destruct (one_time_view e) eqn:O; [|exact Hex].
  intros e'. simpl. destruct (decide (i = id)) as [->|Hne]; destruct c.
  - rewrite lookup_insert_eq. intros [= <-]. now apply exhausted_mark_viewed.
  - rewrite lookup_delete_eq. discriminate.
  - rewrite lookup_insert_ne by assumption. apply Hex.
  - rewrite lookup_delete_ne by assumption. apply Hex.
Qed.

(** The successful view of a one-time record spends its slot, in the
    very step that answers. *)
Lemma consumed_spends (e : envelope) (st : state) :
  one_time_slot id st -> store st !! id = Some e -> spent id (consumed c id e st).
Proof.
  intros [Hlt Hone] He. split; [now rewrite consumed_next_id|].
  unfold consumed. rewrite (Hone e He). intros e'. simpl. destruct c.
  - rewrite lookup_insert_eq. intros [= <-].
    apply exhausted_mark_viewed, (Hone e He).
  - rewrite lookup_delete_eq. discriminate.
Qed.

Lemma step_one_time_slot (now : N) (req : request) (st : state) :
  one_time_slot id st -> one_time_slot id (snd (step c now req st)).
Proof.
  intros Hslot. pose proof Hslot as [Hlt Hone].
  destruct req as [cr | i | i p | i |]; simpl.
  - split; simpl; [lia|]. intros e.
    rewrite lookup_insert_ne by lia. apply Hone.
  - exact Hslot.
  - destruct (view_cases now i p st)
      as [(e & He & _ & _ & _ & ->) | [-> | ->]]; simpl; try exact Hslot.
    now apply consumed_one_time_slot.
  - split; simpl; [exact Hlt|]. intros e.
    destruct (decide (i = id)) as [->|Hne].
    + rewrite lookup_delete_eq. discriminate.
    + rewrite lookup_delete_ne by assumption. apply Hone.
  - split; simpl; [exact Hlt|]. intros e He.
    apply map_lookup_filter_Some in He as [He _]. now apply Hone.
Qed.

Lemma step_spent (now : N) (req : request) (st : state) :
  spent id st -> spent id (snd (step c now req st)).
Proof.
  intros Hsp. pose proof Hsp as [Hlt Hex].
  destruct req as [cr | i | i p | i |]; simpl.
  - split; simpl; [lia|]. intros e.
    rewrite lookup_insert_ne by lia. apply Hex.
  - exact Hsp.
  - destruct (view_cases now i p st)
      as [(e & He & _ & _ & _ & ->) | [-> | ->]]; simpl; try exact Hsp.
    now apply consumed_spent.
  - split; simpl; [exact Hlt|]. intros e.
    destruct (decide (i = id)) as [->|Hne].
    + rewrite lookup_delete_eq. discriminate.
    + rewrite lookup_delete_ne by assumption. apply Hex.
  - split; simpl; [exact Hlt|]. intros e He.
    apply map_lookup_filter_Some in He as [He _]. now apply Hex.
Qed.

(** A spent slot answers [Gone], whatever the PIN and the time. *)
Lemma view_spent (now : N) (p : option jsstring) (st : state) :
  spent id st -> view c now id p st = (Gone, st).
Proof.
  intros [_ Hex]. unfold view.
  destruct (store st !! id) as [e|] eqn:E; [|reflexivity].
  destruct (expired now e); [reflexivity|]. now rewrite (Hex e eq_refl).
Qed.

Lemma run_cons (now : N) (req : request) (rest : list (N * request))
    (st : state) :
  run c ((now, req) :: rest) st
  = (fst (step c now req st) :: fst (run c rest (snd (step c now req st))),
     snd (run c rest (snd (step c now req st)))).
Proof.
  cbn [run]. destruct (step c now req st) as [resp st']. cbn [fst snd].
  now destruct (run c rest st') as [resps st''].
Qed.

(** Once the slot is spent no schedule gets another view out of it. *)
Lemma run_spent (reqs : list (N * request)) (st : state) :
  spent id st ->
  views_gone id reqs (fst (run c reqs st))
  /\ successes id reqs (fst (run c reqs st)) = 0%nat.
Proof.
  revert st. induction reqs as [|[now req] rest IH]; intros st Hsp.
  - split; reflexivity.
  - rewrite run_cons. cbn [fst].
    destruct (IH _ (step_spent now req st Hsp)) as [IHg IHs].
    split.
    + cbn [views_gone]. split; [|exact IHg].
      destruct req as [cr | i | i p | i |]; try exact I.
      intros ->. simpl. now rewrite view_spent.
    + destruct req as [cr | i | i p | i |]; cbn [successes];
        try (simpl; exact IHs).
      destruct (fst (step c now (View i p) st)) eqn:R; try exact IHs.
      destruct (N.eqb_spec i id) as [->|Hne]; [|simpl; exact IHs].
      simpl in R. rewrite view_spent in R by assumption. discriminate.
Qed.

(** At most one view of a one-time slot succeeds in any schedule. *)
Lemma run_one_time_slot (reqs : list (N * request)) (st : state) :
  one_time_slot id st ->
  (successes id reqs (fst (run c reqs st)) <= 1)%nat.
Proof.
  revert st. induction reqs as [|[now req] rest IH]; intros st Hslot.
  - simpl. lia.
  - rewrite run_cons. cbn [fst].
    pose proof (IH _ (step_one_time_slot now req st Hslot)) as IHs.
    destruct req as [cr | i | i p | i |]; cbn [successes];
      try (simpl; exact IHs).
    destruct (fst (step c now (View i p) st)) eqn:R; try exact IHs.
    destruct (N.eqb_spec i id) as [->|Hne]; [|simpl; exact IHs].
    simpl in R |- *.
    destruct (view_cases now id p st)
      as [(e' & He & _ & _ & _ & Hv) | [Hv | Hv]];
      rewrite Hv in R |- *; simpl in R; try discriminate.
    cbn [snd].
    destruct (run_spent rest _ (consumed_spends e' st Hslot He)) as [_ ->].
    lia.
Qed.

(** Cut in two transactions the request loses the guarantee: two clients
    whose checks both run before either consumption both get the
    envelope. *)
Lemma split_view_both_succeed (now1 now2 : N) (p1 p2 : option jsstring)
    (e : envelope) (st : state) :
  id < next_id st ->
  store st !! id = Some e -> one_time_view e = true -> viewed e = false ->
  expired now1 e = false -> expired now2 e = false ->
  pin_ok e p1 = true -> pin_ok e p2 = true ->
  let resp1 := view_check now1 id p1 st in
  let resp2 := view_check now2 id p2 st in
  let st' := view_commit c id resp2 (view_commit c id resp1 st) in
  resp1 = ViewOk e /\ resp2 = ViewOk e /\ spent id st'.
Proof.
  intros Hlt He Hone Hv Hx1 Hx2 Hp1 Hp2.
  assert (forall now p, expired now e = false -> pin_ok e p = true ->
                        view_check now id p st = ViewOk e) as Hcheck.
  { intros now p Hx Hp. unfold view_check, view.
    rewrite He, Hx. unfold exhausted. now rewrite Hv, andb_false_r, Hp. }
  cbn zeta. rewrite (Hcheck now1 p1 Hx1 Hp1), (Hcheck now2 p2 Hx2 Hp2).
  split; [reflexivity|]. split; [reflexivity|]. cbn [view_commit].
  unfold consumed. rewrite Hone. split; [|simpl; intros e'; destruct c].
  - destruct c; simpl; exact Hlt.
  - rewrite lookup_insert_eq. intros [= <-]. now apply exhausted_mark_viewed.
  - rewrite lookup_delete_eq. discriminate.
Qed.

End OneTimeView.

(** C5. For every envelope stored with [one_time_view = true] at most one
    view request ever succeeds.  The first correct view returns the
    envelope and consumes the record in the same atomic step; after it,
    every view request for that identifier in every schedule (any
    interleaving of any clients' requests, any PIN, any time) is answered
    [Gone]; and in every schedule from the state at most one view of the
    identifier succeeds. *)
Theorem one_time_view_at_most_once (c : Server.consume) (st : Server.state)
    (id : N) (e : Server.envelope) :
  Server.well_formed st ->
  Server.store st !! id = Some e ->
  Server.one_time_view e = true ->
  (forall (now : N) (p : option jsstring),
      Server.expired now e = false -> Server.viewed e = false ->
      Server.pin_ok e p = true ->
      fst (Server.view c now id p st) = Server.ViewOk e
      /\ match Server.store (snd (Server.view c now id p st)) !! id with
         | Some e' => Server.viewed e' = true
         | None => True
         end
      /\ forall reqs : list (N * Server.request),
          Server.views_gone id reqs
            (fst (Server.run c reqs (snd (Server.view c now id p st)))))
  /\ (forall reqs : list (N * Server.request),
         (Server.successes id reqs (fst (Server.run c reqs st)) <= 1)%nat).
Proof.
  intros Hwf He Hone.
  assert (Server.one_time_slot id st) as Hslot.
  { split; [exact (Hwf id e He)|]. intros e' He'. congruence. }
  split.
  - intros now p Hexp Hv Hpin.
    assert (Server.view c now id p st = (Server.ViewOk e, Server.consumed c id e st))
      as ->.
    { unfold Server.view, Server.consumed. rewrite He, Hexp.
      unfold Server.exhausted. rewrite Hv, andb_false_r, Hpin. reflexivity. }
    cbn [fst snd]. split; [reflexivity|]. split.
    + unfold Server.consumed. rewrite Hone. simpl. destruct c.
      * rewrite lookup_insert_eq. reflexivity.
      * rewrite lookup_delete_eq. exact I.
    + intros reqs. apply run_spent. now apply consumed_spends.
  - intros reqs. now apply run_one_time_slot.
Qed.

Lemma sample_server_well_formed : Server.well_formed Sample.server.
Proof.
  intros id e. unfold Sample.server. simpl.
  destruct (decide (0 = id)) as [<-|Hne]; [reflexivity|].
  rewrite lookup_insert_ne by assumption. rewrite lookup_empty. discriminate.
Qed.

Lemma one_time_view_at_most_once_witness :
  fst (Server.view Server.MarkViewed 1 0 (Some (js "03ac")) Sample.server)
  = Server.ViewOk Sample.stored
  /\ (Server.successes 0 Sample.race
        (fst (Server.run Server.MarkViewed Sample.race Sample.server)) <= 1)%nat.
Proof.
  destruct (one_time_view_at_most_once Server.MarkViewed Sample.server 0
              Sample.stored sample_server_well_formed)
    as [Hfirst Hmost]; [reflexivity | reflexivity |].
  split.
  - apply (Hfirst 1 (Some (js "03ac"))); reflexivity.
  - apply Hmost.
Defined.

(** * UTF-8: decoding undoes encoding *)

Lemma N_div_mod_facts (a b : N) :
  b <> 0 -> a = b * (a / b) + a mod b /\ a mod b < b.
Proof. intros H. split; [apply N.div_mod' | now apply N.mod_upper_bound]. Qed.

(** Name every quotient and remainder by a constant, keep their defining
    equations, and leave the rest to linear arithmetic. *)
Ltac name_div_mod a b :=
  let H := fresh in
  pose proof (N_div_mod_facts a b ltac:(discriminate)) as H;
  let q := fresh "q" in
  let r := fresh "r" in
  set (q := N.div a b) in *; set (r := N.modulo a b) in *; clearbody q r.

Ltac ndivmod_step :=
  match goal with
  | |- context [N.div ?a ?b] => name_div_mod a b
  | |- context [N.modulo ?a ?b] => name_div_mod a b
  | _ : context [N.div ?a ?b] |- _ => name_div_mod a b
  | _ : context [N.modulo ?a ?b] |- _ => name_div_mod a b
  end.

Ltac ndivmod := repeat ndivmod_step; lia.

(** Decide the comparisons in the goal, dropping the impossible sides. *)
Ltac decide_tests :=
  repeat match goal with
    | |- context [N.ltb ?a ?b] =>
        destruct (N.ltb_spec a b); try (exfalso; ndivmod)
    | |- context [N.leb ?a ?b] =>
        destruct (N.leb_spec a b); try (exfalso; ndivmod)
    end.

Section Utf8RoundTrip.
Import Utf8.

Lemma stringify_octets (v : N) (tl : list byte) :
  scalar v ->
  stringify (octets v ++ tl) = do t <- stringify tl; Return (units v ++ t).
Proof.
  intros [Hs Hmax]. unfold octets.
  destruct (N.ltb_spec v 128); [|destruct (N.ltb_spec v 2048);
    [|destruct (N.ltb_spec v 65536)]];
    cbn [app stringify]; unfold is_continuation;
    rewrite !to_N_byte_of_N by ndivmod.
  - decide_tests. unfold units. decide_tests.
    destruct (stringify tl); reflexivity.
  - replace ((192 + v / 64 - 192) * 64 + (128 + v mod 64 - 128)) with v
      by ndivmod.
    decide_tests. cbn [andb]. unfold units. decide_tests. reflexivity.
  - replace ((224 + v / 4096 - 224) * 4096 + (128 + (v / 64) mod 64 - 128) * 64
             + (128 + v mod 64 - 128)) with v by ndivmod.
    decide_tests; cbn [andb negb]; unfold units; decide_tests; reflexivity.
  - replace ((240 + v / 262144 - 240) * 262144
             + (128 + (v / 4096) mod 64 - 128) * 4096
             + (128 + (v / 64) mod 64 - 128) * 64 + (128 + v mod 64 - 128))
      with v by ndivmod.
    decide_tests; cbn [andb negb]; unfold units; decide_tests; reflexivity.
Qed.

Lemma surrogate_tests (c : N) :
  (is_low_surrogate c = true <-> 56320 <= c <= 57343)
  /\ (is_high_surrogate c = true <-> 55296 <= c <= 56319).
Proof.
  unfold is_low_surrogate, is_high_surrogate.
  rewrite !andb_true_iff, !N.leb_le. tauto.
Qed.

Lemma units_bmp (c : N) : c < 65536 -> units c = [c].
Proof. intros H. unfold units. now destruct (N.ltb_spec c 65536); [|lia]. Qed.

Lemma units_pair (c k : N) :
  55296 <= c <= 56319 -> 56320 <= k <= 57343 ->
  units ((c - 55296) * 1024 + (k - 56320) + 65536) = [c; k].
Proof.
  intros Hc Hk. unfold units.
  destruct (N.ltb_spec ((c - 55296) * 1024 + (k - 56320) + 65536) 65536);
    [lia|].
  replace ((c - 55296) * 1024 + (k - 56320) + 65536 - 65536)
    with ((c - 55296) * 1024 + (k - 56320)) by lia.
  f_equal; [|f_equal]; ndivmod.
Qed.

Lemma stringify_parse_aux (s : jsstring) :
  (forall bytes, is_jsstring s -> parse s = Return bytes ->
                 stringify bytes = Return s)
  /\ (forall c bytes, is_jsstring (c :: s) -> parse (c :: s) = Return bytes ->
                      stringify bytes = Return (c :: s)).
Proof.
  assert (forall c s', is_jsstring (c :: s') ->
            is_low_surrogate c = false -> is_high_surrogate c = false ->
            (forall bytes, is_jsstring s' -> parse s' = Return bytes ->
                           stringify bytes = Return s') ->
            forall bytes, (do tl <- parse s'; Return (octets c ++ tl))
                          = Return bytes ->
                          stringify bytes = Return (c :: s')) as Hone.
  { intros c s' Hjs Hlo Hhi IH bytes Hp.
    apply Forall_cons_iff in Hjs as [Hc Hjs].
    destruct (parse s') as [tl|] eqn:E; [|discriminate].
    injection Hp as <-. rewrite stringify_octets.
    - rewrite (IH tl Hjs eq_refl). simpl. now rewrite units_bmp.
    - destruct (surrogate_tests c) as [Hl Hh]. split; [|lia].
      destruct (N.lt_ge_cases c 55296) as [|Hge]; [now left|right].
      destruct (N.le_gt_cases 57344 c) as [|Hlt]; [assumption|exfalso].
      destruct (N.le_gt_cases c 56319).
      + assert (is_high_surrogate c = true) by (apply Hh; lia). congruence.
      + assert (is_low_surrogate c = true) by (apply Hl; lia). congruence. }
  induction s as [|k s' [IHa IHb]].
  - split.
    + intros bytes _ [= <-]. reflexivity.
    + intros c bytes Hjs. cbn [parse].
      destruct (is_low_surrogate c) eqn:Hlo; [discriminate|].
      destruct (is_high_surrogate c) eqn:Hhi; [discriminate|].
      apply (Hone c [] Hjs Hlo Hhi). intros bytes' _ [= <-]. reflexivity.
  - split; [apply IHb|].
    intros c bytes Hjs. cbn [parse].
    destruct (is_low_surrogate c) eqn:Hlo; [discriminate|].
    destruct (is_high_surrogate c) eqn:Hhi.
    + destruct (is_low_surrogate k) eqn:Hk; [|discriminate].
      intros Hp. destruct (parse s') as [tl|] eqn:E; [|discriminate].
      injection Hp as <-.
      apply Forall_cons_iff in Hjs as [Hc Hjs].
      apply Forall_cons_iff in Hjs as [Hkk Hjs].
      apply surrogate_tests in Hhi. apply surrogate_tests in Hk.
      rewrite stringify_octets by (split; lia).
      rewrite (IHa tl Hjs eq_refl). simpl. now rewrite units_pair.
    + apply (Hone c (k :: s') Hjs Hlo Hhi).
      intros bytes' Hjs'. now apply IHb.
Qed.

(** Decoding the UTF-8 form of a string gives the string back. *)
Lemma stringify_parse (s : jsstring) (bytes : list byte) :
  is_jsstring s -> parse s = Return bytes -> stringify bytes = Return s.
Proof. apply stringify_parse_aux. Qed.

Lemma parse_cons (c : N) (rest : jsstring) :
  parse (c :: rest)
  = if is_low_surrogate c then Throw URIError
    else if is_high_surrogate c then
      match rest with
      | [] => Throw URIError
      | k :: rest' =>
          if is_low_surrogate k then
            do tl <- parse rest';
            Return (octets ((c - 55296) * 1024 + (k - 56320) + 65536) ++ tl)
          else Throw URIError
      end
    else do tl <- parse rest; Return (octets c ++ tl).
Proof. reflexivity. Qed.

Lemma well_formed_cons (c : N) (rest : jsstring) :
  well_formed (c :: rest)
  = if is_low_surrogate c then false
    else if is_high_surrogate c then
      match rest with
      | [] => false
      | k :: rest' => is_low_surrogate k && well_formed rest'
      end
    else well_formed rest.
Proof. reflexivity. Qed.

Lemma parse_well_formed_aux (s : jsstring) :
  (well_formed s = true -> exists bytes, parse s = Return bytes)
  /\ (forall c, well_formed (c :: s) = true ->
                exists bytes, parse (c :: s) = Return bytes).
Proof.
  induction s as [|k s' [IHa IHb]].
  - split; [now exists []|]. intros c. rewrite well_formed_cons, parse_cons.
    destruct (is_low_surrogate c); [discriminate|].
    destruct (is_high_surrogate c); [discriminate|]. simpl. eauto.
  - split; [apply IHb|]. intros c. rewrite well_formed_cons, parse_cons.
    destruct (is_low_surrogate c); [discriminate|].
    destruct (is_high_surrogate c).
    + intros [-> Hw]%andb_true_iff. destruct (IHa Hw) as [tl ->].
      simpl. eauto.
    + intros Hw. destruct (IHb k Hw) as [tl ->]. simpl. eauto.
Qed.

(** [encodeURIComponent] accepts exactly the well-formed strings. *)
Lemma parse_well_formed (s : jsstring) :
  well_formed s = true -> exists bytes, parse s = Return bytes.
Proof. apply parse_well_formed_aux. Qed.

Lemma parse_ill_formed_aux (s : jsstring) :
  (well_formed s = false -> parse s = Throw URIError)
  /\ (forall c, well_formed (c :: s) = false ->
                parse (c :: s) = Throw URIError).
Proof.
  induction s as [|k s' [IHa IHb]].
  - split; [discriminate|]. intros c. rewrite well_formed_cons, parse_cons.
    destruct (is_low_surrogate c); [reflexivity|].
    destruct (is_high_surrogate c); [reflexivity|discriminate].
  - split; [apply IHb|]. intros c. rewrite well_formed_cons, parse_cons.
    destruct (is_low_surrogate c); [reflexivity|].
    destruct (is_high_surrogate c).
    + destruct (is_low_surrogate k); [|reflexivity]. simpl.
      intros Hw. now rewrite (IHa Hw).
    + intros Hw. now rewrite (IHb k Hw).
Qed.

Lemma parse_ill_formed (s : jsstring) :
  well_formed s = false -> parse s = Throw URIError.
Proof. apply parse_ill_formed_aux. Qed.

(** Ordinary characters are their own single octet. *)
Lemma parse_ascii (s : jsstring) :
  Forall (fun c => c < 128) s -> parse s = Return (map byte_of_N s).
Proof.
  induction s as [|c s IH]; intros H; [reflexivity|].
  apply Forall_cons_iff in H as [Hc H]. cbn [parse].
  unfold is_low_surrogate, is_high_surrogate.
  destruct (N.leb_spec 56320 c); [lia|]. cbn [andb].
  destruct (N.leb_spec 55296 c); [lia|]. cbn [andb].
  rewrite (IH H). simpl. unfold octets.
  now destruct (N.ltb_spec c 128); [|lia].
Qed.

Lemma stringify_ascii (s : jsstring) :
  Forall (fun c => c < 128) s -> stringify (map byte_of_N s) = Return s.
Proof.
  intros H. apply stringify_parse; [|now apply parse_ascii].
  eapply Forall_impl; [|exact H]. simpl. intros; lia.
Qed.

End Utf8RoundTrip.

(** * Base64: decoding undoes encoding *)

Section Base64RoundTrip.
Import Base64.

Lemma N_forall_below (P : N -> bool) (n : nat) :
  forallb P (map N.of_nat (seq 0 n)) = true ->
  forall v, v < N.of_nat n -> P v = true.
Proof.
  intros H v Hv. rewrite forallb_forall in H. apply H.
  apply in_map_iff. exists (N.to_nat v). split; [lia|].
  apply in_seq. lia.
Qed.

Lemma sextet_facts (v : N) :
  v < 64 ->
  value (char v) = v
  /\ (exists w, reverse (char v) = Some w)
  /\ char v <> paddingChar
  /\ is_ascii_whitespace (char v) = false
  /\ char v < 128.
Proof.
  intros Hv.
  pose proof (N_forall_below sextet_ok 64 eq_refl v Hv) as H.
  unfold sextet_ok in H.
  repeat (apply andb_true_iff in H as [H ?]).
  repeat split.
  - now apply N.eqb_eq.
  - destruct (reverse (char v)); [eauto|discriminate].
  - intros E. apply N.eqb_eq in E. now rewrite E in *.
  - now destruct (is_ascii_whitespace (char v)).
  - now apply N.ltb_lt.
Qed.

(** Induction three bytes at a time. *)
Lemma list_ind_3 (A : Type) (P : list A -> Prop) :
  P [] -> (forall a, P [a]) -> (forall a b, P [a; b]) ->
  (forall a b c rest, P rest -> P (a :: b :: c :: rest)) ->
  forall l, P l.
Proof.
  intros H0 H1 H2 H3. fix IH 1.
  intros [|a [|b [|c rest]]]; [apply H0 | apply H1 | apply H2 | apply H3, IH].
Qed.

Ltac byte_bounds :=
  repeat match goal with
    | b : byte |- _ =>
        lazymatch goal with
        | _ : Byte.to_N b < 256 |- _ => fail
        | _ => pose proof (to_N_lt b)
        end
    end.

Ltac sextets :=
  repeat match goal with
    | |- context [value (char ?v)] =>
        rewrite (proj1 (sextet_facts v ltac:(byte_bounds; ndivmod)))
    end.

Lemma byte_of_N_eq (x : N) (b : byte) :
  x mod 256 = Byte.to_N b -> byte_of_N x = b.
Proof.
  intros H. unfold byte_of_N. rewrite H, Byte.of_to_N. reflexivity.
Qed.

Ltac same_byte := apply byte_of_N_eq; byte_bounds; ndivmod.

Lemma parseLoop_body (bytes : list byte) : parseLoop (body bytes) = bytes.
Proof.
  induction bytes as [|b1|b1 b2|b1 b2 b3 rest IH] using list_ind_3.
  - reflexivity.
  - cbn [body parseLoop]. sextets. f_equal. same_byte.
  - cbn [body parseLoop]. sextets. repeat f_equal; same_byte.
  - cbn [body parseLoop]. sextets. rewrite IH. repeat f_equal; same_byte.
Qed.

Lemma char_alphabetic (v : N) : v < 64 -> alphabetic (char v).
Proof. intros Hv. now destruct (sextet_facts v Hv) as (_ & ? & ? & ? & ?). Qed.

Ltac alphabet :=
  repeat (apply Forall_cons; [apply char_alphabetic; byte_bounds; ndivmod|]).

Lemma body_alphabetic (bytes : list byte) : Forall alphabetic (body bytes).
Proof.
  induction bytes as [|b1|b1 b2|b1 b2 b3 rest IH] using list_ind_3;
    cbn [body]; alphabet; [constructor .. | exact IH].
Qed.

Lemma body_length (bytes : list byte) :
  (length (body bytes) mod 4 <> 1
   /\ (length (body bytes) mod 4 = 0
       \/ length (body bytes) mod 4 = 2 \/ length (body bytes) mod 4 = 3))%nat.
Proof.
  induction bytes as [|b1|b1 b2|b1 b2 b3 rest IH] using list_ind_3;
    cbn [body length].
  - split; [discriminate | now left].
  - split; [discriminate | right; now left].
  - split; [discriminate | right; now right].
  - replace (S (S (S (S (length (body rest))))))
      with (length (body rest) + 1 * 4)%nat by lia.
    rewrite Nat.Div0.mod_add. exact IH.
Qed.

Lemma before_padding_app (l : jsstring) (n : nat) :
  Forall alphabetic l -> before_padding (l ++ repeat paddingChar n) = l.
Proof.
  induction 1 as [|c l (_ & Hc & _) _ IH]; simpl.
  - destruct n; [reflexivity|]. simpl. reflexivity.
  - destruct (N.eqb_spec c paddingChar); [contradiction|]. now rewrite IH.
Qed.

(** [CryptoJS.enc.Base64.parse] undoes [CryptoJS.enc.Base64.stringify]. *)
Lemma parse_stringify (bytes : list byte) : parse (stringify bytes) = bytes.
Proof.
  unfold parse, stringify, pad.
  rewrite before_padding_app by apply body_alphabetic.
  apply parseLoop_body.
Qed.

Lemma stringify_ascii_units (bytes : list byte) :
  Forall (fun c => c < 128) (stringify bytes).
Proof.
  unfold stringify, pad. apply Forall_app. split.
  - eapply Forall_impl; [|apply body_alphabetic].
    now intros c (_ & _ & _ & H).
  - apply Forall_forall. intros c Hc. apply repeat_spec in Hc. now subst c.
Qed.

Lemma filter_whitespace (bytes : list byte) :
  List.filter (fun c => negb (is_ascii_whitespace c)) (stringify bytes)
  = stringify bytes.
Proof.
  unfold stringify, pad.
  rewrite List.filter_app. f_equal.
  - pose proof (body_alphabetic bytes) as H.
    induction H as [|c l (_ & _ & Hc & _) _ IH]; simpl; [reflexivity|].
    now rewrite Hc, IH.
  - generalize ((4 - length (body bytes) mod 4) mod 4)%nat as n.
    induction n as [|n IH]; simpl; [reflexivity|]. now rewrite IH.
Qed.

Lemma alphabetic_last (l : jsstring) (c : N) (r : jsstring) :
  Forall alphabetic l -> rev l = c :: r -> (c =? 61) = false.
Proof.
  intros H E. apply N.eqb_neq.
  assert (In c l) as Hin by (apply in_rev; rewrite E; now left).
  rewrite Forall_forall in H. now destruct (H c Hin) as (_ & ? & _).
Qed.

Lemma remove_padding_stringify (bytes : list byte) :
  remove_padding (stringify bytes) = body bytes.
Proof.
  unfold remove_padding, stringify, pad.
  pose proof (body_alphabetic bytes) as Ha.
  destruct (body_length bytes) as [_ Hl].
  rewrite length_app, repeat_length, rev_app_distr, rev_repeat.
  set (l := body bytes) in *. set (n := length l) in *.
  destruct Hl as [Hl | [Hl | Hl]].
  - replace ((4 - n mod 4) mod 4)%nat with 0%nat by (rewrite Hl; reflexivity).
    rewrite Nat.add_0_r, Hl. cbn [Nat.eqb repeat app]. rewrite app_nil_r.
    destruct (rev l) as [|a [|b r]] eqn:E; [reflexivity| |];
      now rewrite (alphabetic_last l a _ Ha E).
  - replace ((4 - n mod 4) mod 4)%nat with 2%nat by (rewrite Hl; reflexivity).
    replace ((n + 2) mod 4)%nat with 0%nat
      by (rewrite <- Nat.Div0.add_mod_idemp_l, Hl; reflexivity).
    cbn [Nat.eqb repeat app]. unfold paddingChar.
    cbn [N.eqb Pos.eqb]. now rewrite rev_involutive.
  - replace ((4 - n mod 4) mod 4)%nat with 1%nat by (rewrite Hl; reflexivity).
    replace ((n + 1) mod 4)%nat with 0%nat
      by (rewrite <- Nat.Div0.add_mod_idemp_l, Hl; reflexivity).
    cbn [Nat.eqb repeat app]. unfold paddingChar.
    destruct (rev l) as [|b r] eqn:E.
    + apply (f_equal (@rev N)) in E. rewrite rev_involutive in E.
      subst l. rewrite E. reflexivity.
    + cbn [N.eqb Pos.eqb]. rewrite (alphabetic_last l b _ Ha E).
      rewrite <- E, rev_involutive. reflexivity.
Qed.

(** [atob] undoes [btoa]. *)
Lemma atob_stringify (bytes : list byte) :
  atob (stringify bytes) = Return (map charCode bytes).
Proof.
  unfold atob. rewrite filter_whitespace, remove_padding_stringify.
  destruct (body_length bytes) as [Hl _].
  destruct (Nat.eqb_spec (length (body bytes) mod 4) 1); [contradiction|].
  assert (forallb (fun c => match reverse c with
                            | Some _ => true | None => false end)
                  (body bytes) = true) as ->.
  { apply forallb_forall. intros c Hc.
    pose proof (body_alphabetic bytes) as Ha. rewrite Forall_forall in Ha.
    now destruct (Ha c Hc) as ((w & ->) & _). }
  now rewrite parseLoop_body.
Qed.

Lemma binary_string (buffer : list byte) (acc : jsstring) :
  fold_left (fun acc b => acc ++ [charCode b]) buffer acc
  = acc ++ map charCode buffer.
Proof.
  revert acc. induction buffer as [|b buffer IH]; intros acc; simpl.
  - now rewrite app_nil_r.
  - now rewrite IH, <- app_assoc.
Qed.

Lemma map_byte_of_charCode (bytes : list byte) :
  map byte_of_N (map charCode bytes) = bytes.
Proof.
  rewrite List.map_map. rewrite <- (map_id bytes) at 2.
  apply map_ext. intros b. apply byte_of_to_N.
Qed.

Lemma arrayBufferToBase64_spec (buffer : list byte) :
  arrayBufferToBase64 buffer = Return (stringify buffer).
Proof.
  unfold arrayBufferToBase64, btoa. rewrite binary_string. cbn [app].
  assert (forallb (fun c => c <? 256) (map charCode buffer) = true) as ->.
  { apply forallb_forall. intros c Hc. apply in_map_iff in Hc as (b & <- & _).
    apply N.ltb_lt, to_N_lt. }
  now rewrite map_byte_of_charCode.
Qed.

Lemma base64ToArrayBuffer_stringify (bytes : list byte) :
  base64ToArrayBuffer (stringify bytes) = Return bytes.
Proof.
  unfold base64ToArrayBuffer. rewrite atob_stringify. simpl.
  now rewrite map_byte_of_charCode.
Qed.

End Base64RoundTrip.

(** * CBC with PKCS#7 padding: decryption undoes encryption *)

Section CipherRoundTrip.
Import CryptoJS.
Variable ks : list (list byte).

Lemma firstn_app_exact {A} (n : nat) (a b : list A) :
  length a = n -> firstn n (a ++ b) = a.
Proof.
  intros <-. induction a as [|x a IH]; simpl; [now destruct b|].
  now rewrite IH.
Qed.

Lemma skipn_app_exact {A} (n : nat) (a b : list A) :
  length a = n -> skipn n (a ++ b) = b.
Proof. intros <-. induction a as [|x a IH]; simpl; [reflexivity|exact IH]. Qed.

Lemma cbc_encrypt_length (n : nat) (prev data : list byte) :
  length data = (16 * n)%nat ->
  length (cbc_encrypt n ks prev data) = (16 * n)%nat.
Proof.
  revert prev data. induction n as [|n IH]; intros prev data Hl; [reflexivity|].
  cbn [cbc_encrypt]. rewrite length_app, cipher_length, xor_block_length.
  rewrite length_firstn, IH by (rewrite length_skipn; lia). lia.
Qed.

Lemma cbc_decrypt_encrypt (n : nat) (prev data : list byte) :
  length data = (16 * n)%nat ->
  cbc_decrypt n ks prev (cbc_encrypt n ks prev data) = data.
Proof.
  revert prev data. induction n as [|n IH]; intros prev data Hl.
  - destruct data; [reflexivity | discriminate].
  - cbn [cbc_encrypt cbc_decrypt].
    set (c := AES.cipher ks (AES.xor_block (firstn 16 data) prev)).
    assert (length c = 16%nat) as Hc.
    { unfold c. rewrite cipher_length, xor_block_length, length_firstn.
      lia. }
    rewrite (firstn_app_exact 16 c) by exact Hc.
    rewrite (skipn_app_exact 16 c) by exact Hc. unfold c at 1.
    rewrite inv_cipher_cipher, xor_block_cancel.
    rewrite IH by (rewrite length_skipn; lia).
    apply firstn_skipn.
Qed.

End CipherRoundTrip.

Section Pkcs7.
Import CryptoJS.

(** The padded length is the next multiple of 16 strictly above. *)
Lemma pkcs7_pad_shape (data : list byte) :
  exists q k : nat,
    (1 <= k <= 16)%nat /\ (length data + k = 16 * S q)%nat
    /\ pkcs7_pad data = data ++ repeat (byte_of_N (N.of_nat k)) k.
Proof.
  unfold pkcs7_pad.
  pose proof (Nat.div_mod_eq (length data) 16) as E.
  pose proof (Nat.mod_upper_bound (length data) 16 ltac:(lia)) as B.
  exists (length data / 16)%nat, (16 - length data mod 16)%nat.
  repeat split; lia.
Qed.

Lemma nth_padding (data : list byte) (p : byte) (k : nat) :
  (1 <= k)%nat ->
  nth (length data + k - 1) (data ++ repeat p k) Byte.x00 = p.
Proof.
  intros Hk. rewrite app_nth2 by lia.
  replace (length data + k - 1 - length data)%nat with (k - 1)%nat by lia.
  apply nth_repeat_lt. lia.
Qed.

Lemma pkcs7_unpad_pad (data : list byte) :
  pkcs7_unpad (pkcs7_pad data) (length (pkcs7_pad data)) = length data.
Proof.
  destruct (pkcs7_pad_shape data) as (q & k & Hk & Hlen & ->).
  rewrite length_app, repeat_length, Hlen. unfold pkcs7_unpad.
  replace (16 * S q)%nat with (S (16 * q + 15)) by lia. cbv iota beta.
  replace (4 * ((16 * q + 15) / 4) + 3)%nat with (length data + k - 1)%nat.
  2:{ replace (16 * q + 15)%nat with (3 + (4 * q + 3) * 4)%nat by lia.
      rewrite Nat.div_add by lia. simpl (3 / 4)%nat. lia. }
  rewrite nth_padding by lia.
  rewrite to_N_byte_of_N by lia. lia.
Qed.

Lemma AES_decrypt_encrypt (message : jsstring) (data key iv : list byte) :
  Utf8.parse message = Return data ->
  exists encrypted,
    AES_encrypt message key iv = Return encrypted
    /\ AES_decrypt encrypted key iv = data.
Proof.
  intros Hp. unfold AES_encrypt. rewrite Hp. cbn [cbind].
  eexists. split; [reflexivity|].
  destruct (pkcs7_pad_shape data) as (q & k & Hk & Hlen & Hpad).
  assert (length (pkcs7_pad data) = (16 * S q)%nat) as Hl
    by (rewrite Hpad, length_app, repeat_length; exact Hlen).
  assert ((length (pkcs7_pad data) / 16)%nat = S q) as Hq
    by (rewrite Hl, Nat.mul_comm; apply Nat.div_mul; lia).
  rewrite Hq. unfold AES_decrypt, decrypt_blocks.
  rewrite cbc_encrypt_length by exact Hl.
  replace ((16 - (16 * S q) mod 16) mod 16)%nat with 0%nat
    by (rewrite Nat.mul_comm, Nat.Div0.mod_mul; reflexivity).
  cbn [repeat]. rewrite app_nil_r, cbc_encrypt_length by exact Hl.
  replace ((16 * S q) / 16)%nat with (S q)
    by (rewrite Nat.mul_comm, Nat.div_mul; lia).
  rewrite cbc_decrypt_encrypt by exact Hl.
  rewrite <- Hl, pkcs7_unpad_pad, Hpad.
  now apply firstn_app_exact.
Qed.

End Pkcs7.

(** * [lib/crypto.js]: round trips *)

Lemma encryptText_unfold (plaintext key : jsstring) (r : Rng) :
  encryptText plaintext key r
  = (do encrypted <- CryptoJS.AES_encrypt plaintext (Hex.parse key)
                       (Hex.parse (fst (generateIV r)));
     Return {| EncryptedText.ciphertext := Base64.stringify encrypted;
               EncryptedText.iv := fst (generateIV r) |},
     snd (generateIV r)).
Proof. unfold encryptText. now destruct (generateIV r). Qed.

(** Decrypting what [encryptText] returned, with the key and the returned
    IV, gives the plaintext back; this needs nothing of the key. *)
Lemma decryptText_encryptText (plaintext key : jsstring) (r : Rng) :
  is_jsstring plaintext -> Utf8.well_formed plaintext = true ->
  exists e,
    fst (encryptText plaintext key r) = Return e
    /\ EncryptedText.iv e = fst (generateIV r)
    /\ decryptText (EncryptedText.ciphertext e) key (EncryptedText.iv e)
       = Return (Some plaintext).
Proof.
  intros Hjs Hwf. rewrite encryptText_unfold. cbn [fst].
  destruct (parse_well_formed plaintext Hwf) as [data Hp].
  destruct (AES_decrypt_encrypt plaintext data (Hex.parse key)
              (Hex.parse (fst (generateIV r))) Hp) as (encrypted & -> & Hd).
  cbn [cbind]. eexists. split; [reflexivity|]. split; [reflexivity|].
  unfold decryptText. cbn [EncryptedText.ciphertext EncryptedText.iv].
  rewrite parse_stringify, Hd, (stringify_parse plaintext data Hjs Hp).
  reflexivity.
Qed.

(** A plaintext with an unpaired surrogate never reaches the cipher. *)
Lemma encryptText_ill_formed (plaintext key : jsstring) (r : Rng) :
  Utf8.well_formed plaintext = false ->
  fst (encryptText plaintext key r) = Throw URIError.
Proof.
  intros H. rewrite encryptText_unfold. cbn [fst].
  unfold CryptoJS.AES_encrypt. now rewrite (parse_ill_formed plaintext H).
Qed.

Lemma encryptFile_unfold (file : File.t) (buffer : list byte) (key : jsstring)
    (r : Rng) :
  File.contents file = Return buffer ->
  encryptFile file key r
  = (do encrypted <- CryptoJS.AES_encrypt (Base64.stringify buffer)
                       (Hex.parse key) (Hex.parse (fst (generateIV r)));
     Return {| EncryptedFile.encryptedData := Base64.stringify encrypted;
               EncryptedFile.iv := fst (generateIV r);
               EncryptedFile.filename := File.name file;
               EncryptedFile.fileType :=
                 match File.type file with
                 | [] => js "application/octet-stream"
                 | ty => ty
                 end;
               EncryptedFile.fileSize := File.size file |},
     snd (generateIV r)).
Proof.
  intros Hc. unfold encryptFile, readFileAsArrayBuffer. rewrite Hc.
  cbn [cbind]. rewrite arrayBufferToBase64_spec. now destruct (generateIV r).
Qed.

Lemma base64_is_jsstring (bytes : list byte) :
  is_jsstring (Base64.stringify bytes).
Proof.
  eapply Forall_impl; [|apply stringify_ascii_units]. simpl. intros; lia.
Qed.

Lemma decryptFile_encryptFile (file : File.t) (buffer : list byte)
    (key : jsstring) (r : Rng) :
  File.contents file = Return buffer ->
  exists e,
    fst (encryptFile file key r) = Return e
    /\ EncryptedFile.iv e = fst (generateIV r)
    /\ decryptFile (EncryptedFile.encryptedData e) key (EncryptedFile.iv e)
       = Return (Some buffer)
    /\ decryptText (EncryptedFile.encryptedData e) key (EncryptedFile.iv e)
       = Return (Some (Base64.stringify buffer)).
Proof.
  intros Hc. rewrite (encryptFile_unfold file buffer key r Hc). cbn [fst].
  pose proof (parse_ascii _ (stringify_ascii_units buffer)) as Hp.
  destruct (AES_decrypt_encrypt _ _ (Hex.parse key)
              (Hex.parse (fst (generateIV r))) Hp) as (encrypted & -> & Hd).
  cbn [cbind]. eexists. split; [reflexivity|]. split; [reflexivity|].
  unfold decryptFile, decryptText.
  cbn [EncryptedFile.encryptedData EncryptedFile.iv].
  rewrite parse_stringify, Hd.
  rewrite (stringify_ascii _ (stringify_ascii_units buffer)). cbn [cbind].
  now rewrite base64ToArrayBuffer_stringify.
Qed.

Lemma sample_key_valid : valid_key Sample.key.
Proof. split; vm_compute; reflexivity. Qed.

(** C1 (amended). For every plaintext string without an unpaired
    surrogate and every valid 256-bit hex key, whatever the random source
    delivers, [encryptText] returns a result, and [decryptText] on its
    ciphertext, the key and its IV returns the plaintext. *)
Theorem text_round_trip (P K : jsstring) (r : Rng) :
  is_jsstring P -> Utf8.well_formed P = true -> valid_key K ->
  exists e,
    fst (encryptText P K r) = Return e
    /\ decryptText (EncryptedText.ciphertext e) K (EncryptedText.iv e)
       = Return (Some P).
Proof.
  intros Hjs Hwf _.
  destruct (decryptText_encryptText P K r Hjs Hwf) as (e & He & _ & Hd).
  now exists e.
Qed.

Lemma text_round_trip_witness :
  exists e,
    fst (encryptText (js "correct horse") Sample.key Sample.rng) = Return e
    /\ decryptText (EncryptedText.ciphertext e) Sample.key (EncryptedText.iv e)
       = Return (Some (js "correct horse")).
Proof.
  apply text_round_trip.
  - repeat (constructor; [reflexivity|]). constructor.
  - vm_compute. reflexivity.
  - split; vm_compute; reflexivity.
Defined.

(** C1 as stated fails: the one-unit string holding the unpaired
    surrogate U+D800 is a plaintext string, the key is valid, and
    [encryptText] raises [URIError] instead of returning a ciphertext. *)
Lemma text_round_trip_lone_surrogate :
  is_jsstring [55296] /\ valid_key Sample.key
  /\ fst (encryptText [55296] Sample.key Sample.rng) = Throw URIError
  /\ ~ (exists e,
          fst (encryptText [55296] Sample.key Sample.rng) = Return e
          /\ decryptText (EncryptedText.ciphertext e) Sample.key
               (EncryptedText.iv e) = Return (Some [55296])).
Proof.
  assert (fst (encryptText [55296] Sample.key Sample.rng) = Throw URIError)
    as E by (vm_compute; reflexivity).
  split; [repeat (constructor; [reflexivity|]); constructor|].
  split; [exact sample_key_valid|].
  split; [exact E|].
  intros (e & He & _). rewrite E in He. discriminate.
Qed.

(** C3. For every file content [B] and every valid key, [encryptFile]
    returns a result and [decryptFile] on its data, the key and its IV
    returns a buffer equal to [B]; what went through the cipher is the
    base64 text of [B]. *)
Theorem file_round_trip (file : File.t) (B : list byte) (K : jsstring) (r : Rng) :
  File.contents file = Return B -> valid_key K ->
  exists e,
    fst (encryptFile file K r) = Return e
    /\ decryptFile (EncryptedFile.encryptedData e) K (EncryptedFile.iv e)
       = Return (Some B)
    /\ arrayBufferToBase64 B = Return (Base64.stringify B)
    /\ decryptText (EncryptedFile.encryptedData e) K (EncryptedFile.iv e)
       = Return (Some (Base64.stringify B))
    /\ base64ToArrayBuffer (Base64.stringify B) = Return B.
Proof.
  intros Hc _.
  destruct (decryptFile_encryptFile file B K r Hc) as (e & He & _ & Hd & Ht).
  exists e. repeat split; try assumption.
  - apply arrayBufferToBase64_spec.
  - apply base64ToArrayBuffer_stringify.
Qed.

Lemma file_round_trip_witness :
  exists e,
    fst (encryptFile Sample.small_file Sample.key Sample.rng) = Return e
    /\ decryptFile (EncryptedFile.encryptedData e) Sample.key
         (EncryptedFile.iv e)
       = Return (Some [Byte.x00; Byte.xff; Byte.x80]).
Proof.
  destruct (file_round_trip Sample.small_file [Byte.x00; Byte.xff; Byte.x80]
              Sample.key Sample.rng eq_refl sample_key_valid)
    as (e & He & Hd & _).
  exists e. split; [exact He | exact Hd].
Defined.

(** * [decryptText] on malformed input *)

Lemma decryptText_returns (ct key iv : jsstring) :
  exists v, decryptText ct key iv = Return v.
Proof. unfold decryptText, try_or_null. destruct (Utf8.stringify _); eauto. Qed.

(** C2 (amended). [decryptText] never raises: every call returns [null]
    or a string.  It returns [null] exactly when the UTF-8 decoder raises
    on the decrypted bytes, and otherwise returns whatever string those
    bytes decode to; neither the padding, nor the base64 text, nor the
    key is checked.  In particular, when the byte read as padding length
    is at least the length of the ciphertext, the result is the empty
    string. *)
Theorem decryptText_never_throws (ct key iv : jsstring) :
  (exists v, decryptText ct key iv = Return v)
  /\ (decryptText ct key iv = Return None
      <-> exists e, Utf8.stringify (decrypted_bytes ct key iv) = Throw e)
  /\ (forall s, decryptText ct key iv = Return (Some s)
                <-> Utf8.stringify (decrypted_bytes ct key iv) = Return s)
  /\ (CryptoJS.pkcs7_unpad
        (CryptoJS.decrypt_blocks (Base64.parse ct) (Hex.parse key) (Hex.parse iv))
        (length (Base64.parse ct)) = 0%nat ->
      decryptText ct key iv = Return (Some [])).
Proof.
  split; [|split; [|split]].
  - apply decryptText_returns.
  - unfold decryptText, decrypted_bytes, try_or_null.
    destruct (Utf8.stringify _) as [s|e].
    + split; [discriminate | intros [e' He']; discriminate].
    + split; [eauto | reflexivity].
  - intros s. unfold decryptText, decrypted_bytes, try_or_null.
    destruct (Utf8.stringify _) as [s'|e]; split; congruence.
  - intros H. unfold decryptText, CryptoJS.AES_decrypt. rewrite H. reflexivity.
Qed.

Lemma decryptText_never_throws_witness :
  decryptText Sample.hello_ciphertext Sample.other_key Sample.hello_iv
  = Return (Some []).
Proof.
  apply decryptText_never_throws. vm_compute. reflexivity.
Defined.

(** C2 as stated fails.  ["hello"] is encrypted under one valid key and
    decrypted under another: the last decrypted byte, 0x6d, is no PKCS#7
    padding for a 16-byte block, and the call returns the empty string,
    neither a failure nor the plaintext.  An empty ciphertext, which
    holds no padded block at all, does the same. *)
Lemma decryptText_wrong_key_silent :
  fst (encryptText (js "hello") Sample.key Sample.rng)
  = Return {| EncryptedText.ciphertext := Sample.hello_ciphertext;
              EncryptedText.iv := Sample.hello_iv |}
  /\ valid_key Sample.other_key
  /\ last (CryptoJS.decrypt_blocks (Base64.parse Sample.hello_ciphertext)
             (Hex.parse Sample.other_key) (Hex.parse Sample.hello_iv))
          Byte.x00 = Byte.x6d
  /\ decryptText Sample.hello_ciphertext Sample.other_key Sample.hello_iv
     = Return (Some [])
  /\ decryptText [] Sample.key Sample.hello_iv = Return (Some []).
Proof.
  split; [vm_compute; reflexivity|].
  split; [split; vm_compute; reflexivity|].
  repeat split; vm_compute; reflexivity.
Qed.

(** * Key and IV lengths *)

(** C7 (amended). Neither function checks the length of the key or of
    the IV, and no call is rejected for it.  A key of 32 or 48
    hexadecimal digits is used as a 128- or 192-bit AES key: for every
    well-formed plaintext [encryptText] returns a result and
    [decryptText] with that key returns the plaintext.  For every key and
    IV, [decryptText] returns [null] or a string. *)
Theorem key_and_iv_length_unchecked :
  (forall (P K : jsstring) (r : Rng),
      is_jsstring P -> Utf8.well_formed P = true ->
      hex_string 16 K \/ hex_string 24 K ->
      ~ valid_key K
      /\ exists e,
          fst (encryptText P K r) = Return e
          /\ decryptText (EncryptedText.ciphertext e) K (EncryptedText.iv e)
             = Return (Some P))
  /\ (forall ct K iv : jsstring, exists v, decryptText ct K iv = Return v).
Proof.
  split.
  - intros P K r Hjs Hwf HK. split.
    + intros [Hl _]. destruct HK as [[Hl' _] | [Hl' _]]; lia.
    + destruct (decryptText_encryptText P K r Hjs Hwf) as (e & He & _ & Hd).
      now exists e.
  - intros ct K iv. apply decryptText_returns.
Qed.

Lemma sample_short_key_hex : hex_string 16 Sample.short_key.
Proof. split; vm_compute; reflexivity. Qed.

Lemma key_and_iv_length_unchecked_witness :
  ~ valid_key Sample.short_key
  /\ exists e,
      fst (encryptText (js "hello") Sample.short_key Sample.rng) = Return e
      /\ decryptText (EncryptedText.ciphertext e) Sample.short_key
           (EncryptedText.iv e) = Return (Some (js "hello")).
Proof.
  apply (proj1 key_and_iv_length_unchecked).
  - repeat (constructor; [reflexivity|]). constructor.
  - vm_compute. reflexivity.
  - left. split; vm_compute; reflexivity.
Defined.

(** C7 as stated fails.  A key of 32 hexadecimal digits is not a valid
    256-bit key, yet [encryptText] runs the cipher and returns its
    output, which [decryptText] turns back into the plaintext under the
    same short key; and an IV of no digits at all, or of two, is taken as
    it comes. *)
Lemma short_key_and_iv_accepted :
  ~ valid_key Sample.short_key
  /\ fst (encryptText (js "hello") Sample.short_key Sample.zero_rng)
     = Return {| EncryptedText.ciphertext := Sample.short_ciphertext;
                 EncryptedText.iv := Sample.zero_iv |}
  /\ decryptText Sample.short_ciphertext Sample.short_key Sample.zero_iv
     = Return (Some (js "hello"))
  /\ ~ valid_iv []
  /\ decryptText Sample.short_ciphertext Sample.short_key []
     = Return (Some (js "hello"))
  /\ ~ valid_iv (js "01")
  /\ decryptText Sample.short_ciphertext Sample.short_key (js "01")
     = Return (Some (js "iello")).
Proof.
  split; [intros [Hl _]; vm_compute in Hl; discriminate|].
  split; [vm_compute; reflexivity|].
  split; [vm_compute; reflexivity|].
  split; [intros [Hl _]; vm_compute in Hl; discriminate|].
  split; [vm_compute; reflexivity|].
  split; [intros [Hl _]; vm_compute in Hl; discriminate|].
  vm_compute; reflexivity.
Qed.

(** * The PIN digest *)

Section Sha256Shape.
Import SHA256.

Lemma step_length (h : list N) (kw : N * N) :
  length h = 8%nat -> length (step h kw) = 8%nat.
Proof.
  intros H. do 9 (destruct h as [|? h]; try discriminate). reflexivity.
Qed.

Lemma steps_length (kws : list (N * N)) (h : list N) :
  length h = 8%nat -> length (fold_left step kws h) = 8%nat.
Proof.
  revert h. induction kws as [|kw kws IH]; intros h H; simpl; [exact H|].
  apply IH, step_length, H.
Qed.

Lemma add_words_length (x y : list N) :
  length x = length y -> length (add_words x y) = length x.
Proof.
  revert y. induction x as [|a x IH]; intros [|b y] H; simpl in *;
    try discriminate; [reflexivity|]. f_equal. apply IH. lia.
Qed.

Lemma compress_length (h : list N) (block : list byte) :
  length h = 8%nat -> length (compress h block) = 8%nat.
Proof.
  intros H. unfold compress.
  rewrite add_words_length; [exact H|]. now rewrite steps_length.
Qed.

Lemma blocks_length (n : nat) (h : list N) (bs : list byte) :
  length h = 8%nat -> length (blocks n h bs) = 8%nat.
Proof.
  revert h bs. induction n as [|n IH]; intros h bs H; simpl; [exact H|].
  apply IH, compress_length, H.
Qed.

Lemma be_bytes_length (n : nat) (x : N) : length (be_bytes n x) = n.
Proof.
  revert x. induction n as [|n IH]; intros x; simpl; [reflexivity|].
  rewrite length_app, IH. simpl. lia.
Qed.

Lemma concat_be_bytes_length (ws : list N) :
  length (concat (map (be_bytes 4) ws)) = (4 * length ws)%nat.
Proof.
  induction ws as [|w ws IH]; [reflexivity|]. cbn [map concat length].
  rewrite length_app, be_bytes_length, IH. lia.
Qed.

(** A digest is 32 bytes. *)
Lemma hash_length (msg : list byte) : length (hash msg) = 32%nat.
Proof.
  unfold hash. rewrite concat_be_bytes_length, blocks_length; reflexivity.
Qed.
End Sha256Shape.

Lemma hashPin_unfold (pin : jsstring) :
  hashPin pin
  = match Utf8.parse pin with
    | Return utf8 => Return (Hex.stringify (SHA256.hash utf8))
    | Throw e => Throw e
    end.
Proof. unfold hashPin, CryptoJS.SHA256. now destruct (Utf8.parse pin). Qed.

(** C8. [hashPin(pin)] is the SHA-256 digest of the UTF-8 bytes of [pin],
    hex-encoded: 64 hexadecimal digits.  It is a function of the PIN
    alone, so two calls with the same PIN return the same digest, and the
    digests of "1234" and "12345" are the known ones and differ. *)
Theorem hashPin_is_sha256_hex :
  (forall pin, hashPin pin = pin_digest_spec pin)
  /\ (forall pin digest,
         hashPin pin = Return digest ->
         length digest = 64%nat /\ forallb is_hex digest = true)
  /\ (forall pin1 pin2, pin1 = pin2 -> hashPin pin1 = hashPin pin2)
  /\ hashPin (js "abc") = Return Sample.digest_abc
  /\ hashPin (js "1234") = Return Sample.digest_1234
  /\ hashPin (js "12345") = Return Sample.digest_12345
  /\ hashPin (js "1234") <> hashPin (js "12345").
Proof.
  split; [|split; [|split; [|split; [|split; [|split]]]]].
  - intros pin. rewrite hashPin_unfold. unfold pin_digest_spec.
    destruct (Utf8.parse pin); [|reflexivity]. now rewrite stringify_hexOfArray.
  - intros pin digest. rewrite hashPin_unfold.
    destruct (Utf8.parse pin) as [utf8|]; [|discriminate].
    intros [= <-]. rewrite stringify_hexOfArray. split.
    + now rewrite hexOfArray_length, hash_length.
    + apply hexOfArray_is_hex.
  - intros pin1 pin2 ->. reflexivity.
  - vm_compute. reflexivity.
  - vm_compute. reflexivity.
  - vm_compute. reflexivity.
  - vm_compute. discriminate.
Qed.

Lemma hashPin_is_sha256_hex_witness :
  length Sample.digest_1234 = 64%nat
  /\ forallb is_hex Sample.digest_1234 = true.
Proof.
  destruct hashPin_is_sha256_hex as (_ & Hshape & _).
  apply (Hshape (js "1234")). vm_compute. reflexivity.
Defined.

(** * The creation request *)

Section CreationRequest.
Variable lib : CryptoLib.t.
Variable st : Page.t.
Variable createSecret : Payload.t -> completion jsstring.
Variable r : Rng.

Let key := fst (CryptoLib.generateEncryptionKey lib r).
Let r1 := snd (CryptoLib.generateEncryptionKey lib r).
Let r2 := snd (CryptoLib.encryptText lib (text_or_space st) key r1).

Lemma requests_app (a b : list effect) :
  requests (a ++ b) = requests a ++ requests b.
Proof. unfold requests. apply flat_map_app. Qed.

(** The [try] block sends nothing, or exactly the one request whose
    fields are the results of the crypto calls and the page's
    settings. *)
Lemma handleCreate_try_requests :
  requests (fst (fst (handleCreate_try lib st createSecret r))) = []
  \/ exists e pinHash fps,
      fst (CryptoLib.encryptText lib (text_or_space st) key r1) = Return e
      /\ (if Page.usePin st
          then exists h, CryptoLib.hashPin lib (Page.pin st) = Return h
                         /\ pinHash = Some h
          else pinHash = None)
      /\ match Page.files st with
         | [] => fps = None
         | _ => exists l,
                  promise_all (fst (encryptFiles lib (Page.files st) key r2))
                  = Return l /\ fps = Some l
         end
      /\ requests (fst (fst (handleCreate_try lib st createSecret r)))
         = [{| Payload.encryptedData := EncryptedText.ciphertext e;
               Payload.iv := EncryptedText.iv e;
               Payload.pinHash := pinHash;
               Payload.expiryMinutes := parseInt (Page.expiryMinutes st);
               Payload.oneTimeView := Page.oneTimeView st;
               Payload.files := fps |}].
Proof.
  unfold handleCreate_try. subst r2 r1 key. fold (text_or_space st).
  destruct (CryptoLib.generateEncryptionKey lib r) as [k ra]. cbn [fst snd].
  destruct (CryptoLib.encryptText lib (text_or_space st) k ra) as [[e|err] rb];
    cbn [fst snd]; [|now left].
  set (ph := if Page.usePin st
             then do h <- CryptoLib.hashPin lib (Page.pin st); Return (Some h)
             else Return None).
  assert (match ph with
          | Return pinHash =>
              if Page.usePin st
              then exists h, CryptoLib.hashPin lib (Page.pin st) = Return h
                             /\ pinHash = Some h
              else pinHash = None
          | Throw _ => True
          end) as Hph.
  { subst ph. destruct (Page.usePin st); [|reflexivity].
    destruct (CryptoLib.hashPin lib (Page.pin st)); simpl; eauto. }
  destruct ph as [pinHash|err]; [|now left].
  destruct (Page.files st) as [|f fs] eqn:Ef.
  - destruct (createSecret _) eqn:Ec; right; exists e, pinHash, None;
      repeat split; try assumption; reflexivity.
  - destruct (encryptFiles lib (f :: fs) k rb) as [ps rc] eqn:Efs.
    cbn [fst]. destruct (promise_all ps) as [l|err] eqn:Ep; cbn [cbind];
      [|now left].
    destruct (createSecret _) eqn:Ec; right; exists e, pinHash, (Some l);
      (split; [reflexivity|]); (split; [assumption|]);
      (split; [eauto|]); reflexivity.
Qed.

Lemma navigations_app (a b : list effect) :
  navigations (a ++ b) = navigations a ++ navigations b.
Proof. unfold navigations. apply flat_map_app. Qed.

(** The share page receives the key that key generation returned. *)
Lemma handleCreate_navigations (s : ShareState.t) :
  In s (navigations (fst (handleCreate lib st createSecret r))) ->
  ShareState.encryptionKey s = key.
Proof.
  unfold handleCreate.
  destruct (trims_to_empty _ && _); [intros []|].
  destruct (Page.usePin st && _); [intros []|].
  unfold handleCreate_try. subst key.
  destruct (CryptoLib.generateEncryptionKey lib r) as [k ra]. cbn [fst snd].
  destruct (CryptoLib.encryptText lib _ k ra) as [[e|err] rb];
    [|intros []].
  destruct (if Page.usePin st then _ else _) as [pinHash|err]; [|intros []].
  destruct (Page.files st) as [|f fs].
  - destruct (createSecret _); cbn; [|tauto].
    now intros [<- | []].
  - destruct (encryptFiles lib (f :: fs) k rb) as [ps rc].
    destruct (promise_all ps) as [l|err]; cbn [cbind]; [|intros []].
    destruct (createSecret _); cbn; [|tauto].
    now intros [<- | []].
Qed.

Lemma handleCreate_requests :
  requests (fst (handleCreate lib st createSecret r)) = []
  \/ requests (fst (handleCreate lib st createSecret r))
     = requests (fst (fst (handleCreate_try lib st createSecret r))).
Proof.
  unfold handleCreate.
  destruct (trims_to_empty _ && _); [now left|].
  destruct (Page.usePin st && _); [now left|].
  destruct (handleCreate_try lib st createSecret r) as [[effs res] r'].
  right. cbn [fst]. rewrite !requests_app. cbn [requests flat_map app].
  destruct res; cbn [requests flat_map app]; now rewrite app_nil_r.
Qed.

End CreationRequest.

Lemma encryptFiles_results (lib : CryptoLib.t) (files : list File.t)
    (key : jsstring) (r : Rng) (l : list FilePayload.t) :
  promise_all (fst (encryptFiles lib files key r)) = Return l ->
  Forall2 (fun file fp =>
             exists e r', fst (CryptoLib.encryptFile lib file key r') = Return e
                          /\ fp = file_payload_of e)
          files l.
Proof.
  revert r l. induction files as [|file rest IH]; intros r l.
  - intros [= <-]. constructor.
  - cbn [encryptFiles].
    destruct (CryptoLib.encryptFile lib file key r) as [enc ra] eqn:Ee.
    destruct (encryptFiles lib rest key ra) as [ps rb] eqn:Er.
    cbn [fst promise_all].
    destruct enc as [e|err]; cbn [cbind]; [|discriminate].
    destruct (promise_all ps) as [xs|err] eqn:Ep; cbn [cbind]; [|discriminate].
    intros [= <-]. constructor.
    + exists e, r. rewrite Ee. split; reflexivity.
    + apply (IH ra). now rewrite Er.
Qed.

Lemma encryptFiles_ext (lib1 lib2 : CryptoLib.t) (k1 k2 : jsstring) :
  (forall file r, CryptoLib.encryptFile lib1 file k1 r
                  = CryptoLib.encryptFile lib2 file k2 r) ->
  forall files r, encryptFiles lib1 files k1 r = encryptFiles lib2 files k2 r.
Proof.
  intros H files. induction files as [|file rest IH]; intros r; [reflexivity|].
  cbn [encryptFiles]. rewrite H.
  destruct (CryptoLib.encryptFile lib2 file k2 r) as [enc ra].
  now rewrite IH.
Qed.

(** Two runs whose keys differ but whose encryption results agree send
    the same requests. *)
Lemma handleCreate_requests_ext (lib1 lib2 : CryptoLib.t) (st : Page.t)
    (createSecret : Payload.t -> completion jsstring) (r : Rng) :
  snd (CryptoLib.generateEncryptionKey lib1 r)
  = snd (CryptoLib.generateEncryptionKey lib2 r) ->
  (forall text r',
      CryptoLib.encryptText lib1 text
        (fst (CryptoLib.generateEncryptionKey lib1 r)) r'
      = CryptoLib.encryptText lib2 text
          (fst (CryptoLib.generateEncryptionKey lib2 r)) r') ->
  (forall pin, CryptoLib.hashPin lib1 pin = CryptoLib.hashPin lib2 pin) ->
  (forall file r',
      CryptoLib.encryptFile lib1 file
        (fst (CryptoLib.generateEncryptionKey lib1 r)) r'
      = CryptoLib.encryptFile lib2 file
          (fst (CryptoLib.generateEncryptionKey lib2 r)) r') ->
  requests (fst (handleCreate lib1 st createSecret r))
  = requests (fst (handleCreate lib2 st createSecret r)).
Proof.
  intros Hr Ht Hp Hf. unfold handleCreate.
  destruct (trims_to_empty _ && _); [reflexivity|].
  destruct (Page.usePin st && _); [reflexivity|].
  unfold handleCreate_try.
  destruct (CryptoLib.generateEncryptionKey lib1 r) as [k1 r1].
  destruct (CryptoLib.generateEncryptionKey lib2 r) as [k2 r2].
  cbn [fst snd] in *. subst r2. rewrite Ht, Hp.
  destruct (CryptoLib.encryptText lib2 _ k2 r1) as [[e|err] rb]; [|reflexivity].
  destruct (if Page.usePin st then _ else _) as [pinHash|err]; [|reflexivity].
  destruct (Page.files st) as [|f fs].
  - destruct (createSecret _); reflexivity.
  - rewrite (encryptFiles_ext lib1 lib2 k1 k2 Hf).
    destruct (encryptFiles lib2 (f :: fs) k2 rb) as [ps rc].
    destruct (promise_all ps) as [l|err]; cbn [cbind]; [|reflexivity].
    destruct (createSecret _); reflexivity.
Qed.


Lemma handleCreate_request_fields (st : Page.t)
    (createSecret : Payload.t -> completion jsstring) (r : Rng) (p : Payload.t) :
  In p (requests (fst (handleCreate crypto st createSecret r))) ->
  requests (fst (handleCreate crypto st createSecret r)) = [p]
  /\ (exists e r',
         fst (encryptText (text_or_space st) (fst (generateEncryptionKey r)) r')
         = Return e
         /\ Payload.encryptedData p = EncryptedText.ciphertext e
         /\ Payload.iv p = EncryptedText.iv e)
  /\ (Payload.pinHash p = None
      \/ exists h, hashPin (Page.pin st) = Return h
                   /\ Payload.pinHash p = Some h)
  /\ Payload.expiryMinutes p = parseInt (Page.expiryMinutes st)
  /\ Payload.oneTimeView p = Page.oneTimeView st
  /\ (Payload.files p = None
      \/ exists fps,
          Payload.files p = Some fps
          /\ Forall2 (fun file fp =>
                        exists e r',
                          fst (encryptFile file (fst (generateEncryptionKey r)) r')
                          = Return e
                          /\ fp = file_payload_of e)
                     (Page.files st) fps).
Proof.
  intros Hin.
  destruct (handleCreate_requests crypto st createSecret r) as [E|E];
    [rewrite E in Hin; destruct Hin|].
  rewrite E in Hin |- *.
  destruct (handleCreate_try_requests crypto st createSecret r)
    as [E'|(e & pinHash & fps & He & Hpin & Hfiles & E')];
    [rewrite E' in Hin; destruct Hin|].
  rewrite E' in Hin |- *. destruct Hin as [<-|[]].
  cbn [Payload.encryptedData Payload.iv Payload.pinHash Payload.expiryMinutes
       Payload.oneTimeView Payload.files].
  cbn [crypto CryptoLib.generateEncryptionKey CryptoLib.encryptText
       CryptoLib.hashPin] in He, Hpin, Hfiles.
  split; [reflexivity|]. split; [eauto|]. split.
  { destruct (Page.usePin st); [right; exact Hpin | left; exact Hpin]. }
  split; [reflexivity|]. split; [reflexivity|].
  destruct (Page.files st) as [|f fs]; [left; exact Hfiles|].
  destruct Hfiles as (l & Hl & ->). right. exists l. split; [reflexivity|].
  exact (encryptFiles_results crypto (f :: fs) _ _ l Hl).
Qed.

(** C4. For every secret creation, the request sent to the storage
    boundary is the only one, and each of its fields is a ciphertext or an
    IV returned by [encryptText] or [encryptFile], the PIN digest returned
    by [hashPin], or metadata of the page and the files.  The key reaches
    the request through those results alone: with any two crypto
    libraries whose generated keys may differ but whose encryption and
    hashing results agree, the requests sent are identical. *)
Theorem creation_request_excludes_key :
  (forall (st : Page.t) (createSecret : Payload.t -> completion jsstring)
          (r : Rng) (p : Payload.t),
      In p (requests (fst (handleCreate crypto st createSecret r))) ->
      requests (fst (handleCreate crypto st createSecret r)) = [p]
      /\ (exists e r',
             fst (encryptText (text_or_space st)
                    (fst (generateEncryptionKey r)) r') = Return e
             /\ Payload.encryptedData p = EncryptedText.ciphertext e
             /\ Payload.iv p = EncryptedText.iv e)
      /\ (Payload.pinHash p = None
          \/ exists h, hashPin (Page.pin st) = Return h
                       /\ Payload.pinHash p = Some h)
      /\ Payload.expiryMinutes p = parseInt (Page.expiryMinutes st)
      /\ Payload.oneTimeView p = Page.oneTimeView st
      /\ (Payload.files p = None
          \/ exists fps,
              Payload.files p = Some fps
              /\ Forall2 (fun file fp =>
                            exists e r',
                              fst (encryptFile file
                                     (fst (generateEncryptionKey r)) r')
                              = Return e
                              /\ fp = file_payload_of e)
                         (Page.files st) fps))
  /\ (forall (lib1 lib2 : CryptoLib.t) (st : Page.t)
             (createSecret : Payload.t -> completion jsstring) (r : Rng),
         snd (CryptoLib.generateEncryptionKey lib1 r)
         = snd (CryptoLib.generateEncryptionKey lib2 r) ->
         (forall text r',
             CryptoLib.encryptText lib1 text
               (fst (CryptoLib.generateEncryptionKey lib1 r)) r'
             = CryptoLib.encryptText lib2 text
                 (fst (CryptoLib.generateEncryptionKey lib2 r)) r') ->
         (forall pin, CryptoLib.hashPin lib1 pin = CryptoLib.hashPin lib2 pin) ->
         (forall file r',
             CryptoLib.encryptFile lib1 file
               (fst (CryptoLib.generateEncryptionKey lib1 r)) r'
             = CryptoLib.encryptFile lib2 file
                 (fst (CryptoLib.generateEncryptionKey lib2 r)) r') ->
         requests (fst (handleCreate lib1 st createSecret r))
         = requests (fst (handleCreate lib2 st createSecret r))).
Proof.
  split.
  - apply handleCreate_request_fields.
  - apply handleCreate_requests_ext.
Qed.

Lemma creation_request_excludes_key_witness :
  (exists p,
      requests (fst (handleCreate crypto Sample.page Sample.accept Sample.rng))
      = [p])
  /\ fst (CryptoLib.generateEncryptionKey crypto Sample.rng)
     <> fst (CryptoLib.generateEncryptionKey Sample.crypto' Sample.rng)
  /\ requests (fst (handleCreate crypto Sample.page Sample.accept Sample.rng))
     = requests (fst (handleCreate Sample.crypto' Sample.page Sample.accept
                        Sample.rng)).
Proof.
  destruct creation_request_excludes_key as [Hfields Hext].
  split; [|split].
  - destruct (requests (fst (handleCreate crypto Sample.page Sample.accept
                               Sample.rng))) as [|p l] eqn:E;
      [vm_compute in E; discriminate|].
    assert (In p (requests (fst (handleCreate crypto Sample.page
                                   Sample.accept Sample.rng)))) as Hin
      by (rewrite E; now left).
    destruct (Hfields _ _ _ p Hin) as (H1 & _).
    exists p. rewrite <- E. exact H1.
  - vm_compute. discriminate.
  - apply Hext; reflexivity.
Defined.

(** * Files without text *)

(** C10. When the secret text is empty and files are attached,
    [handleCreate] encrypts the one-character string " " in its place:
    the text ciphertext of the request it sends decrypts, under the
    generated key (the one handed to the share page) and the request's
    IV, to " " and not to the empty string. *)
Theorem empty_text_is_encrypted_as_space (st : Page.t)
    (createSecret : Payload.t -> completion jsstring) (r : Rng)
    (p : Payload.t) :
  Page.secretText st = [] -> Page.files st <> [] ->
  In p (requests (fst (handleCreate crypto st createSecret r))) ->
  text_or_space st = js " "
  /\ decryptText (Payload.encryptedData p) (fst (generateEncryptionKey r))
       (Payload.iv p) = Return (Some (js " "))
  /\ decryptText (Payload.encryptedData p) (fst (generateEncryptionKey r))
       (Payload.iv p) <> Return (Some [])
  /\ (forall s,
         In s (navigations (fst (handleCreate crypto st createSecret r))) ->
         decryptText (Payload.encryptedData p) (ShareState.encryptionKey s)
           (Payload.iv p) = Return (Some (js " "))).
Proof.
  intros Htext _ Hin.
  assert (text_or_space st = js " ") as Hsp
    by (unfold text_or_space; now rewrite Htext).
  destruct (handleCreate_request_fields st createSecret r p Hin)
    as (_ & (e & r' & He & -> & ->) & _).
  rewrite Hsp in He.
  destruct (decryptText_encryptText (js " ") (fst (generateEncryptionKey r)) r')
    as (e' & He' & _ & Hd).
  { repeat (constructor; [reflexivity|]). constructor. }
  { reflexivity. }
  assert (e' = e) as -> by congruence.
  split; [exact Hsp|]. split; [exact Hd|]. split.
  - rewrite Hd. discriminate.
  - intros s Hs.
    rewrite (handleCreate_navigations crypto st createSecret r s Hs).
    exact Hd.
Qed.

Lemma empty_text_is_encrypted_as_space_witness :
  exists p,
    requests (fst (handleCreate crypto Sample.page Sample.accept Sample.rng))
    = [p]
    /\ decryptText (Payload.encryptedData p)
         (fst (generateEncryptionKey Sample.rng)) (Payload.iv p)
       = Return (Some (js " ")).
Proof.
  destruct (requests (fst (handleCreate crypto Sample.page Sample.accept
                             Sample.rng))) as [|p l] eqn:E;
    [vm_compute in E; discriminate|].
  assert (In p (requests (fst (handleCreate crypto Sample.page
                                 Sample.accept Sample.rng)))) as Hin
    by (rewrite E; now left).
  destruct (empty_text_is_encrypted_as_space Sample.page Sample.accept
              Sample.rng p eq_refl ltac:(discriminate) Hin) as (_ & Hd & _).
  exists p. split; [|exact Hd].
  destruct (handleCreate_request_fields _ _ _ p Hin) as (H1 & _).
  rewrite <- E. exact H1.
Defined.

(** * The file list: removal and selection *)

Lemma remove_at_split {A} (i : nat) (l : list A) :
  (i < length l)%nat -> remove_at i l = firstn i l ++ skipn (S i) l.
Proof.
  revert i. induction l as [|x l IH]; intros [|i] H; simpl in *; try lia.
  - reflexivity.
  - f_equal. apply IH. lia.
Qed.

Lemma remove_at_out_of_range {A} (i : nat) (l : list A) :
  (length l <= i)%nat -> remove_at i l = l.
Proof.
  revert i. induction l as [|x l IH]; intros [|i] H; simpl in *; try lia.
  - reflexivity.
  - reflexivity.
  - f_equal. apply IH. lia.
Qed.

(** X1. [removeFile(index)] takes out exactly the file at [index], keeping
    the others in order, and lowers the total size by that file's size;
    an index past the end changes nothing. *)
Theorem removeFile_removes_one (st : Page.t) (index : nat) :
  (forall file, nth_error (Page.files st) index = Some file ->
                Page.files (removeFile st index)
                = firstn index (Page.files st) ++ skipn (S index) (Page.files st)
                /\ S (length (Page.files (removeFile st index)))
                   = length (Page.files st)
                /\ total_size (Page.files (removeFile st index)) + File.size file
                   = total_size (Page.files st))
  /\ (nth_error (Page.files st) index = None ->
      Page.files (removeFile st index) = Page.files st)
  /\ (forall j, (j < index)%nat ->
                nth_error (Page.files (removeFile st index)) j
                = nth_error (Page.files st) j)
  /\ (forall j, (index <= j)%nat ->
                nth_error (Page.files (removeFile st index)) j
                = nth_error (Page.files st) (S j)).
Proof.
  unfold removeFile. rewrite files_setFiles.
  generalize (Page.files st) as l. clear st. intros l.
  split; [|split; [|split]].
  - intros file Hn.
    assert (index < length l)%nat as Hlt
      by (apply nth_error_Some; congruence).
    rewrite (remove_at_split index l Hlt). split; [reflexivity|]. split.
    + rewrite length_app, length_firstn, length_skipn. lia.
    + rewrite <- (firstn_skipn index l) at 3.
      rewrite !total_size_app.
      assert (skipn index l = file :: skipn (S index) l) as ->.
      { clear Hlt. revert index Hn.
        induction l as [|x l IH]; intros [|i] Hn; simpl in *; try discriminate.
        - now injection Hn as ->.
        - now apply IH. }
      rewrite total_size_cons. lia.
  - intros Hn. apply remove_at_out_of_range. now apply nth_error_None.
  - revert index. induction l as [|x l IH]; intros [|i] j Hj; simpl;
      try lia; try reflexivity.
    destruct j as [|j]; [reflexivity|]. simpl. apply IH. lia.
  - revert index. induction l as [|x l IH]; intros [|i] j Hj; simpl;
      try reflexivity; try (now destruct j).
    destruct j as [|j]; [lia|]. simpl. apply IH. lia.
Qed.

Lemma removeFile_removes_one_witness :
  Page.files (removeFile Sample.page 0) = []
  /\ Page.files (removeFile Sample.page 3) = [Sample.small_file].
Proof.
  destruct (removeFile_removes_one Sample.page 0) as (H0 & _).
  destruct (removeFile_removes_one Sample.page 3) as (_ & H3 & _).
  split.
  - apply (H0 Sample.small_file eq_refl).
  - apply H3. reflexivity.
Defined.

(** X2. [handleFileSelect] accepts a selection exactly when the list would
    hold at most 5 files of at most 10 MB (10485760 bytes) in total, both
    bounds included; an accepted selection is appended after the files
    already held, in order and without looking for duplicates, and shows
    no toast; a refused one shows exactly one error toast. *)
Theorem handleFileSelect_accepts_iff (st : Page.t) (sel : list File.t) :
  let fits :=
    (length (Page.files st) + length sel <= 5)%nat
    /\ total_size (Page.files st) + total_size sel <= 10485760 in
  (fits <->
   handleFileSelect st sel = (Page.setFiles (Page.files st ++ sel) st, []))
  /\ (fits -> total_size (Page.files (fst (handleFileSelect st sel)))
              = total_size (Page.files st) + total_size sel)
  /\ (~ fits <-> exists msg, handleFileSelect st sel = (st, [ToastError msg])).
Proof.
  cbn zeta.
  destruct (handleFileSelect_cases st sel)
    as [(Hn & E) | [(Hn & Hs & E) | (Hn & Hs & E)]];
    rewrite E; unfold MAX_FILES, MAX_FILE_SIZE in *.
  - split; [|split].
    + split; [lia | discriminate].
    + lia.
    + split; [eauto | lia].
  - split; [|split].
    + split; [lia | discriminate].
    + lia.
    + split; [eauto | lia].
  - split; [|split].
    + split; [reflexivity | intros _; split; lia].
    + intros _. cbn [fst]. now rewrite files_setFiles, total_size_app.
    + split; [intros H; exfalso; apply H; split; lia|].
      intros [msg Hm]. discriminate.
Qed.

Lemma handleFileSelect_accepts_iff_witness :
  handleFileSelect Sample.page [Sample.small_file; Sample.small_file]
  = (Page.setFiles [Sample.small_file; Sample.small_file; Sample.small_file]
       Sample.page, []).
Proof.
  apply (proj1 (handleFileSelect_accepts_iff Sample.page
                  [Sample.small_file; Sample.small_file])).
  split; [simpl; lia | vm_compute; discriminate].
Defined.

(** * The create button and the first guard *)

(** X3. While the create button is enabled, [handleCreate] gets past its
    first guard: the toast asking for a secret or files is never shown;
    and a press that does reach the first guard (the button's own
    condition apart from [isCreating]) shows that toast and nothing
    else, drawing no random byte. *)
Theorem create_button_guard (lib : CryptoLib.t) (st : Page.t)
    (createSecret : Payload.t -> completion jsstring) (r : Rng) :
  (create_disabled st = false ->
   ~ In (ToastError (js "Please enter a secret or add files to share"))
        (fst (handleCreate lib st createSecret r)))
  /\ (trims_to_empty (Page.secretText st) = true -> Page.files st = [] ->
      create_disabled st = true
      /\ handleCreate lib st createSecret r
         = ([ToastError (js "Please enter a secret or add files to share")], r)).
Proof.
  split.
  - unfold create_disabled. intros Hd.
    apply orb_false_iff in Hd as [_ Hg].
    unfold handleCreate. rewrite Hg.
    destruct (Page.usePin st && _).
    + cbn [fst]. intros [H|[]]. vm_compute in H. discriminate.
    + destruct (handleCreate_try lib st createSecret r) as [[effs res] r'] eqn:E.
      cbn [fst]. intros Hin.
      apply in_app_or in Hin as [Hin|Hin]; [destruct Hin as [H|[]]; discriminate|].
      apply in_app_or in Hin as [Hin|Hin].
      * revert Hin. pose proof E as E'. revert E'. unfold handleCreate_try.
        destruct (CryptoLib.generateEncryptionKey lib r) as [k ra].
        destruct (CryptoLib.encryptText lib _ k ra) as [[e|err] rb];
          [|intros [= <- _ _] []].
        destruct (if Page.usePin st then _ else _) as [pinHash|err];
          [|intros [= <- _ _] []].
        destruct (Page.files st) as [|f fs].
        -- destruct (createSecret _); intros [= <- _ _] Hin; cbn in Hin;
             repeat (destruct Hin as [Hin|Hin]; [discriminate|]); destruct Hin.
        -- destruct (encryptFiles lib (f :: fs) k rb) as [ps rc].
           destruct (promise_all ps) as [l|err]; cbn [cbind].
           ++ destruct (createSecret _); intros [= <- _ _] Hin; cbn in Hin;
                repeat (destruct Hin as [Hin|Hin]; [discriminate|]); destruct Hin.
           ++ intros [= <- _ _] Hin; cbn in Hin.
              repeat (destruct Hin as [Hin|Hin]; [discriminate|]); destruct Hin.
      * apply in_app_or in Hin as [Hin|Hin].
        -- destruct res as [|e]; [destruct Hin|].
           destruct Hin as [H|[H|[]]]; [discriminate|].
           injection H as H. destruct e as [| | | |[|p]|]; vm_compute in H;
             try discriminate.
           repeat (destruct p as [p|p|]; try discriminate).
        -- destruct Hin as [H|[]]. discriminate.
  - intros Hb Hf. unfold create_disabled, handleCreate. rewrite Hb, Hf.
    cbn. split; [apply orb_true_r | reflexivity].
Qed.

Lemma create_button_guard_witness :
  ~ In (ToastError (js "Please enter a secret or add files to share"))
       (fst (handleCreate crypto Sample.page Sample.accept Sample.rng))
  /\ handleCreate crypto Page.initial Sample.accept Sample.rng
     = ([ToastError (js "Please enter a secret or add files to share")],
        Sample.rng).
Proof.
  split.
  - apply (proj1 (create_button_guard crypto Sample.page Sample.accept
                    Sample.rng)).
    reflexivity.
  - apply (proj2 (create_button_guard crypto Page.initial Sample.accept
                    Sample.rng)); reflexivity.
Defined.

(** * [handleCreate]: how a run ends *)

Lemma guards_pass_tests (st : Page.t) :
  guards_pass st
  <-> (trims_to_empty (Page.secretText st)
       && (length (Page.files st) =? 0)%nat) = false
      /\ (Page.usePin st
          && ((length (Page.pin st) =? 0)%nat || (length (Page.pin st) <? 4)%nat))
         = false.
Proof.
  unfold guards_pass.
  destruct (trims_to_empty (Page.secretText st)); cbn [andb];
    destruct (Page.files st) as [|f fs]; cbn [length Nat.eqb];
    destruct (Page.usePin st); cbn [andb];
    destruct (Nat.eqb_spec (length (Page.pin st)) 0);
    destruct (Nat.ltb_spec (length (Page.pin st)) 4); cbn [orb];
    split; intros [H1 H2]; split; try reflexivity; try discriminate;
    try congruence; try (left; reflexivity); try (right; discriminate);
    try (intros _; lia); try (intros; discriminate);
    try (destruct H1; congruence); try (specialize (H2 eq_refl); lia).
Qed.

(** Past the guards the effects are: [setIsCreating(true)], the optional
    toast for the files, one of the three endings, [setIsCreating(false)]. *)
Lemma handleCreate_shape (lib : CryptoLib.t) (st : Page.t)
    (createSecret : Payload.t -> completion jsstring) (r : Rng) :
  guards_pass st ->
  exists info tail,
    fst (handleCreate lib st createSecret r)
    = SetIsCreating true :: info ++ tail ++ [SetIsCreating false]
    /\ (info = [] \/ info = [ToastInfo (js "Encrypting files...")])
    /\ ending lib st createSecret r tail.
Proof.
  intros Hg. apply guards_pass_tests in Hg as [Hg1 Hg2].
  unfold handleCreate. rewrite Hg1, Hg2. unfold handleCreate_try.
  destruct (CryptoLib.generateEncryptionKey lib r) as [k ra] eqn:Ek.
  assert (k = fst (CryptoLib.generateEncryptionKey lib r)) as Hk
    by now rewrite Ek.
  destruct (CryptoLib.encryptText lib _ k ra) as [[e|err] rb].
  2:{ exists [], [ConsoleError err; ToastError (failure_message err)].
      split; [reflexivity|]. split; [now left | constructor]. }
  destruct (if Page.usePin st then _ else _) as [pinHash|err].
  2:{ exists [], [ConsoleError err; ToastError (failure_message err)].
      split; [reflexivity|]. split; [now left | constructor]. }
  destruct (Page.files st) as [|f fs] eqn:Ef.
  - destruct (createSecret _) as [id|err] eqn:Ec.
    + eexists [], [CreateSecretCall _; Navigate _ _; ToastSuccess _].
      split; [reflexivity|]. split; [now left|].
      rewrite Hk.
      pose proof (RequestAccepted lib st createSecret r _ id Ec) as H.
      rewrite Ef in H. exact H.
    + eexists [], [CreateSecretCall _; ConsoleError err;
                   ToastError (failure_message err)].
      split; [reflexivity|]. split; [now left|].
      apply (RequestRejected lib st createSecret r _ err Ec).
  - destruct (encryptFiles lib (f :: fs) k rb) as [ps rc].
    destruct (promise_all ps) as [l|err]; cbn [cbind].
    + destruct (createSecret _) as [id|err] eqn:Ec.
      * eexists [_], [CreateSecretCall _; Navigate _ _; ToastSuccess _].
        split; [reflexivity|]. split; [now right|].
        rewrite Hk.
      pose proof (RequestAccepted lib st createSecret r _ id Ec) as H.
      rewrite Ef in H. exact H.
      * eexists [_], [CreateSecretCall _; ConsoleError err;
                      ToastError (failure_message err)].
        split; [reflexivity|]. split; [now right|].
        apply (RequestRejected lib st createSecret r _ err Ec).
    + exists [ToastInfo (js "Encrypting files...")],
             [ConsoleError err; ToastError (failure_message err)].
      split; [reflexivity|]. split; [now right | constructor].
Qed.

Lemma creating_flags_app (a b : list effect) :
  creating_flags (a ++ b) = creating_flags a ++ creating_flags b.
Proof. unfold creating_flags. apply flat_map_app. Qed.

Lemma ending_flags lib st createSecret r tail :
  ending lib st createSecret r tail -> creating_flags tail = [].
Proof. now intros []. Qed.

Lemma info_silent (info : list effect) :
  info = [] \/ info = [ToastInfo (js "Encrypting files...")] ->
  creating_flags info = [] /\ requests info = [] /\ navigations info = []
  /\ (forall e, In e info -> e = ToastInfo (js "Encrypting files...")).
Proof.
  intros [-> | ->]; repeat split; try reflexivity.
  - intros e [].
  - intros e [<-|[]]. reflexivity.
Qed.

(** The projections of a run past the guards, from those of its ending. *)
Lemma shape_projections (info tail : list effect) :
  info = [] \/ info = [ToastInfo (js "Encrypting files...")] ->
  requests (SetIsCreating true :: info ++ tail ++ [SetIsCreating false])
  = requests tail
  /\ navigations (SetIsCreating true :: info ++ tail ++ [SetIsCreating false])
     = navigations tail
  /\ (forall e,
         In e (SetIsCreating true :: info ++ tail ++ [SetIsCreating false])
         <-> e = SetIsCreating true \/ In e info \/ In e tail
             \/ e = SetIsCreating false).
Proof.
  intros Hinfo. destruct (info_silent info Hinfo) as (_ & Hr & Hn & _).
  split; [|split].
  - change (requests (SetIsCreating true :: ?l)) with (requests l).
    rewrite !requests_app, Hr. cbn. now rewrite app_nil_r.
  - change (navigations (SetIsCreating true :: ?l)) with (navigations l).
    rewrite !navigations_app, Hn. cbn. now rewrite app_nil_r.
  - intros e. cbn [In]. rewrite !in_app_iff. cbn [In]. intuition congruence.
Qed.

Lemma guards_pass_dec (st : Page.t) : guards_pass st \/ ~ guards_pass st.
Proof.
  rewrite guards_pass_tests.
  destruct (trims_to_empty _ && _); [right; intros [H _]; discriminate|].
  destruct (Page.usePin st && _); [right; intros [_ H]; discriminate|].
  now left.
Qed.

(** A run stopped by a guard: one error toast, the random source untouched. *)
Lemma handleCreate_stopped (lib : CryptoLib.t) (st : Page.t)
    (createSecret : Payload.t -> completion jsstring) (r : Rng) :
  ~ guards_pass st ->
  exists msg, handleCreate lib st createSecret r = ([ToastError msg], r).
Proof.
  intros Hg. rewrite guards_pass_tests in Hg. unfold handleCreate.
  destruct (trims_to_empty _ && _); [eexists; reflexivity|].
  destruct (Page.usePin st && _); [eexists; reflexivity|].
  exfalso. apply Hg. now split.
Qed.

(** * The busy flag *)

(** X4. [setIsCreating] brackets every run that passes the two guards: the
    first effect sets the flag, the last one clears it, whatever happened
    in between (the [finally] block), and nothing in between touches it.
    A run stopped by a guard shows one error toast and does nothing else:
    no flag, no request, no navigation, no random byte drawn. *)
Theorem handleCreate_busy_flag (lib : CryptoLib.t) (st : Page.t)
    (createSecret : Payload.t -> completion jsstring) (r : Rng) :
  (guards_pass st ->
   exists mid,
     fst (handleCreate lib st createSecret r)
     = SetIsCreating true :: mid ++ [SetIsCreating false]
     /\ creating_flags mid = [])
  /\ (~ guards_pass st ->
      exists msg,
        handleCreate lib st createSecret r = ([ToastError msg], r)).
Proof.
  split.
  - intros Hg.
    destruct (handleCreate_shape lib st createSecret r Hg)
      as (info & tail & E & Hinfo & Hend).
    exists (info ++ tail). rewrite E, <- app_assoc. split; [reflexivity|].
    rewrite creating_flags_app, (ending_flags _ _ _ _ _ Hend).
    now destruct (info_silent info Hinfo) as (-> & _).
  - apply handleCreate_stopped.
Qed.

Lemma handleCreate_busy_flag_witness :
  (exists mid,
      fst (handleCreate crypto Sample.page Example.offline Sample.rng)
      = SetIsCreating true :: mid ++ [SetIsCreating false]
      /\ creating_flags mid = [])
  /\ (exists msg,
         handleCreate crypto Example.short_pin Sample.accept Sample.rng
         = ([ToastError msg], Sample.rng)).
Proof.
  split.
  - apply (proj1 (handleCreate_busy_flag crypto Sample.page Example.offline
                    Sample.rng)).
    split; [right; discriminate | intros _; simpl; lia].
  - apply (proj2 (handleCreate_busy_flag crypto Example.short_pin
                    Sample.accept Sample.rng)).
    intros [_ H]. specialize (H eq_refl). simpl in H. lia.
Defined.

(** * Navigation *)

(** X5. The page navigates to [/share] only after the storage boundary
    accepted the one request of the run, and then exactly once: the
    router state carries the identifier the boundary returned, the key
    that was generated, the expiry and one-time flag that were sent, and
    the PIN and file indications of the page; the success toast is shown
    and no error toast.  Conversely an accepted request always leads to
    the navigation. *)
Theorem handleCreate_navigates_iff_accepted (lib : CryptoLib.t) (st : Page.t)
    (createSecret : Payload.t -> completion jsstring) (r : Rng) :
  let effs := fst (handleCreate lib st createSecret r) in
  (forall s, In s (navigations effs) ->
     exists p,
       requests effs = [p]
       /\ createSecret p = Return (ShareState.secretId s)
       /\ navigations effs = [s]
       /\ ShareState.encryptionKey s
          = fst (CryptoLib.generateEncryptionKey lib r)
       /\ ShareState.expiryMinutes s = Payload.expiryMinutes p
       /\ ShareState.oneTimeView s = Payload.oneTimeView p
       /\ ShareState.hasPin s = Page.usePin st
       /\ ShareState.fileCount s = length (Page.files st)
       /\ (ShareState.hasFiles s = true <-> Page.files st <> [])
       /\ In (ToastSuccess (js "Secret encrypted and stored securely")) effs
       /\ (forall msg, ~ In (ToastError msg) effs))
  /\ (forall p id, In p (requests effs) -> createSecret p = Return id ->
        exists s, navigations effs = [s] /\ ShareState.secretId s = id).
Proof.
  intros effs. subst effs.
  destruct (guards_pass_dec st) as [Hg|Hg].
  2:{ destruct (handleCreate_stopped lib st createSecret r Hg)
        as (msg & E).
      rewrite E. cbn. split; [intros s []|intros p id []]. }
  destruct (handleCreate_shape lib st createSecret r Hg)
    as (info & tail & E & Hinfo & Hend).
  rewrite E.
  destruct (shape_projections info tail Hinfo) as (-> & -> & Hin).
  destruct (info_silent info Hinfo) as (_ & _ & _ & Hi).
  split.
  - intros s Hs. destruct Hend as [e|p e Hp|p id Hp]; cbn in Hs;
      try contradiction.
    destruct Hs as [<-|[]]. exists p. cbn.
    repeat split; try reflexivity; try assumption.
    + destruct (Page.files st); cbn; [discriminate | intros _; discriminate].
    + destruct (Page.files st); cbn; [congruence | reflexivity].
    + apply Hin. right; right; left. cbn. tauto.
    + intros msg Hm. apply Hin in Hm as [Hm|[Hm|[Hm|Hm]]]; try discriminate.
      * apply Hi in Hm. discriminate.
      * cbn in Hm. intuition discriminate.
  - intros p id Hp Hc. destruct Hend as [e|p' e Hp'|p' id' Hp']; cbn in Hp;
      try contradiction; destruct Hp as [->|[]].
    + congruence.
    + eexists. split; [reflexivity|]. cbn. congruence.
Qed.

Lemma handleCreate_navigates_iff_accepted_witness :
  exists s p,
    navigations (fst (handleCreate crypto Sample.page Sample.accept Sample.rng))
    = [s]
    /\ requests (fst (handleCreate crypto Sample.page Sample.accept Sample.rng))
       = [p]
    /\ ShareState.secretId s = js "5ec2e7"
    /\ ShareState.fileCount s = 1%nat.
Proof.
  destruct (navigations (fst (handleCreate crypto Sample.page Sample.accept
                                Sample.rng))) as [|s l] eqn:E;
    [vm_compute in E; discriminate|].
  assert (In s (navigations (fst (handleCreate crypto Sample.page Sample.accept
                                    Sample.rng)))) as Hin
    by (rewrite E; now left).
  destruct (proj1 (handleCreate_navigates_iff_accepted crypto Sample.page
                     Sample.accept Sample.rng) s Hin)
    as (p & Hr & Hc & Hn & _ & _ & _ & _ & Hf & _).
  exists s, p. rewrite <- E. repeat split.
  - exact Hn.
  - exact Hr.
  - unfold Sample.accept in Hc. congruence.
  - exact Hf.
Defined.

(** * Failure *)

(** X6. A run that passed the guards and did not navigate failed: the error
    is logged, the one error toast shown is chosen by the error (the
    size message for a rejection with status 413, the generic message
    otherwise), and no success toast appears.  If a request was sent, the
    logged error is the rejection of that request. *)
Theorem handleCreate_failure_reported (lib : CryptoLib.t) (st : Page.t)
    (createSecret : Payload.t -> completion jsstring) (r : Rng) :
  let effs := fst (handleCreate lib st createSecret r) in
  guards_pass st ->
  navigations effs = [] ->
  exists e,
    In (ConsoleError e) effs
    /\ (forall msg, In (ToastError msg) effs <-> msg = failure_message e)
    /\ (forall msg, ~ In (ToastSuccess msg) effs)
    /\ (forall p, In p (requests effs) -> createSecret p = Throw e)
    /\ (e = HttpError 413 ->
        In (ToastError (js "Files too large. Please reduce total size.")) effs)
    /\ (e <> HttpError 413 ->
        In (ToastError (js "Failed to create secret. Please try again.")) effs).
Proof.
  intros effs Hg. subst effs.
  destruct (handleCreate_shape lib st createSecret r Hg)
    as (info & tail & E & Hinfo & Hend).
  rewrite E.
  destruct (shape_projections info tail Hinfo) as (-> & -> & Hin).
  destruct (info_silent info Hinfo) as (_ & _ & _ & Hi).
  intros Hnav.
  assert (exists e pre,
             tail = pre ++ [ConsoleError e; ToastError (failure_message e)]
             /\ (pre = [] \/ exists p, pre = [CreateSecretCall p]
                                       /\ createSecret p = Throw e))
    as (e & pre & -> & Hpre).
  { destruct Hend as [e|p e Hp|p id Hp].
    - exists e, []. split; [reflexivity | now left].
    - exists e, [CreateSecretCall p]. split; [reflexivity|].
      right. now exists p.
    - discriminate Hnav. }
  assert (forall x, In x pre -> exists p, x = CreateSecretCall p
                                          /\ createSecret p = Throw e) as Hx.
  { destruct Hpre as [-> | (p & -> & Hp)]; [intros x []|].
    intros x [<-|[]]. now exists p. }
  assert (In (ToastError (failure_message e))
             (SetIsCreating true
              :: info ++ (pre ++ [ConsoleError e; ToastError (failure_message e)])
                 ++ [SetIsCreating false])) as Htoast.
  { apply Hin. right; right; left. apply in_or_app. right. cbn. tauto. }
  exists e. repeat split.
  - apply Hin. right; right; left. apply in_or_app. right. now left.
  - intros Hm. apply Hin in Hm as [Hm|[Hm|[Hm|Hm]]]; try discriminate.
    + apply Hi in Hm. discriminate.
    + apply in_app_or in Hm as [Hm|Hm].
      * apply Hx in Hm as (p & Hm & _). discriminate.
      * cbn in Hm. destruct Hm as [Hm|[Hm|[]]]; congruence.
  - intros ->. exact Htoast.
  - intros msg Hm. apply Hin in Hm as [Hm|[Hm|[Hm|Hm]]]; try discriminate.
    + apply Hi in Hm. discriminate.
    + apply in_app_or in Hm as [Hm|Hm].
      * apply Hx in Hm as (p & Hm & _). discriminate.
      * cbn in Hm. destruct Hm as [Hm|[Hm|[]]]; discriminate.
  - intros p Hp. destruct Hpre as [-> | (p' & -> & Hp')]; cbn in Hp.
    + destruct Hp.
    + destruct Hp as [<-|[]]. exact Hp'.
  - intros ->. exact Htoast.
  - intros He. replace (js "Failed to create secret. Please try again.")
      with (failure_message e); [exact Htoast|].
    destruct e as [| | | |status|]; try reflexivity.
    unfold failure_message.
    destruct status as [|[q|q|]]; try reflexivity;
      repeat (destruct q as [q|q|]; try reflexivity).
    now contradict He.
Qed.

Lemma handleCreate_failure_reported_witness :
  In (ToastError (js "Files too large. Please reduce total size."))
     (fst (handleCreate crypto Sample.page Example.too_large Sample.rng))
  /\ forall msg,
      ~ In (ToastSuccess msg)
           (fst (handleCreate crypto Sample.page Example.too_large Sample.rng)).
Proof.
  assert (guards_pass Sample.page) as Hg
    by (split; [right; discriminate | intros _; simpl; lia]).
  assert (navigations (fst (handleCreate crypto Sample.page Example.too_large
                              Sample.rng)) = []) as Hn
    by (vm_compute; reflexivity).
  destruct (handleCreate_failure_reported crypto Sample.page Example.too_large
              Sample.rng Hg Hn) as (e & _ & _ & Hs & Hr & H413 & _).
  split; [|exact Hs].
  apply H413.
  destruct (requests (fst (handleCreate crypto Sample.page Example.too_large
                             Sample.rng))) as [|p l] eqn:E;
    [vm_compute in E; discriminate|].
  specialize (Hr p (or_introl eq_refl)).
  unfold Example.too_large in Hr. congruence.
Defined.

(** * The base64 helpers of [lib/crypto.js] *)

Lemma pad_length_4 (chars : jsstring) (a b c d : N) :
  Base64.pad (a :: b :: c :: d :: chars) = a :: b :: c :: d :: Base64.pad chars.
Proof.
  unfold Base64.pad. cbn [length app].
  replace (S (S (S (S (length chars))))) with (length chars + 1 * 4)%nat by lia.
  now rewrite Nat.Div0.mod_add.
Qed.

(** Four characters for every three bytes, the last group padded. *)
Lemma stringify_length (bytes : list byte) :
  length (Base64.stringify bytes) = (4 * ((length bytes + 2) / 3))%nat.
Proof.
  induction bytes as [| | |a b c rest IH] using list_ind_3;
    try reflexivity.
  unfold Base64.stringify in *. cbn [Base64.body]. rewrite pad_length_4.
  cbn [length]. rewrite IH.
  replace (S (S (S (length rest))) + 2)%nat
    with (1 * 3 + (length rest + 2))%nat by lia.
  rewrite Nat.div_add_l by discriminate. lia.
Qed.

Lemma remove_padding_keeps (s : jsstring) (c : N) :
  In c s -> c <> 61 -> In c (remove_padding s).
Proof.
  intros Hin Hc. unfold remove_padding.
  destruct (length s mod 4 =? 0)%nat; [|exact Hin].
  apply in_rev in Hin.
  destruct (rev s) as [|a [|b r]] eqn:E.
  - destruct Hin.
  - destruct Hin as [->|[]]. apply N.eqb_neq in Hc. rewrite Hc.
    apply in_rev. rewrite E. now left.
  - destruct (N.eqb_spec a 61) as [->|Ha].
    + destruct Hin as [Hin|Hin]; [congruence|].
      destruct (N.eqb_spec b 61) as [->|Hb].
      * destruct Hin as [Hin|Hin]; [congruence|]. now apply in_rev in Hin.
      * apply -> in_rev. exact Hin.
    + apply in_rev. rewrite E. exact Hin.
Qed.

(** X7. [arrayBufferToBase64] cannot fail: the binary string it hands to
    [btoa] holds bytes only.  Its result is ASCII, has four characters
    for every started group of three bytes, and [base64ToArrayBuffer]
    reads the buffer back from it; so two buffers with the same base64
    text are equal. *)
Theorem arrayBufferToBase64_total (buffer : list byte) :
  (exists s,
      arrayBufferToBase64 buffer = Return s
      /\ length s = (4 * ((length buffer + 2) / 3))%nat
      /\ Forall (fun c => c < 128) s
      /\ base64ToArrayBuffer s = Return buffer)
  /\ (forall other,
         arrayBufferToBase64 other = arrayBufferToBase64 buffer ->
         other = buffer).
Proof.
  split.
  - exists (Base64.stringify buffer). split; [apply arrayBufferToBase64_spec|].
    split; [apply stringify_length|].
    split; [apply stringify_ascii_units | apply base64ToArrayBuffer_stringify].
  - intros other. rewrite !arrayBufferToBase64_spec. intros [= H].
    rewrite <- (parse_stringify other), H. apply parse_stringify.
Qed.

Lemma arrayBufferToBase64_total_witness :
  arrayBufferToBase64 [Byte.x68; Byte.x69] = Return (js "aGk=")
  /\ forall other,
      arrayBufferToBase64 other = Return (js "aGk=") ->
      other = [Byte.x68; Byte.x69].
Proof.
  destruct (arrayBufferToBase64_total [Byte.x68; Byte.x69])
    as ((s & Hs & _) & Hinj).
  split; [reflexivity|].
  intros other H. apply Hinj. rewrite H. reflexivity.
Defined.

Lemma foreign_rejected (base64 : jsstring) (c : N) :
  In c base64 -> foreign c ->
  base64ToArrayBuffer base64 = Throw InvalidCharacterError.
Proof.
  intros Hin (Hrev & Hpad & Hws).
  unfold base64ToArrayBuffer, atob.
  set (d := remove_padding _).
  assert (In c d) as Hd.
  { apply remove_padding_keeps; [|exact Hpad].
    apply filter_In. split; [exact Hin | now rewrite Hws]. }
  destruct (length d mod 4 =? 1)%nat; [reflexivity|].
  destruct (forallb _ d) eqn:E; [|reflexivity].
  rewrite forallb_forall in E. specialize (E c Hd). now rewrite Hrev in E.
Qed.

(** X8. [base64ToArrayBuffer] raises [InvalidCharacterError] on every string
    that holds a unit which is neither of the base64 alphabet, nor the
    pad, nor ASCII white space, wherever the unit stands. *)
Theorem base64ToArrayBuffer_rejects_foreign (base64 : jsstring) (c : N) :
  In c base64 -> foreign c ->
  base64ToArrayBuffer base64 = Throw InvalidCharacterError.
Proof. apply foreign_rejected. Qed.

Lemma base64ToArrayBuffer_rejects_foreign_witness :
  base64ToArrayBuffer (js "aGk_") = Throw InvalidCharacterError.
Proof.
  apply (base64ToArrayBuffer_rejects_foreign (js "aGk_") 95).
  - simpl. tauto.
  - repeat split. discriminate.
Defined.

(** * [encryptText] and [encryptFile]: what comes out *)

Lemma pkcs7_pad_length (data : list byte) :
  length (CryptoJS.pkcs7_pad data) = (16 * (length data / 16 + 1))%nat.
Proof.
  destruct (pkcs7_pad_shape data) as (q & k & Hk & Hlen & ->).
  rewrite length_app, repeat_length, Hlen.
  replace (length data / 16)%nat with q; [lia|].
  apply (Nat.div_unique _ 16 q (16 - k)); lia.
Qed.

Lemma AES_encrypt_length (message : jsstring) (data key iv : list byte) :
  Utf8.parse message = Return data ->
  exists encrypted,
    CryptoJS.AES_encrypt message key iv = Return encrypted
    /\ length encrypted = (16 * (length data / 16 + 1))%nat.
Proof.
  intros Hp. unfold CryptoJS.AES_encrypt. rewrite Hp. cbn [cbind].
  eexists. split; [reflexivity|].
  pose proof (pkcs7_pad_length data) as Hl. rewrite Hl.
  replace (16 * (length data / 16 + 1) / 16)%nat
    with (length data / 16 + 1)%nat
    by (rewrite Nat.mul_comm, Nat.div_mul; [reflexivity | discriminate]).
  apply cbc_encrypt_length. exact Hl.
Qed.

(** X9. [encryptText] draws the 16 bytes of its IV before anything else, so
    the random source is advanced by 16 whether or not the encryption
    succeeds.  On a text that UTF-8 encodes to [n] bytes the returned IV
    is the hex form of those 16 bytes, and the ciphertext is the base64
    form of [16 * (n / 16 + 1)] bytes: its length shows the length of the
    text up to a block. *)
Theorem encryptText_outcome (plaintext key : jsstring) (r : Rng) :
  snd (encryptText plaintext key r) = advance 16 r
  /\ forall utf8,
      Utf8.parse plaintext = Return utf8 ->
      exists e,
        fst (encryptText plaintext key r) = Return e
        /\ EncryptedText.iv e = hexOfArray (slice 0 16 r)
        /\ length (Base64.parse (EncryptedText.ciphertext e))
           = (16 * (length utf8 / 16 + 1))%nat
        /\ length (EncryptedText.ciphertext e)
           = (4 * ((16 * (length utf8 / 16 + 1) + 2) / 3))%nat.
Proof.
  rewrite encryptText_unfold. split; [reflexivity|].
  intros utf8 Hp. cbn [fst].
  destruct (AES_encrypt_length plaintext utf8 (Hex.parse key)
              (Hex.parse (fst (generateIV r))) Hp) as (enc & -> & Hl).
  cbn [cbind]. eexists. split; [reflexivity|].
  cbn [EncryptedText.iv EncryptedText.ciphertext].
  split; [reflexivity|].
  rewrite parse_stringify, stringify_length, Hl. split; reflexivity.
Qed.

Lemma encryptText_outcome_witness :
  exists e,
    fst (encryptText (js "sixteen byte txt") Sample.key Sample.zero_rng)
    = Return e
    /\ EncryptedText.iv e = js "00000000000000000000000000000000"
    /\ length (Base64.parse (EncryptedText.ciphertext e)) = 32%nat
    /\ length (EncryptedText.ciphertext e) = 44%nat.
Proof.
  apply (proj2 (encryptText_outcome (js "sixteen byte txt") Sample.key
                  Sample.zero_rng)
           (map byte_of_N (js "sixteen byte txt"))).
  vm_compute. reflexivity.
Defined.

(** X10. [encryptFile] on a file that cannot be read rejects with the
    reader's error and draws no random byte.  On a readable file it is
    [encryptText] applied to the base64 text of the contents, with the
    same key and the same 16 random bytes, and the metadata is taken
    from the file object: its name, its declared size, and its type or
    [application/octet-stream] when the type is empty. *)
Theorem encryptFile_outcome (file : File.t) (key : jsstring) (r : Rng) :
  (forall err, File.contents file = Throw err ->
     encryptFile file key r = (Throw err, r))
  /\ (forall buffer, File.contents file = Return buffer ->
        exists enc t,
          encryptFile file key r = (Return enc, advance 16 r)
          /\ encryptText (Base64.stringify buffer) key r
             = (Return t, advance 16 r)
          /\ EncryptedFile.encryptedData enc = EncryptedText.ciphertext t
          /\ EncryptedFile.iv enc = EncryptedText.iv t
          /\ EncryptedFile.filename enc = File.name file
          /\ EncryptedFile.fileSize enc = File.size file
          /\ EncryptedFile.fileType enc <> []
          /\ (File.type file <> [] ->
              EncryptedFile.fileType enc = File.type file)
          /\ (File.type file = [] ->
              EncryptedFile.fileType enc = js "application/octet-stream")).
Proof.
  split.
  - intros err Hc. unfold encryptFile, readFileAsArrayBuffer.
    now rewrite Hc.
  - intros buffer Hc.
    rewrite (encryptFile_unfold file buffer key r Hc), encryptText_unfold.
    pose proof (parse_ascii _ (stringify_ascii_units buffer)) as Hp.
    destruct (AES_encrypt_length _ _ (Hex.parse key)
                (Hex.parse (fst (generateIV r))) Hp) as (encrypted & -> & _).
    cbn [cbind]. eexists _, _. split; [reflexivity|].
    split; [reflexivity|].
    cbn [EncryptedFile.encryptedData EncryptedFile.iv EncryptedFile.filename
         EncryptedFile.fileSize EncryptedFile.fileType
         EncryptedText.ciphertext EncryptedText.iv].
    repeat split.
    + destruct (File.type file); discriminate.
    + destruct (File.type file); [congruence | reflexivity].
    + now intros ->.
Qed.

Lemma encryptFile_outcome_witness :
  encryptFile Example.unreadable Sample.key Sample.rng
  = (Throw FileReadError, Sample.rng)
  /\ exists enc,
      fst (encryptFile Sample.small_file Sample.key Sample.rng) = Return enc
      /\ EncryptedFile.fileType enc = js "application/octet-stream".
Proof.
  destruct (encryptFile_outcome Example.unreadable Sample.key Sample.rng)
    as [Hthrow _].
  destruct (encryptFile_outcome Sample.small_file Sample.key Sample.rng)
    as [_ Hret].
  split; [apply Hthrow; reflexivity|].
  destruct (Hret [Byte.x00; Byte.xff; Byte.x80] eq_refl)
    as (enc & t & E & _ & _ & _ & _ & _ & _ & _ & Hty).
  exists enc. rewrite E. split; [reflexivity|]. apply Hty. reflexivity.
Defined.

(** * Opening a text ciphertext as a file *)



(** * [handleCreate] with the functions of [lib/crypto.js] *)

Lemma encryptText_returns (plaintext key : jsstring) (r : Rng) :
  Utf8.well_formed plaintext = true ->
  exists e,
    encryptText plaintext key r = (Return e, advance 16 r)
    /\ EncryptedText.iv e = hexOfArray (slice 0 16 r).
Proof.
  intros Hwf. destruct (parse_well_formed plaintext Hwf) as [data Hp].
  rewrite encryptText_unfold.
  destruct (AES_encrypt_length plaintext data (Hex.parse key)
              (Hex.parse (fst (generateIV r))) Hp) as (enc & -> & _).
  cbn [cbind]. eexists. split; reflexivity.
Qed.

Lemma encryptText_returned (plaintext key : jsstring) (r : Rng)
    (e : EncryptedText.t) :
  fst (encryptText plaintext key r) = Return e ->
  Utf8.well_formed plaintext = true.
Proof.
  intros He. destruct (Utf8.well_formed plaintext) eqn:Hwf; [reflexivity|].
  rewrite (encryptText_ill_formed plaintext key r Hwf) in He. discriminate.
Qed.

Lemma hashPin_returns (pin : jsstring) :
  Utf8.well_formed pin = true <-> exists h, hashPin pin = Return h.
Proof.
  rewrite hashPin_unfold. split.
  - intros Hwf. destruct (parse_well_formed pin Hwf) as [data ->].
    eexists. reflexivity.
  - intros [h Hh]. destruct (Utf8.well_formed pin) eqn:Hwf; [reflexivity|].
    rewrite (parse_ill_formed pin Hwf) in Hh. discriminate.
Qed.

Lemma encryptFile_readable (file : File.t) (key : jsstring) (r : Rng) :
  readable file ->
  exists enc, encryptFile file key r = (Return enc, advance 16 r).
Proof.
  intros [buffer Hc]. rewrite (encryptFile_unfold file buffer key r Hc).
  pose proof (parse_ascii _ (stringify_ascii_units buffer)) as Hp.
  destruct (AES_encrypt_length _ _ (Hex.parse key)
              (Hex.parse (fst (generateIV r))) Hp) as (encrypted & -> & _).
  cbn [cbind]. eexists. reflexivity.
Qed.

Lemma encryptFile_returned (file : File.t) (key : jsstring) (r : Rng)
    (enc : EncryptedFile.t) :
  fst (encryptFile file key r) = Return enc -> readable file.
Proof.
  unfold readable, encryptFile, readFileAsArrayBuffer.
  destruct (File.contents file) as [buffer|err]; [now exists buffer|].
  discriminate.
Qed.

(** With every file readable, [Promise.all] resolves, one entry for each
    file, after 16 random bytes were drawn for each. *)
Lemma encryptFiles_readable (files : list File.t) (key : jsstring) :
  Forall readable files ->
  forall r, exists l,
    promise_all (fst (encryptFiles crypto files key r)) = Return l
    /\ length l = length files
    /\ forall i, snd (encryptFiles crypto files key r) i
                 = r (16 * length files + i)%nat.
Proof.
  induction 1 as [|file rest Hf _ IH]; intros r.
  - exists []. repeat split.
  - cbn [encryptFiles]. change (CryptoLib.encryptFile crypto) with encryptFile.
    destruct (encryptFile_readable file key r Hf) as (enc & ->).
    destruct (IH (advance 16 r)) as (l & Hl & Hlen & Hr).
    destruct (encryptFiles crypto rest key (advance 16 r)) as [ps r'].
    cbn [fst snd] in *. cbn [promise_all cbind]. rewrite Hl. cbn [cbind].
    eexists. split; [reflexivity|]. split; [cbn [length]; now rewrite Hlen|].
    intros i. rewrite Hr. unfold advance. f_equal. cbn [length]. lia.
Qed.

Lemma encryptFiles_resolved (files : list File.t) (key : jsstring) (r : Rng)
    (l : list FilePayload.t) :
  promise_all (fst (encryptFiles crypto files key r)) = Return l ->
  Forall readable files.
Proof.
  intros H. apply encryptFiles_results in H.
  induction H as [|file fp files l (e & r' & He & _) _ IH]; constructor.
  - exact (encryptFile_returned file key r' e He).
  - exact IH.
Qed.

(** The run of a ready page, step by step. *)
Lemma handleCreate_ready (st : Page.t)
    (createSecret : Payload.t -> completion jsstring) (r : Rng) :
  ready st ->
  exists p r',
    requests (fst (handleCreate crypto st createSecret r)) = [p]
    /\ Payload.iv p = hexOfArray (slice 32 16 r)
    /\ snd (handleCreate crypto st createSecret r) = r'
    /\ forall i, r' i = r (48 + 16 * length (Page.files st) + i)%nat.
Proof.
  intros (Hg & Hwf & Hpin & Hfiles).
  apply guards_pass_tests in Hg as [Hg1 Hg2].
  unfold handleCreate. rewrite Hg1, Hg2. unfold handleCreate_try.
  cbn [crypto CryptoLib.generateEncryptionKey CryptoLib.encryptText
       CryptoLib.hashPin].
  change (generateEncryptionKey r)
    with (hexOfArray (slice 0 32 r), advance 32 r).
  cbv iota beta.
  change (match Page.secretText st with [] => js " " | text => text end)
    with (text_or_space st).
  destruct (encryptText_returns (text_or_space st) (hexOfArray (slice 0 32 r))
              (advance 32 r) Hwf) as (e & -> & Hiv).
  assert (exists pinHash,
             (if Page.usePin st
              then do h <- hashPin (Page.pin st); Return (Some h)
              else Return None) = Return pinHash) as (pinHash & ->).
  { destruct (Page.usePin st); [|now eexists].
    destruct (proj1 (hashPin_returns (Page.pin st)) (Hpin eq_refl)) as (h & ->).
    now eexists. }
  assert (Hslice :
            EncryptedText.iv e = hexOfArray (slice 32 16 r)).
  { rewrite Hiv. reflexivity. }
  destruct (Page.files st) as [|f fs] eqn:Ef.
  - destruct (createSecret _) as [id|err]; cbn [fst snd requests flat_map app];
      eexists _, _; (split; [reflexivity|]); cbn [Payload.iv];
      (split; [exact Hslice|]); (split; [reflexivity|]);
      intros i; unfold advance; f_equal; cbn [length]; lia.
  - rewrite <- Ef in *. 
    destruct (encryptFiles_readable (Page.files st) (hexOfArray (slice 0 32 r))
                Hfiles (advance 16 (advance 32 r))) as (l & Hl & _ & Hr).
    destruct (encryptFiles crypto (Page.files st) _ _) as [ps r'].
    cbn [fst snd] in Hl, Hr. rewrite Hl. cbn [cbind].
    destruct (createSecret _) as [id|err]; cbn [fst snd requests flat_map app];
      eexists _, _; (split; [reflexivity|]); cbn [Payload.iv];
      (split; [exact Hslice|]); (split; [reflexivity|]);
      intros i; rewrite Hr; unfold advance; f_equal; lia.
Qed.

Lemma navigation_key (lib : CryptoLib.t) (st : Page.t)
    (createSecret : Payload.t -> completion jsstring) (r : Rng)
    (s : ShareState.t) :
  In s (navigations (fst (handleCreate lib st createSecret r))) ->
  ShareState.encryptionKey s = fst (CryptoLib.generateEncryptionKey lib r).
Proof.
  destruct (guards_pass_dec st) as [Hg|Hg].
  2:{ destruct (handleCreate_stopped lib st createSecret r Hg) as (msg & ->).
      intros []. }
  destruct (handleCreate_shape lib st createSecret r Hg)
    as (info & tail & -> & Hinfo & Hend).
  destruct (shape_projections info tail Hinfo) as (_ & -> & _).
  destruct Hend; cbn; try contradiction. now intros [<-|[]].
Qed.

Lemma sample_page_ready : ready Sample.page.
Proof.
  split; [split; [right; discriminate | intros _; simpl; lia]|].
  split; [vm_compute; reflexivity|].
  split; [intros _; vm_compute; reflexivity|].
  constructor; [|constructor]. eexists. reflexivity.
Defined.

(** * When the request is sent *)

(** X12. [handleCreate] sends its request exactly when the page is ready:
    both guards pass, the text (or the single space standing for an empty
    text) and the PIN in use have no unpaired surrogate, and every
    attached file can be read.  What the storage boundary then answers
    does not matter to the sending. *)
Theorem handleCreate_sends_iff_ready (st : Page.t)
    (createSecret : Payload.t -> completion jsstring) (r : Rng) :
  ready st
  <-> exists p, requests (fst (handleCreate crypto st createSecret r)) = [p].
Proof.
  split.
  - intros H. destruct (handleCreate_ready st createSecret r H)
      as (p & _ & Hp & _). now exists p.
  - intros (p & Hp).
    destruct (guards_pass_dec st) as [Hg|Hg].
    2:{ destruct (handleCreate_stopped crypto st createSecret r Hg)
          as (msg & E). rewrite E in Hp. discriminate. }
    split; [exact Hg|].
    destruct (handleCreate_requests crypto st createSecret r) as [E|E];
      [rewrite E in Hp; discriminate|].
    rewrite E in Hp.
    destruct (handleCreate_try_requests crypto st createSecret r)
      as [E'|(e & pinHash & fps & He & Hpin & Hfiles & _)];
      [rewrite E' in Hp; discriminate|].
    split; [exact (encryptText_returned _ _ _ _ He)|]. split.
    + intros Hu. rewrite Hu in Hpin. destruct Hpin as (h & Hh & _).
      apply hashPin_returns. now exists h.
    + destruct (Page.files st) as [|f fs] eqn:Ef; [constructor|].
      destruct Hfiles as (l & Hl & _).
      exact (encryptFiles_resolved _ _ _ _ Hl).
Qed.

Lemma handleCreate_sends_iff_ready_witness :
  (exists p,
      requests (fst (handleCreate crypto Sample.page Example.offline Sample.rng))
      = [p])
  /\ ~ ready Example.broken_text.
Proof.
  split.
  - apply (proj1 (handleCreate_sends_iff_ready Sample.page Example.offline
                    Sample.rng)).
    exact sample_page_ready.
  - intros H.
    apply (proj1 (handleCreate_sends_iff_ready Example.broken_text
                    Sample.accept Sample.rng)) in H.
    destruct H as (p & Hp). vm_compute in Hp. discriminate.
Defined.

(** * Where the random bytes go *)

(** X13. On a ready page the run draws [48 + 16 * n] random bytes for [n]
    files: the first 32 are the key, which appears in the router state
    and nowhere in the request, the next 16 are the IV of the text, and
    16 more are drawn for each file.  Key and text IV are a valid key and
    a valid IV whatever the source delivers. *)
Theorem handleCreate_randomness (st : Page.t)
    (createSecret : Payload.t -> completion jsstring) (r : Rng) :
  ready st ->
  (exists p,
      requests (fst (handleCreate crypto st createSecret r)) = [p]
      /\ Payload.iv p = hexOfArray (slice 32 16 r)
      /\ valid_iv (Payload.iv p))
  /\ (forall s,
         In s (navigations (fst (handleCreate crypto st createSecret r))) ->
         ShareState.encryptionKey s = hexOfArray (slice 0 32 r)
         /\ valid_key (ShareState.encryptionKey s))
  /\ (forall i,
         snd (handleCreate crypto st createSecret r) i
         = r (48 + 16 * length (Page.files st) + i)%nat).
Proof.
  intros H.
  destruct (handleCreate_ready st createSecret r H)
    as (p & r' & Hp & Hiv & <- & Hr).
  split; [|split].
  - exists p. split; [exact Hp|]. split; [exact Hiv|]. rewrite Hiv.
    exact (proj1 (generateIV_spec (advance 32 r))).
  - intros s Hs. rewrite (navigation_key crypto st createSecret r s Hs).
    split; [reflexivity|]. exact (proj1 (generateEncryptionKey_spec r)).
  - exact Hr.
Qed.

Lemma handleCreate_randomness_witness :
  (exists p,
      requests (fst (handleCreate crypto Sample.page Sample.accept Sample.rng))
      = [p]
      /\ Payload.iv p = hexOfArray (slice 32 16 Sample.rng))
  /\ snd (handleCreate crypto Sample.page Sample.accept Sample.rng) 0%nat
     = Sample.rng 64%nat.
Proof.
  destruct (handleCreate_randomness Sample.page Sample.accept Sample.rng
              sample_page_ready) as ((p & Hp & Hiv & _) & _ & Hr).
  split; [exists p; split; [exact Hp | exact Hiv]|].
  exact (Hr 0%nat).
Defined.

(** * The expiry sent *)

(** X14. With the expiry selector on one of its four options, the request
    carries that number of minutes, never [NaN]: 10, 60, 360 or 1440. *)
Theorem expiry_option_is_sent (st : Page.t)
    (createSecret : Payload.t -> completion jsstring) (r : Rng)
    (p : Payload.t) :
  In (Page.expiryMinutes st) expiryOptions ->
  In p (requests (fst (handleCreate crypto st createSecret r))) ->
  exists minutes,
    Payload.expiryMinutes p = Some minutes
    /\ In minutes [10; 60; 360; 1440]
    /\ toString10 minutes = Page.expiryMinutes st.
Proof.
  intros Hopt Hp.
  destruct (handleCreate_request_fields st createSecret r p Hp)
    as (_ & _ & _ & -> & _).
  destruct Hopt as [<-|[<-|[<-|[<-|[]]]]]; eexists;
    (split; [vm_compute; reflexivity|]); (split; [|reflexivity]);
    cbn [In]; tauto.
Qed.

Lemma expiry_option_is_sent_witness :
  exists p minutes,
    requests (fst (handleCreate crypto Sample.page Sample.accept Sample.rng))
    = [p]
    /\ Payload.expiryMinutes p = Some minutes
    /\ In minutes [10; 60; 360; 1440]
    /\ toString10 minutes = js "10".
Proof.
  destruct (requests (fst (handleCreate crypto Sample.page Sample.accept
                             Sample.rng))) as [|p l] eqn:E;
    [vm_compute in E; discriminate|].
  assert (l = []) as ->.
  { destruct (handleCreate_request_fields Sample.page Sample.accept Sample.rng p)
      as (H & _); [rewrite E; now left|]. congruence. }
  destruct (expiry_option_is_sent Sample.page Sample.accept Sample.rng p)
    as (minutes & Hm & Hin & Hs).
  - simpl. tauto.
  - rewrite E. now left.
  - exists p, minutes. repeat split; assumption.
Defined.

(** * What the page displays *)

Section Decimal.

Let digit (c : N) : bool := (48 <=? c) && (c <=? 57).
Let shift (acc c : N) : N := 10 * acc + (c - 48).

Lemma value_from (s : jsstring) (a : N) :
  fold_left shift s a = a * 10 ^ N.of_nat (length s) + fold_left shift s 0.
Proof.
  revert a. induction s as [|c s IH]; intros a.
  - cbn. lia.
  - cbn [fold_left length]. rewrite IH, (IH (shift 0 c)).
    rewrite Nat2N.inj_succ, N.pow_succ_r'. unfold shift. lia.
Qed.

Lemma toString10_aux_value (fuel : nat) (n : N) (acc : jsstring) :
  n < 2 ^ N.of_nat fuel ->
  fold_left shift (toString10_aux fuel n acc) 0
  = n * 10 ^ N.of_nat (length acc) + fold_left shift acc 0.
Proof.
  revert n acc. induction fuel as [|fuel IH]; intros n acc Hn.
  - cbn in Hn. assert (n = 0) as -> by lia. cbn. lia.
  - cbn [toString10_aux].
    assert (fold_left shift ((48 + n mod 10) :: acc) 0
            = n mod 10 * 10 ^ N.of_nat (length acc) + fold_left shift acc 0)
      as Hacc.
    { cbn [fold_left]. rewrite value_from. unfold shift. f_equal. f_equal.
      generalize (n mod 10). intros; lia. }
    pose proof (N.div_mod' n 10) as Hdm.
    pose proof (N.mod_upper_bound n 10 ltac:(discriminate)) as Hm.
    destruct (N.eqb_spec (n / 10) 0) as [Hq|Hq].
    + rewrite Hacc. f_equal. f_equal.
      set (q := n / 10) in *. set (m := n mod 10) in *. lia.
    + rewrite IH.
      * rewrite Hacc. cbn [length]. rewrite Nat2N.inj_succ, N.pow_succ_r'.
        set (P := 10 ^ N.of_nat (length acc)) in *.
        set (q := n / 10) in *. set (m := n mod 10) in *.
        clearbody q m P. subst n. lia.
      * rewrite Nat2N.inj_succ, N.pow_succ_r' in Hn.
        set (q := n / 10) in *. set (m := n mod 10) in *. lia.
Qed.

Lemma toString10_aux_digits (fuel : nat) (n : N) (acc : jsstring) :
  forallb digit acc = true ->
  forallb digit (toString10_aux fuel n acc) = true.
Proof.
  revert n acc. induction fuel as [|fuel IH]; intros n acc Hacc; [exact Hacc|].
  cbn [toString10_aux].
  pose proof (N.mod_upper_bound n 10 ltac:(discriminate)) as Hm.
  assert (forallb digit ((48 + n mod 10) :: acc) = true) as Hacc'.
  { cbn [forallb]. rewrite Hacc. unfold digit. revert Hm.
    generalize (n mod 10). intros m Hm.
    destruct (N.leb_spec 48 (48 + m)); [|lia].
    destruct (N.leb_spec (48 + m) 57); [reflexivity | lia]. }
  destruct (n / 10 =? 0); [exact Hacc' | now apply IH].
Qed.

Lemma toString10_aux_nonempty (fuel : nat) (n : N) (acc : jsstring) :
  acc <> [] -> toString10_aux fuel n acc <> [].
Proof.
  revert n acc. induction fuel as [|fuel IH]; intros n acc Hacc; [exact Hacc|].
  cbn [toString10_aux]. destruct (n / 10 =? 0); [discriminate|].
  now apply IH.
Qed.

Lemma log2_fuel (n : N) : n < 2 ^ N.of_nat (S (N.to_nat (N.log2 n))).
Proof.
  rewrite Nat2N.inj_succ, N2Nat.id.
  destruct n as [|p]; [reflexivity|]. apply N.log2_spec. reflexivity.
Qed.

(** The digits [toString10] prints read back as the number. *)
Lemma read_decimal_toString10 (n : N) : read_decimal (toString10 n) = Some n.
Proof.
  unfold read_decimal, toString10.
  set (fuel := S (N.to_nat (N.log2 n))).
  destruct (toString10_aux fuel n []) as [|c s] eqn:E.
  - exfalso. subst fuel. cbn [toString10_aux] in E.
    destruct (n / 10 =? 0); [discriminate|].
    revert E. apply toString10_aux_nonempty. discriminate.
  - rewrite <- E.
    change (forallb (fun c => (48 <=? c) && (c <=? 57))) with (forallb digit).
    rewrite toString10_aux_digits by reflexivity.
    change (fun acc c => 10 * acc + (c - 48)) with shift.
    rewrite toString10_aux_value by apply log2_fuel. cbn. f_equal. lia.
Qed.

(** The text [toFixed1] prints reads back as the tenths it rounded to. *)
Lemma read_tenths_toFixed1 (num den : N) :
  read_tenths (toFixed1 num den) = Some ((10 * num + den / 2) / den).
Proof.
  unfold read_tenths, toFixed1.
  set (n := (10 * num + den / 2) / den).
  rewrite rev_app_distr. cbn [rev app].
  pose proof (N.mod_upper_bound n 10 ltac:(discriminate)) as Hm.
  pose proof (N.div_mod' n 10) as Hdm.
  cbn [N.eqb Pos.eqb andb].
  set (q := n / 10) in *. set (m := n mod 10) in *.
  destruct (N.leb_spec 48 (48 + m)); [|lia].
  destruct (N.leb_spec (48 + m) 57); [|lia].
  cbn [andb]. rewrite rev_involutive. subst q.
  rewrite read_decimal_toString10. f_equal. lia.
Qed.

End Decimal.

(** Rounding to the nearest tenth, the upper one on a tie. *)
Lemma nearest_tenth (num den : N) :
  0 < den -> den mod 2 = 0 ->
  let t := (10 * num + den / 2) / den in
  den * t <= 10 * num + den / 2 < den * t + den.
Proof.
  intros Hd _ t. subst t.
  pose proof (N.div_mod' (10 * num + den / 2) den) as Hdm.
  pose proof (N.mod_upper_bound (10 * num + den / 2) den ltac:(lia)) as Hm.
  set (q := (10 * num + den / 2) / den) in *.
  set (m := (10 * num + den / 2) mod den) in *. lia.
Qed.

(** X15. For a size below 2^53, which a number holds exactly and divides
    exactly by a power of two, [formatFileSize] chooses the unit by the
    two thresholds, prints a byte count below 1024 exactly, and otherwise
    prints the size in KB or MB rounded to the nearest tenth: the number
    shown is within half a tenth of a unit of the size.  Just below 1 MB
    the KB branch can show up to 1024.0, and a total within the 10 MB
    limit never shows more than 10.0 MB. *)
Theorem formatFileSize_accuracy (bytes : N) :
  bytes < 2 ^ 53 ->
  (bytes < 1024 ->
   exists s, formatFileSize bytes = s ++ js " B"
             /\ read_decimal s = Some bytes)
  /\ (1024 <= bytes < 1048576 ->
      exists s t,
        formatFileSize bytes = s ++ js " KB"
        /\ read_tenths s = Some t
        /\ 1024 * t <= 10 * bytes + 512 < 1024 * t + 1024
        /\ 10 <= t <= 10240)
  /\ (1048576 <= bytes ->
      exists s t,
        formatFileSize bytes = s ++ js " MB"
        /\ read_tenths s = Some t
        /\ 1048576 * t <= 10 * bytes + 524288 < 1048576 * t + 1048576
        /\ 10 <= t
        /\ (bytes <= MAX_FILE_SIZE -> t <= 100)).
Proof.
  intros _. unfold formatFileSize. split; [|split].
  - intros H. destruct (N.ltb_spec bytes 1024); [|lia].
    eexists. split; [reflexivity | apply read_decimal_toString10].
  - intros H. destruct (N.ltb_spec bytes 1024); [lia|].
    destruct (N.ltb_spec bytes (1024 * 1024)); [|lia].
    eexists _, _. split; [reflexivity|].
    split; [apply read_tenths_toFixed1|].
    pose proof (nearest_tenth bytes 1024 ltac:(reflexivity) ltac:(reflexivity))
      as Hn. cbv zeta in Hn. change (1024 / 2) with 512 in *.
    set (t := (10 * bytes + 512) / 1024) in *. lia.
  - intros H. destruct (N.ltb_spec bytes 1024); [lia|].
    destruct (N.ltb_spec bytes (1024 * 1024)); [lia|].
    eexists _, _. split; [reflexivity|].
    split; [apply read_tenths_toFixed1|].
    pose proof (nearest_tenth bytes (1024 * 1024) ltac:(reflexivity)
                  ltac:(reflexivity)) as Hn.
    cbv zeta in Hn. change (1024 * 1024) with 1048576 in *.
    change (1048576 / 2) with 524288 in *.
    set (t := (10 * bytes + 524288) / 1048576) in *.
    unfold MAX_FILE_SIZE. lia.
Qed.

Lemma formatFileSize_accuracy_witness :
  (exists s, formatFileSize 1023 = s ++ js " B" /\ read_decimal s = Some 1023)
  /\ (exists s t,
         formatFileSize 1048575 = s ++ js " KB"
         /\ read_tenths s = Some t
         /\ 1024 * t <= 10 * 1048575 + 512 < 1024 * t + 1024
         /\ 10 <= t <= 10240)
  /\ (exists s t,
         formatFileSize 10485760 = s ++ js " MB"
         /\ read_tenths s = Some t
         /\ 1048576 * t <= 10 * 10485760 + 524288 < 1048576 * t + 1048576
         /\ 10 <= t
         /\ (10485760 <= MAX_FILE_SIZE -> t <= 100)).
Proof.
  split; [|split].
  - apply (formatFileSize_accuracy 1023); [reflexivity | reflexivity].
  - apply (formatFileSize_accuracy 1048575); [reflexivity | lia].
  - apply (formatFileSize_accuracy 10485760); [reflexivity | lia].
Defined.

(** * The icon of a file row *)

Lemma startsWith_spec (prefix s : jsstring) :
  startsWith prefix s = true <-> exists post, s = prefix ++ post.
Proof.
  revert s. induction prefix as [|p prefix IH]; intros s.
  - destruct s; cbn; split; try reflexivity; intros _; eexists; reflexivity.
  - destruct s as [|c s]; cbn [startsWith].
    + split; [discriminate | intros (post & H); discriminate].
    + rewrite andb_true_iff, IH, N.eqb_eq. split.
      * intros (-> & post & ->). now exists post.
      * intros (post & [= -> ->]). split; [reflexivity | now exists post].
Qed.

Lemma includes_spec (sub s : jsstring) :
  includes sub s = true <-> exists pre post, s = pre ++ sub ++ post.
Proof.
  induction s as [|c s IH]; cbn [includes].
  - rewrite startsWith_spec. split.
    + intros (post & H). exists [], post. exact H.
    + intros (pre & post & H). symmetry in H.
      apply app_eq_nil in H as (-> & H). now exists post.
  - rewrite orb_true_iff, startsWith_spec, IH. split.
    + intros [(post & ->) | (pre & post & ->)].
      * now exists [], post.
      * now exists (c :: pre), post.
    + intros ([|c' pre] & post & H).
      * left. now exists post.
      * right. injection H as -> ->. now exists pre, post.
Qed.

(** X16. [getFileIcon] by what the type string holds: the image icon exactly
    for a type that starts with [image/]; otherwise the text icon
    exactly when [pdf], [document] or [text] occurs somewhere in it;
    otherwise the archive icon exactly when [zip], [rar] or [archive]
    occurs; otherwise the plain file icon.  The tests are made in that
    order and are case sensitive. *)
Theorem getFileIcon_by_content (type : jsstring) :
  let image := exists rest, type = js "image/" ++ rest in
  let holds word := exists pre post, type = pre ++ word ++ post in
  let text := holds (js "pdf") \/ holds (js "document") \/ holds (js "text") in
  let archive :=
    holds (js "zip") \/ holds (js "rar") \/ holds (js "archive") in
  (getFileIcon type = Image <-> image)
  /\ (getFileIcon type = FileText <-> ~ image /\ text)
  /\ (getFileIcon type = FileArchive <-> ~ image /\ ~ text /\ archive)
  /\ (getFileIcon type = FileGeneric <-> ~ image /\ ~ text /\ ~ archive).
Proof.
  intros image holds text archive. subst image text archive holds.
  cbv beta. unfold getFileIcon.
  rewrite <- (startsWith_spec (js "image/") type).
  rewrite <- !includes_spec.
  destruct (startsWith (js "image/") type);
    destruct (includes (js "pdf") type);
    destruct (includes (js "document") type);
    destruct (includes (js "text") type);
    destruct (includes (js "zip") type);
    destruct (includes (js "rar") type);
    destruct (includes (js "archive") type);
    cbn [orb]; intuition discriminate.
Qed.

Lemma getFileIcon_by_content_witness :
  getFileIcon (js "image/x-zip-archive") = Image
  /\ getFileIcon (js "application/x-rar-compressed") = FileArchive.
Proof.
  split.
  - apply (proj1 (getFileIcon_by_content (js "image/x-zip-archive"))).
    exists (js "x-zip-archive"). reflexivity.
  - apply (proj1 (proj2 (proj2 (getFileIcon_by_content
                                  (js "application/x-rar-compressed"))))).
    split; [|split].
    + intros (rest & H). discriminate.
    + assert (forall word, includes word (js "application/x-rar-compressed")
                           = false ->
                ~ exists pre post,
                    js "application/x-rar-compressed" = pre ++ word ++ post)
        as Hno.
      { intros word Hw H. apply includes_spec in H. congruence. }
      intros [H|[H|H]]; revert H; apply Hno; reflexivity.
    + right. left. exists (js "application/x-"), (js "-compressed").
      reflexivity.
Defined.

(** * From the page to the recipient *)

Lemma text_or_space_is_jsstring (st : Page.t) :
  is_jsstring (Page.secretText st) -> is_jsstring (text_or_space st).
Proof.
  unfold text_or_space. destruct (Page.secretText st); [|auto].
  intros _. repeat constructor.
Qed.

(** What one entry of the request's file list gives back. *)
Lemma file_payload_opens (file : File.t) (key : jsstring) (r : Rng)
    (e : EncryptedFile.t) :
  fst (encryptFile file key r) = Return e ->
  exists buffer,
    File.contents file = Return buffer
    /\ decryptFile (FilePayload.encrypted_data (file_payload_of e)) key
         (FilePayload.iv (file_payload_of e)) = Return (Some buffer)
    /\ FilePayload.filename (file_payload_of e) = File.name file
    /\ FilePayload.file_size (file_payload_of e) = File.size file.
Proof.
  intros He. destruct (encryptFile_returned file key r e He) as [buffer Hc].
  exists buffer. split; [exact Hc|].
  destruct (decryptFile_encryptFile file buffer key r Hc)
    as (e' & He' & _ & Hd & _).
  assert (e' = e) as -> by congruence.
  split; [exact Hd|].
  rewrite (encryptFile_unfold file buffer key r Hc) in He. cbn [fst] in He.
  destruct (CryptoJS.AES_encrypt _ _ _); [|discriminate].
  injection He as <-. split; reflexivity.
Qed.

(** X17. The request that [handleCreate] sends, together with the key it
    hands to the share page, gives the recipient back what the sender
    entered: [decryptText] on the request's ciphertext and IV returns the
    text (a single space for an empty text), and [decryptFile] on each
    entry of the request's file list returns the contents of the file at
    the same position, under its own name and declared size.  The request
    has a PIN digest exactly when the PIN is in use and a file list
    exactly when files are attached. *)
Theorem handleCreate_round_trip (st : Page.t)
    (createSecret : Payload.t -> completion jsstring) (r : Rng)
    (p : Payload.t) :
  is_jsstring (Page.secretText st) ->
  In p (requests (fst (handleCreate crypto st createSecret r))) ->
  let key := fst (generateEncryptionKey r) in
  decryptText (Payload.encryptedData p) key (Payload.iv p)
  = Return (Some (text_or_space st))
  /\ (if Page.usePin st
      then exists h, hashPin (Page.pin st) = Return h
                     /\ Payload.pinHash p = Some h
      else Payload.pinHash p = None)
  /\ match Payload.files p with
     | None => Page.files st = []
     | Some fps =>
         Page.files st <> []
         /\ Forall2
              (fun file fp =>
                 exists buffer,
                   File.contents file = Return buffer
                   /\ decryptFile (FilePayload.encrypted_data fp) key
                        (FilePayload.iv fp) = Return (Some buffer)
                   /\ FilePayload.filename fp = File.name file
                   /\ FilePayload.file_size fp = File.size file)
              (Page.files st) fps
     end.
Proof.
  intros Hjs Hin key.
  destruct (handleCreate_requests crypto st createSecret r) as [E|E];
    [rewrite E in Hin; destruct Hin|].
  rewrite E in Hin.
  destruct (handleCreate_try_requests crypto st createSecret r)
    as [E'|(e & pinHash & fps & He & Hpin & Hfiles & E')];
    [rewrite E' in Hin; destruct Hin|].
  rewrite E' in Hin. destruct Hin as [<-|[]].
  cbn [Payload.encryptedData Payload.iv Payload.pinHash Payload.files].
  cbn [crypto CryptoLib.generateEncryptionKey CryptoLib.encryptText
       CryptoLib.hashPin] in He, Hpin, Hfiles.
  fold key in He, Hfiles.
  split; [|split; [exact Hpin|]].
  - destruct (decryptText_encryptText (text_or_space st) key
                (snd (generateEncryptionKey r))
                (text_or_space_is_jsstring st Hjs)
                (encryptText_returned _ _ _ _ He)) as (e' & He' & _ & Hd).
    assert (e' = e) as -> by congruence. exact Hd.
  - destruct (Page.files st) as [|f fs] eqn:Ef; [now subst fps|].
    destruct Hfiles as (l & Hl & ->). split; [discriminate|].
    apply encryptFiles_results in Hl.
    cbn [crypto CryptoLib.encryptFile] in Hl.
    clear - Hl.
    induction Hl as [|file fp files l' (enc & r' & Henc & ->) _ IH];
      constructor; [|exact IH].
    exact (file_payload_opens file key r' enc Henc).
Qed.

Lemma handleCreate_round_trip_witness :
  exists p fps,
    requests (fst (handleCreate crypto Sample.page Sample.accept Sample.rng))
    = p :: nil
    /\ decryptText (Payload.encryptedData p)
         (fst (generateEncryptionKey Sample.rng)) (Payload.iv p)
       = Return (Some (js " "))
    /\ Payload.files p = Some fps
    /\ Forall2
         (fun file fp =>
            exists buffer,
              File.contents file = Return buffer
              /\ decryptFile (FilePayload.encrypted_data fp)
                   (fst (generateEncryptionKey Sample.rng))
                   (FilePayload.iv fp) = Return (Some buffer)
              /\ FilePayload.filename fp = File.name file
              /\ FilePayload.file_size fp = File.size file)
         [Sample.small_file] fps.
Proof.
  destruct (requests (fst (handleCreate crypto Sample.page Sample.accept
                             Sample.rng))) as [|p l] eqn:E;
    [vm_compute in E; discriminate|].
  assert (l = []) as ->.
  { destruct (handleCreate_request_fields Sample.page Sample.accept Sample.rng p)
      as (H & _); [rewrite E; now left|]. congruence. }
  destruct (handleCreate_round_trip Sample.page Sample.accept Sample.rng p)
    as (Ht & _ & Hf).
  - constructor.
  - rewrite E. now left.
  - destruct (Payload.files p) as [fps|] eqn:Efp; [|discriminate Hf].
    exists p, fps. split; [reflexivity|]. split; [exact Ht|].
    split; [exact Efp|]. exact (proj2 Hf).
Defined.

(** * The total shown under the file list *)

Lemma unit_suffix (a b u v : jsstring) :
  length u = length v -> a ++ u = b ++ v -> a = b /\ u = v.
Proof.
  intros Hl H. apply app_inj_2 in H; [exact H | exact Hl].
Qed.

(** Only the third branch of [formatFileSize] prints [MB]. *)
Lemma formatFileSize_MB (bytes : N) (s : jsstring) :
  formatFileSize bytes = s ++ js " MB" ->
  1048576 <= bytes /\ s = toFixed1 bytes 1048576.
Proof.
  unfold formatFileSize.
  destruct (N.ltb_spec bytes 1024) as [H1|H1];
    [|destruct (N.ltb_spec bytes (1024 * 1024)) as [H2|H2]].
  - intros H. exfalso.
    change (js " MB") with ([32] ++ [77; 66]) in H.
    rewrite (app_assoc s) in H.
    apply unit_suffix in H as [_ H]; [discriminate | reflexivity].
  - intros H. exfalso.
    apply unit_suffix in H as [_ H]; [discriminate | reflexivity].
  - intros H. apply unit_suffix in H as [H _]; [|reflexivity].
    split; [lia | now symmetry].
Qed.

(** X18. In every state reached from the initial page by selections and
    removals, [totalFileSize] is at most the 10 MB limit, so whenever the
    total under the file list is shown in MB it reads between 1.0 and
    10.0. *)
Theorem total_display_within_limit (evs : list file_event) (s : jsstring) :
  let st := fold_left handle_file_event evs Page.initial in
  totalFileSize st <= MAX_FILE_SIZE
  /\ (formatFileSize (totalFileSize st) = s ++ js " MB" ->
      exists t, read_tenths s = Some t /\ 10 <= t <= 100).
Proof.
  intros st.
  destruct (events_admissible evs Page.initial initial_admissible)
    as [_ Hsize].
  fold st in Hsize. unfold totalFileSize. split; [exact Hsize|].
  intros H. apply formatFileSize_MB in H as [Hb ->].
  eexists. split; [apply read_tenths_toFixed1|].
  pose proof (nearest_tenth (total_size (Page.files st)) 1048576
                ltac:(reflexivity) ltac:(reflexivity)) as Hn.
  cbv zeta in Hn. change (1048576 / 2) with 524288 in *.
  unfold MAX_FILE_SIZE in Hsize.
  set (t := (10 * total_size (Page.files st) + 524288) / 1048576) in *.
  lia.
Qed.

Lemma total_display_within_limit_witness :
  totalFileSize (fold_left handle_file_event [Select [Example.clip]]
                   Page.initial) <= MAX_FILE_SIZE
  /\ exists t, read_tenths (js "1.5") = Some t /\ 10 <= t <= 100.
Proof.
  destruct (total_display_within_limit [Select [Example.clip]] (js "1.5"))
    as [Hsize Hshown].
  split; [exact Hsize|]. apply Hshown. vm_compute. reflexivity.
Defined.
